(** * Rubics: the voxel cube of [src/main.py]

    A shallow embedding of the lattice model ([VoxelRubiks]), the move
    algebra ([Move], [inverse_history], [scramble]), the rotation engine
    ([_rotate_slice_90]) and the turn scheduler of [VoxelQtScene]
    ([enqueue_move], [_start_next_turn], [_on_tick]), followed by the
    properties the specification states about them.

    Python integers are [Z]; NumPy [int16] cells are [Z] with the wrap-around
    written out; Python and NumPy floats are IEEE-754 binary64 numbers, modelled
    by the rationals they denote with the rounding of every operation written
    out ([rnd]).  The collaborators that are not code of the repository (libm's
    [cos] and [sin], the Mersenne Twister behind [random], Qt's colours) are
    interfaces ([Libm], [Random], [QtColor]). *)

From Stdlib Require Import ZArith QArith Qabs Qround Qpower Lqa Lia.
From Stdlib Require Import List Bool String Ascii Permutation Morphisms.
From Stdlib Require Import Floats.
Import ListNotations.

Local Open Scope Z_scope.

(* ================================================================== *)
(** * Binary64 arithmetic                                               *)
(* ================================================================== *)

(** A finite double is the rational it denotes.  Every arithmetic operation
    computes the exact rational result and rounds it to the nearest double,
    ties to even ([rnd]): 53 significant bits, least exponent [-1074]
    (subnormals included).  No operation of the cube reaches the overflow
    threshold [2^1024]; the one place where a quotient can overflow
    ([total_frames]) tests for it explicitly. *)
Module F64.

Definition float := Q.

(** [pow2 e] is [2^e], for negative [e] as well. *)
Definition pow2 (e : Z) : Q := Qpower 2 e.

(** [ilog2 q] is [floor (log2 |q|)] for [q <> 0]: the difference of the bit
    lengths of numerator and denominator, or one less. *)
Definition ilog2 (q : Q) : Z :=
  let e0 := Z.log2 (Z.abs (Qnum q)) - Z.log2 (Zpos (Qden q)) in
  if Qle_bool (pow2 e0) (Qabs q) then e0 else e0 - 1.

(** Round to the nearest integer, ties to the even one: [np.rint] and
    Python's [round]. *)
Definition rint_even (q : Q) : Z :=
  let f := Qfloor q in
  match Qcompare (q - inject_Z f) (1 # 2) with
  | Lt => f
  | Gt => f + 1
  | Eq => if Z.even f then f else f + 1
  end.

(** The exponent of the last place of the double nearest to [q]. *)
Definition ulp_exp (q : Q) : Z := Z.max (ilog2 q - 52) (-1074).

(** Round to nearest double, ties to even. *)
Definition rnd (q : Q) : float :=
  let q := Qred q in
  if Qeq_bool q 0 then 0%Q
  else
    let ex := ulp_exp q in
    Qred (inject_Z (rint_even (q / pow2 ex)) * pow2 ex).

Definition of_int (z : Z) : float := rnd (inject_Z z).
Definition add (a b : float) : float := rnd (a + b).
Definition sub (a b : float) : float := rnd (a - b).
Definition mul (a b : float) : float := rnd (a * b).
(** The divisor is non-zero wherever the program divides; the one division by
    a variable ([total_frames]) is guarded there. *)
Definition div (a b : float) : float := rnd (a / b).
Definition neg (a : float) : float := Qred (- a).

(** [int(x)] of a finite float: truncation toward zero. *)
Definition trunc (q : float) : Z := Z.quot (Qnum q) (Zpos (Qden q)).

(** [x < 2^1024] in magnitude: the float is finite. *)
Definition finite (q : Q) : bool :=
  negb (Qle_bool (pow2 1024) (Qabs q)).

(** The rational a [spec_float] denotes, to compare [rnd] with the
    machine's arithmetic on samples. *)
Definition SF2Q (x : SpecFloat.spec_float) : Q :=
  match x with
  | SpecFloat.S754_finite s m e =>
      Qred ((if s then -1 else 1) * inject_Z (Zpos m) * pow2 e)
  | _ => 0%Q
  end.

Definition of_prim (x : PrimFloat.float) : Q := SF2Q (FloatOps.Prim2SF x).

End F64.

Import F64.

(** [math.pi], the double nearest to pi. *)
Definition math_pi : float :=
  Eval vm_compute in of_prim 0x1.921fb54442d18p+1%float.

(** The collaborators of the program that are not code of the repository. *)

(** libm, through Python's [math.cos] and [math.sin]. *)
Class Libm := {
  math_cos : float -> float;
  math_sin : float -> float
}.

(** The generator behind Python's [random] module: [random.seed(h)] installs
    the state [random_seed h]; [_randbelow k] draws from a state. *)
Class Random := {
  rng : Type;
  random_seed : Z -> rng;
  randbelow : Z -> rng -> Z * rng
}.

(** Qt's channel readers for a colour given by its hex name,
    [QColor('#rrggbb').redF()] and the like. *)
Class QtColor := {
  redF : string -> float;
  greenF : string -> float;
  blueF : string -> float
}.

(* ================================================================== *)
(** * Python and NumPy helpers                                          *)
(* ================================================================== *)

(** [range(n)]; empty for [n <= 0]. *)
Definition range (n : Z) : list Z := map Z.of_nat (seq 0 (Z.to_nat n)).

(** Storing into an [np.int16] / [np.uint8] cell. *)
Definition int16 (z : Z) : Z := (z + 32768) mod 65536 - 32768.
Definition uint8 (z : Z) : Z := z mod 256.

(** [arr[mask]]: the rows selected by a boolean mask, in order. *)
Fixpoint gather {A : Type} (mask : list bool) (rows : list A) : list A :=
  match mask, rows with
  | b :: mask', r :: rows' =>
      if b then r :: gather mask' rows' else gather mask' rows'
  | _, _ => []
  end.

(** [arr[mask] = new]: the selected rows are overwritten, in order, by the
    rows of [new]. *)
Fixpoint scatter {A : Type} (mask : list bool) (rows new : list A) : list A :=
  match mask, rows with
  | b :: mask', r :: rows' =>
      if b then
        match new with
        | v :: new' => v :: scatter mask' rows' new'
        | [] => r :: rows'
        end
      else r :: scatter mask' rows' new
  | _, _ => rows
  end.

(** [np.where(mask)[0]]: the positions where the mask holds. *)
Fixpoint where_from (i : nat) (mask : list bool) : list nat :=
  match mask with
  | [] => []
  | b :: mask' =>
      if b then i :: where_from (S i) mask' else where_from (S i) mask'
  end.
Definition np_where (mask : list bool) : list nat := where_from 0 mask.

(** [np.rint] on a double, and [.astype(np.int16)] of a double. *)
Definition np_rint (x : float) : float := inject_Z (rint_even x).
Definition astype_int16 (x : float) : Z := int16 (trunc x).

(** [lst[i] = v] on a Python list: [None] is the [IndexError]. *)
Fixpoint list_set {A : Type} (l : list A) (i : nat) (v : A) : option (list A) :=
  match l, i with
  | [], _ => None
  | _ :: t, O => Some (v :: t)
  | h :: t, S i' =>
      match list_set t i' v with
      | Some t' => Some (h :: t')
      | None => None
      end
  end.

(** A Python [str] is the list of its code points ([ord]). *)
Definition str := list Z.

Definition of_string (s : string) : str :=
  map (fun c => Z.of_nat (nat_of_ascii c)) (list_ascii_of_string s).

(** [ch.isspace()], the characters [str.strip()] removes. *)
Definition isspace (c : Z) : bool :=
  ((9 <=? c) && (c <=? 13)) || ((28 <=? c) && (c <=? 32))
  || (c =? 133) || (c =? 160) || (c =? 5760)
  || ((8192 <=? c) && (c <=? 8202))
  || (c =? 8232) || (c =? 8233) || (c =? 8239) || (c =? 8287) || (c =? 12288).

Fixpoint lstrip (s : str) : str :=
  match s with
  | c :: s' => if isspace c then lstrip s' else s
  | [] => []
  end.

Definition strip (s : str) : str := rev (lstrip (rev (lstrip s))).

(* ================================================================== *)
(** * The program                                                       *)
(* ================================================================== *)

(** Face flags. *)
Definition U : Z := 1.
Definition D : Z := 2.
Definition F : Z := 4.
Definition B : Z := 8.
Definition L : Z := 16.
Definition R : Z := 32.

(** [class Move]: a slice turn of [k] quarter-turns. *)
Module Move.
Record t := mk {
  axis : string;   (* 'x'|'y'|'z' *)
  index : Z;       (* slice index *)
  k : Z            (* quarter-turns (1..3) *)
}.
End Move.

(** A [QColor], as far as [blend_colors] builds one: from a hex name, or
    from channels by [setRgbF]. *)
Inductive QColor :=
| QColor_name (name : string)
| QColor_rgbF (r g b a : float).

Section BlendColors.
Context `{QtColor}.

Definition face_colors : list (Z * string) :=
  [ (U, "#ffd60a"%string);   (* yellow *)
    (D, "#ffffff"%string);   (* white *)
    (F, "#00a651"%string);   (* green *)
    (B, "#0057ff"%string);   (* blue *)
    (L, "#ff8c00"%string);   (* orange *)
    (R, "#ff0030"%string) ]. (* red *)

(** The loop of [blend_colors]: the channel sums and the count [cnt] of the
    faces whose bit is set in [bits]. *)
Definition blend_sums (bits : Z) : float * float * float * Z :=
  fold_left
    (fun '(rs, gs, bs, cnt) '(bit, col) =>
       if negb (Z.land bits bit =? 0)
       then (add rs (redF col), add gs (greenF col), add bs (blueF col), cnt + 1)
       else (rs, gs, bs, cnt))
    face_colors (0%Q, 0%Q, 0%Q, 0).

(** Python's [max(0.0, min(1.0, v))]. *)
Definition clamp01 (v : float) : float :=
  let m := if Qlt_le_dec v 1 then v else 1%Q in
  if Qlt_le_dec 0 m then m else 0%Q.

Definition blend_colors (bits : Z) : QColor :=
  let '(rs, gs, bs, cnt) := blend_sums bits in
  if cnt =? 0 then QColor_name "#111111"
  else
    let r := clamp01 (div rs (of_int cnt)) in
    let g := clamp01 (div gs (of_int cnt)) in
    let b := clamp01 (div bs (of_int cnt)) in
    QColor_rgbF r g b 1%Q.

End BlendColors.

(** A row of [coords]: the integer position [(x, y, z)] of a cubelet. *)
Definition cell : Type := Z * Z * Z.

(** [class VoxelRubiks]: outer-shell cubelets on the integer grid. *)
Module VoxelRubiks.

Record t := mk {
  n : Z;
  half : float;
  coords : list cell;     (* np.int16, shape (M,3) *)
  masks : list Z;         (* np.uint8 *)
  solved : list cell;
  history : list Move.t
}.

Definition set_coords (v : t) (c : list cell) : t :=
  mk (n v) (half v) c (masks v) (solved v) (history v).

Definition set_history (v : t) (h : list Move.t) : t :=
  mk (n v) (half v) (coords v) (masks v) (solved v) h.

(** [x in (0, n-1)]. *)
Definition on_face (n x : Z) : bool := (x =? 0) || (x =? n - 1).

Definition face_mask (n x y z : Z) : Z :=
  let mask := 0 in
  let mask := if z =? 0 then Z.lor mask U else mask in
  let mask := if z =? n - 1 then Z.lor mask D else mask in
  let mask := if y =? 0 then Z.lor mask F else mask in
  let mask := if y =? n - 1 then Z.lor mask B else mask in
  let mask := if x =? 0 then Z.lor mask L else mask in
  let mask := if x =? n - 1 then Z.lor mask R else mask in
  mask.

(** The three nested loops of the constructor: the cubelets of the outer
    shell with their masks, [z] outermost, [x] innermost. *)
Definition shell_cubelets (n : Z) : list (cell * Z) :=
  flat_map (fun z =>
    flat_map (fun y =>
      flat_map (fun x =>
        if on_face n x || on_face n y || on_face n z
        then [((x, y, z), face_mask n x y z)]
        else [])
      (range n))
    (range n))
  (range n).

Definition int16_cell (c : cell) : cell :=
  let '(x, y, z) := c in (int16 x, int16 y, int16 z).

(** [VoxelRubiks(n)]; [None] is the failed assertion [n >= 2]. *)
Definition __init__ (n : Z) : option t :=
  if 2 <=? n then
    let cubelets := shell_cubelets n in
    let coords := map int16_cell (map fst cubelets) in
    Some (mk n (div (of_int (n - 1)) 2%Q) coords
             (map uint8 (map snd cubelets)) coords [])
  else None.

Definition reset (v : t) : t :=
  mk (n v) (half v) (solved v) (masks v) (solved v) [].

Section Scramble.
Context `{Random}.

(** [random.choice(seq)] is [seq[_randbelow(len(seq))]]. *)
Definition random_choice {A : Type} (seq : list A) (g : rng) : option (A * rng) :=
  let '(i, g') := randbelow (Z.of_nat (List.length seq)) g in
  if (0 <=? i) && (i <? Z.of_nat (List.length seq)) then
    match nth_error seq (Z.to_nat i) with
    | Some a => Some (a, g')
    | None => None
    end
  else None.

(** [random.randint(a, b)] is [a + _randbelow(b - a + 1)]; an empty range
    raises. *)
Definition random_randint (a b : Z) (g : rng) : option (Z * rng) :=
  if 0 <? b - a + 1 then
    let '(r, g') := randbelow (b - a + 1) g in Some (a + r, g')
  else None.

Fixpoint scramble_loop (count : nat) (n : Z) (g : rng) (seq : list Move.t)
  : option (list Move.t * rng) :=
  match count with
  | O => Some (seq, g)
  | S count' =>
      match random_choice ["x"; "y"; "z"]%string g with
      | None => None
      | Some (axis, g1) =>
          match random_randint 0 (n - 1) g1 with
          | None => None
          | Some (index, g2) =>
              match random_choice [1; 2; 3] g2 with
              | None => None
              | Some (k, g3) =>
                  scramble_loop count' n g3 (seq ++ [Move.mk axis index k])
              end
          end
      end
  end.

(** [scramble(moves, seed)] on the lattice [v] with the generator in state
    [g]: the sequence drawn, the lattice with the sequence recorded, and the
    generator's new state. *)
Definition scramble (moves : Z) (seed : option Z) (v : t) (g : rng)
  : option (list Move.t * t * rng) :=
  let g := match seed with Some h => random_seed h | None => g end in
  match scramble_loop (Z.to_nat moves) (n v) g [] with
  | None => None
  | Some (seq, g') => Some (seq, set_history v (history v ++ seq), g')
  end.

End Scramble.

Definition inverse_history (v : t) : list Move.t :=
  fold_left
    (fun inv m =>
       let inv_k := (4 - Move.k m mod 4) mod 4 in
       if negb (inv_k =? 0)
       then inv ++ [Move.mk (Move.axis m) (Move.index m) inv_k]
       else inv)
    (rev (history v)) [].

Definition _slice_mask (axis : string) (index : Z) (v : t) : list bool :=
  if String.eqb axis "x" then map (fun '(x, _, _) => x =? index) (coords v)
  else if String.eqb axis "y" then map (fun '(_, y, _) => y =? index) (coords v)
  else map (fun '(_, _, z) => z =? index) (coords v).

Section Rotate.
Context `{Libm}.

(** The rotation of one row of [pts] (already translated by [-half]). *)
Definition rotate_row (axis : string) (c s : float)
  (p : float * float * float) : float * float * float :=
  let '(x, y, z) := p in
  if String.eqb axis "x" then
    (x, sub (mul c y) (mul s z), add (mul s y) (mul c z))
  else if String.eqb axis "y" then
    (add (mul c x) (mul s z), y, add (mul (neg s) x) (mul c z))
  else
    (sub (mul c x) (mul s y), add (mul s x) (mul c y), z).

(** Commit a quarter-turn of the slice: updates the integer [coords]. *)
Definition _rotate_slice_90 (axis : string) (index : Z) (dir_sign : Z) (v : t) : t :=
  let mask := _slice_mask axis index v in
  let pts := map (fun '(x, y, z) => (of_int x, of_int y, of_int z))
                 (gather mask (coords v)) in
  let pts := map (fun '(x, y, z) => (sub x (half v), sub y (half v), sub z (half v))) pts in
  let a := mul (of_int dir_sign) (div math_pi 2%Q) in
  let c := math_cos a in
  let s := math_sin a in
  let pts := map (rotate_row axis c s) pts in
  let snapped :=
    map (fun '(x, y, z) =>
           (astype_int16 (np_rint (add x (half v))),
            astype_int16 (np_rint (add y (half v))),
            astype_int16 (np_rint (add z (half v))))) pts in
  set_coords v (scatter mask (coords v) snapped).

End Rotate.

End VoxelRubiks.

(** A presentation position: the translation of a cubelet's transform. *)
Definition vec3 : Type := float * float * float.

(** [class CubeletEntity]: the per-cubelet transform and colour. *)
Module CubeletEntity.

Record t := mk {
  color : QColor;
  translation : vec3;
  scale : float
}.

Definition set_position (e : t) (pos : vec3) : t :=
  mk (color e) pos (scale e).

Definition set_scale (e : t) (s : float) : t :=
  mk (color e) (translation e) s.

Definition __init__ (color : QColor) (pos : vec3) (scale : float) : t :=
  set_scale (set_position (mk color (0%Q, 0%Q, 0%Q) 1%Q) pos) scale.

End CubeletEntity.

(** [class VoxelQtScene]: the controls and the animation loop.  The widgets'
    current values are arguments of the handlers that read them. *)
Module VoxelQtScene.

(** A queued unit quarter-turn [(axis, index, dir)]. *)
Definition turn : Type := string * Z * Z.

Record t := mk {
  n : Z;
  model : VoxelRubiks.t;
  half : float;
  cubelets : list CubeletEntity.t;
  queue : list turn;
  animating : bool;
  frame : Z;
  frames_per_turn : Z;
  speed : float;
  current_move : option turn;
  moving_indices : option (list nat)
}.

Definition set_model (s : t) (m : VoxelRubiks.t) : t :=
  mk (n s) m (half s) (cubelets s) (queue s) (animating s) (frame s)
     (frames_per_turn s) (speed s) (current_move s) (moving_indices s).

Definition set_cubelets (s : t) (c : list CubeletEntity.t) : t :=
  mk (n s) (model s) (half s) c (queue s) (animating s) (frame s)
     (frames_per_turn s) (speed s) (current_move s) (moving_indices s).

Definition set_queue (s : t) (q : list turn) : t :=
  mk (n s) (model s) (half s) (cubelets s) q (animating s) (frame s)
     (frames_per_turn s) (speed s) (current_move s) (moving_indices s).

Definition set_frame (s : t) (f : Z) : t :=
  mk (n s) (model s) (half s) (cubelets s) (queue s) (animating s) f
     (frames_per_turn s) (speed s) (current_move s) (moving_indices s).

Definition set_speed (s : t) (v : float) : t :=
  mk (n s) (model s) (half s) (cubelets s) (queue s) (animating s) (frame s)
     (frames_per_turn s) v (current_move s) (moving_indices s).

(** The base position of a cubelet: its lattice row translated by [-h]. *)
Definition base_pos (h : float) (c : cell) : vec3 :=
  let '(x, y, z) := c in (sub (of_int x) h, sub (of_int y) h, sub (of_int z) h).

(** [scale=0.92]. *)
Definition cubelet_scale : float :=
  Eval vm_compute in of_prim 0x1.d70a3d70a3d71p-1%float.

Section Init.
Context `{QtColor}.

(** [for i, (x,y,z) in enumerate(coords)]: one entity per cubelet, coloured
    from [masks[i]]. *)
Fixpoint build_cubelets (h : float) (coords : list cell) (masks : list Z)
  : option (list CubeletEntity.t) :=
  match coords with
  | [] => Some []
  | c :: coords' =>
      match masks with
      | [] => None
      | mask :: masks' =>
          match build_cubelets h coords' masks' with
          | None => None
          | Some ents =>
              Some (CubeletEntity.__init__ (blend_colors mask) (base_pos h c)
                      cubelet_scale :: ents)
          end
      end
  end.

Definition __init__ (n : Z) : option t :=
  match VoxelRubiks.__init__ n with
  | None => None
  | Some model =>
      let half := div (of_int (n - 1)) 2%Q in
      match build_cubelets half (VoxelRubiks.coords model) (VoxelRubiks.masks model) with
      | None => None
      | Some cubelets =>
          Some (mk n model half cubelets [] false 0 12 1%Q None None)
      end
  end.

End Init.

(** Map the slider's 1..50 to 0.25..4.0. *)
Definition on_speed_changed (value : Z) (s : t) : t :=
  set_speed s
    (add (1 # 4) (mul (of_int (value - 1))
                      (div (15 # 4) 49%Q))).

Definition enqueue_move (axis : string) (index : Z) (k : Z) (record : bool) (s : t) : t :=
  let steps := k mod 4 in
  let s := set_queue s (queue s ++ repeat (axis, index, 1) (Z.to_nat steps)) in
  if record then
    set_model s (VoxelRubiks.set_history (model s)
                   (VoxelRubiks.history (model s) ++ [Move.mk axis index steps]))
  else s.

(** The [Turn] button, with the values of the axis box, the slice spin box
    and the index of the quarter-turn box. *)
Definition on_turn_clicked (axis : string) (index : Z) (kIndex : Z) (s : t) : t :=
  enqueue_move axis index (kIndex + 1) true s.

(** [for m in seq: self.enqueue_move(m.axis, m.index, m.k, record=False)]. *)
Definition enqueue_all (seq : list Move.t) (s : t) : t :=
  fold_left (fun s m => enqueue_move (Move.axis m) (Move.index m) (Move.k m) false s)
            seq s.

(** The FNV-1a 32-bit hash of the seed text. *)
Definition fnv1a (seed_text : str) : Z :=
  fold_left (fun h ch => Z.land (Z.lxor h ch * 16777619) 4294967295)
            seed_text 2166136261.

Section ScrambleClicked.
Context `{Random}.

(** The [Scramble] button, with the value of the move spin box and the text
    of the seed field; [g] is the state of the [random] module. *)
Definition on_scramble_clicked (moves : Z) (text : str) (s : t) (g : rng)
  : option (t * rng) :=
  let seed_text := strip text in
  let seed :=
    match seed_text with
    | [] => None
    | _ => Some (fnv1a seed_text)
    end in
  match VoxelRubiks.scramble moves seed (model s) g with
  | None => None
  | Some (seq, model', g') => Some (enqueue_all seq (set_model s model'), g')
  end.

End ScrambleClicked.

Definition on_solve_clicked (s : t) : t :=
  let inv := VoxelRubiks.inverse_history (model s) in
  let s := enqueue_all inv s in
  set_model s (VoxelRubiks.set_history (model s) []).

(** [for i in idxs: x,y,z = coords[i]; cubelets[i].set_position(f(x,y,z))];
    [None] is an [IndexError]. *)
Fixpoint set_positions (f : cell -> vec3) (coords : list cell) (idxs : list nat)
  (cubelets : list CubeletEntity.t) : option (list CubeletEntity.t) :=
  match idxs with
  | [] => Some cubelets
  | i :: idxs' =>
      match nth_error coords i, nth_error cubelets i with
      | Some c, Some e =>
          match list_set cubelets i (CubeletEntity.set_position e (f c)) with
          | Some cubelets' => set_positions f coords idxs' cubelets'
          | None => None
          end
      | _, _ => None
      end
  end.

Definition on_reset_clicked (s : t) : option t :=
  let model' := VoxelRubiks.reset (model s) in
  let coords := VoxelRubiks.coords model' in
  match set_positions (base_pos (half s)) coords
          (seq 0 (List.length coords)) (cubelets s) with
  | None => None
  | Some cubelets' =>
      Some (mk (n s) model' (half s) cubelets' [] false (frame s)
               (frames_per_turn s) (speed s) None (moving_indices s))
  end.

Definition _start_next_turn (s : t) : t :=
  match queue s with
  | [] =>
      mk (n s) (model s) (half s) (cubelets s) (queue s) false (frame s)
         (frames_per_turn s) (speed s) None None
  | (axis, index, dir_sign) :: queue' =>
      let mask := VoxelRubiks._slice_mask axis index (model s) in
      mk (n s) (model s) (half s) (cubelets s) queue' true 0
         (frames_per_turn s) (speed s) (Some (axis, index, dir_sign))
         (Some (np_where mask))
  end.

(** [max(1, int(frames_per_turn / speed))]; [None] is the
    [ZeroDivisionError] of a zero speed or the [OverflowError] of [int] on an
    infinite quotient. *)
Definition total_frames (frames_per_turn : Z) (speed : float) : option Z :=
  if Qeq_bool speed 0 then None
  else
    let q := div (of_int frames_per_turn) speed in
    if finite q then Some (Z.max 1 (trunc q)) else None.

(** [frame / max(1, total_frames - 1)], the true division of two integers. *)
Definition t01 (frame total_frames : Z) : float :=
  rnd (inject_Z frame / inject_Z (Z.max 1 (total_frames - 1))).

Section Tick.
Context `{Libm}.

(** The interpolated position of a moving cubelet at [angle]. *)
Definition interp_pos (axis : string) (c s h : float) (p : cell) : vec3 :=
  let '(px, py, pz) := base_pos h p in
  if String.eqb axis "x" then
    (px, sub (mul c py) (mul s pz), add (mul s py) (mul c pz))
  else if String.eqb axis "y" then
    (add (mul c px) (mul s pz), py, add (mul (neg s) px) (mul c pz))
  else
    (sub (mul c px) (mul s py), add (mul s px) (mul c py), pz).

(** The part of [_on_tick] that runs while a turn is animated: move the
    slice's entities to the interpolated positions, count the frame and, when
    the last frame is reached, commit the rotation and start the next turn.
    [None] is an exception escaping the handler. *)
Definition animate_frame (s : t) : option t :=
  match current_move s, moving_indices s with
  | Some (axis, index, dir_sign), Some moving =>
      match total_frames (frames_per_turn s) (speed s) with
      | None => None
      | Some total =>
          let angle := mul (mul (of_int dir_sign) (div math_pi 2%Q))
                           (t01 (frame s) total) in
          let h := half s in
          let c := math_cos angle in
          let sn := math_sin angle in
          match set_positions (interp_pos axis c sn h)
                  (VoxelRubiks.coords (model s)) moving (cubelets s) with
          | None => None
          | Some cubelets1 =>
              let s := set_frame (set_cubelets s cubelets1) (frame s + 1) in
              if total <=? frame s then
                (* Commit rotation: snap integer coords and update visuals *)
                let s := set_model s
                           (VoxelRubiks._rotate_slice_90 axis index dir_sign (model s)) in
                match set_positions (base_pos h)
                        (VoxelRubiks.coords (model s)) moving (cubelets s) with
                | None => None
                | Some cubelets2 => Some (_start_next_turn (set_cubelets s cubelets2))
                end
              else Some s
          end
      end
  | _, _ => None
  end.

(** One timer tick. *)
Definition _on_tick (s : t) : option t :=
  let s := if negb (animating s) && negb (match queue s with [] => true | _ => false end)
           then _start_next_turn s else s in
  if negb (animating s) then Some s
  else animate_frame s.

(** [k] consecutive timer ticks. *)
Fixpoint ticks (k : nat) (s : t) : option t :=
  match k with
  | O => Some s
  | S k' =>
      match _on_tick s with
      | None => None
      | Some s' => ticks k' s'
      end
  end.

End Tick.

End VoxelQtScene.

(* ================================================================== *)
(** * The quarter-turn on the integer lattice                           *)
(* ================================================================== *)

(** The coordinate of a row along an axis, as [_slice_mask] reads it: any
    axis other than ['x'] and ['y'] selects the third column. *)
Definition axis_coord (axis : string) (p : cell) : Z :=
  let '(x, y, z) := p in
  if String.eqb axis "x" then x else if String.eqb axis "y" then y else z.

(** The exact quarter-turn of a cell about the centre of the lattice, in the
    sense [dir] ([+1] or [-1]). *)
Definition turn_cell (n : Z) (axis : string) (dir : Z) (p : cell) : cell :=
  let '(x, y, z) := p in
  let f v := n - 1 - v in
  if String.eqb axis "x" then
    if dir =? 1 then (x, f z, y) else (x, z, f y)
  else if String.eqb axis "y" then
    if dir =? 1 then (z, y, f x) else (f z, y, x)
  else
    if dir =? 1 then (f y, x, z) else (y, f x, z).

(** The quarter-turn of the slice [index]: cells outside the slice stay. *)
Definition turn_slice (n : Z) (axis : string) (index dir : Z) (p : cell) : cell :=
  if axis_coord axis p =? index then turn_cell n axis dir p else p.

Definition in_range (n : Z) (p : cell) : Prop :=
  let '(x, y, z) := p in 0 <= x <= n - 1 /\ 0 <= y <= n - 1 /\ 0 <= z <= n - 1.

(** What [_rotate_slice_90] computes for one selected row: translate by
    [-h], rotate, translate back, round, store as [int16]. *)
Definition snap_row (axis : string) (c s h : float) (p : cell) : cell :=
  let '(x, y, z) := p in
  let '(x1, y1, z1) :=
    VoxelRubiks.rotate_row axis c s
      (sub (of_int x) h, sub (of_int y) h, sub (of_int z) h) in
  (astype_int16 (np_rint (add x1 h)),
   astype_int16 (np_rint (add y1 h)),
   astype_int16 (np_rint (add z1 h))).

(** A cell of the outer shell: some coordinate is [0] or [n-1]. *)
Definition on_shell (n : Z) (p : cell) : bool :=
  let '(x, y, z) := p in
  VoxelRubiks.on_face n x || VoxelRubiks.on_face n y || VoxelRubiks.on_face n z.

(** The solved coordinate set, in construction order. *)
Definition shell_cells (n : Z) : list cell := map fst (VoxelRubiks.shell_cubelets n).

(** The rows of a lattice that lie in a slice. *)
Definition in_slice (axis : string) (index : Z) (p : cell) : bool :=
  axis_coord axis p =? index.

(** The unit quarter-turns [enqueue_move] appends for a sequence of moves
    that is not recorded. *)
Definition unit_turns (seq : list Move.t) : list VoxelQtScene.turn :=
  flat_map (fun m => repeat (Move.axis m, Move.index m, 1)
                            (Z.to_nat (Move.k m mod 4))) seq.

(** The commits of the scheduler for a queue of unit turns, in order. *)
Definition commit_turns `{Libm} (q : list VoxelQtScene.turn) (v : VoxelRubiks.t)
  : VoxelRubiks.t :=
  fold_left (fun v '(axis, index, dir_sign) =>
               VoxelRubiks._rotate_slice_90 axis index dir_sign v) q v.

(** The same turns on the integer lattice. *)
Definition turn_cells (n : Z) (q : list VoxelQtScene.turn) (cs : list cell) : list cell :=
  fold_left (fun cs '(axis, index, dir_sign) =>
               map (turn_slice n axis index dir_sign) cs) q cs.

(** The direction of a turn is one of the two quarter-turn senses. *)
Definition unit_dir (t : VoxelQtScene.turn) : Prop :=
  let '(_, _, dir_sign) := t in dir_sign = 1 \/ dir_sign = -1.

(** The inverse of a history in the words of the specification: reverse
    chronological order, each count mapped to [(4 - (k mod 4)) mod 4], the
    entries whose count is [0] omitted. *)
Definition inverse_spec (history : list Move.t) : list Move.t :=
  filter (fun m => negb (Move.k m =? 0))
    (map (fun m => Move.mk (Move.axis m) (Move.index m) ((4 - Move.k m mod 4) mod 4))
         (rev history)).

(** The count of set face bits, the [cnt] of [blend_colors]. *)
Definition blend_cnt `{QtColor} (bits : Z) : Z :=
  let '(_, _, _, cnt) := blend_sums bits in cnt.

(* ================================================================== *)
(** * Sample collaborators and lattices                                 *)
(* ================================================================== *)

(** Concrete collaborators and small lattices on which the statements below
    are instantiated and the definitions above are run. *)
Module Samples.

(** A libm known only at the two quarter-turn angles, with the values the
    usual libm returns there: [cos(+-pi/2) = 6.123233995736766e-17] and
    [sin(+-pi/2) = +-1.0]. *)
Definition half_pi : float := Eval vm_compute in div math_pi 2%Q.
Definition cos_half_pi : float :=
  Eval vm_compute in of_prim 0x1.1a62633145c07p-54%float.

#[export] Instance table_libm : Libm := {|
  math_cos a := if Qeq_bool (Qabs a) half_pi then cos_half_pi else 1%Q;
  math_sin a := if Qeq_bool a half_pi then 1%Q
                else if Qeq_bool a (- half_pi) then (-1)%Q else 0%Q
|}.

(** A linear congruential generator in the place of the Mersenne Twister. *)
#[export] Instance lcg_random : Random := {|
  rng := Z;
  random_seed h := h;
  randbelow k g :=
    let g' := (g * 1103515245 + 12345) mod 2147483648 in
    (if k =? 0 then 0 else (g' / 65536) mod k, g')
|}.

(** Channels of a [#rrggbb] name, each [byte / 255.0]. *)
Definition hex_digit (c : ascii) : Z :=
  let k := Z.of_nat (nat_of_ascii c) in
  if (48 <=? k) && (k <=? 57) then k - 48
  else if (97 <=? k) && (k <=? 102) then k - 87
  else if (65 <=? k) && (k <=? 70) then k - 55
  else 0.

Definition hex_byte (name : string) (pos : nat) : float :=
  match get pos name, get (S pos) name with
  | Some hi, Some lo => div (of_int (16 * hex_digit hi + hex_digit lo)) 255%Q
  | _, _ => 0%Q
  end.

#[export] Instance hex_colors : QtColor := {|
  redF name := hex_byte name 1;
  greenF name := hex_byte name 3;
  blueF name := hex_byte name 5
|}.

Definition empty_lattice : VoxelRubiks.t := VoxelRubiks.mk 0 0%Q [] [] [] [].

(** The 2x2x2 and 3x3x3 cubes. *)
Definition cube2 : VoxelRubiks.t :=
  Eval vm_compute in
    match VoxelRubiks.__init__ 2 with Some v => v | None => empty_lattice end.

Definition cube3 : VoxelRubiks.t :=
  Eval vm_compute in
    match VoxelRubiks.__init__ 3 with Some v => v | None => empty_lattice end.

Definition empty_scene : VoxelQtScene.t :=
  VoxelQtScene.mk 0 empty_lattice 0%Q [] [] false 0 12 1%Q None None.

Definition scene2 : VoxelQtScene.t :=
  Eval vm_compute in
    match VoxelQtScene.__init__ 2 with Some s => s | None => empty_scene end.

End Samples.

(* ================================================================== *)
(** * Facts about binary64 rounding                                     *)
(* ================================================================== *)

Module F64Facts.
Local Open Scope Q_scope.

Lemma pow2_pos e : 0 < pow2 e.
Proof. apply Qpower_0_lt. reflexivity. Qed.

Lemma pow2_add a b : pow2 (a + b) == pow2 a * pow2 b.
Proof. apply Qpower_plus. discriminate. Qed.

Lemma pow2_le a b : (a <= b)%Z -> pow2 a <= pow2 b.
Proof. intros H. apply Qpower_le_compat_l; [exact H | discriminate]. Qed.

Lemma pow2_lt_inv a b : pow2 a < pow2 b -> (a < b)%Z.
Proof. intros H. apply (Qpower_lt_compat_l_inv 2); [exact H | reflexivity]. Qed.

Lemma pow2_nonneg_inject e : (0 <= e)%Z -> pow2 e == inject_Z (2 ^ e).
Proof. intros H. unfold pow2. rewrite Zpower_Qpower by exact H. reflexivity. Qed.

Lemma Qabs_num_den q : Qabs q == inject_Z (Z.abs (Qnum q)) / inject_Z (Zpos (Qden q)).
Proof.
  destruct q as [a b]. unfold Qabs, Qeq, Qdiv, Qmult, Qinv, inject_Z. simpl. lia.
Qed.

Lemma Qdiv_le_cross p r a b : 0 < r -> 0 < b -> p * b <= a * r -> p / r <= a / b.
Proof.
  intros Hr Hb H.
  apply Qle_shift_div_l; [exact Hb|].
  setoid_replace (p / r * b) with (p * b / r) by (field; lra).
  apply Qle_shift_div_r; [exact Hr|]. exact H.
Qed.

Lemma Qdiv_lt_cross p r a b : 0 < r -> 0 < b -> p * b < a * r -> p / r < a / b.
Proof.
  intros Hr Hb H.
  apply Qlt_shift_div_l; [exact Hb|].
  setoid_replace (p / r * b) with (p * b / r) by (field; lra).
  apply Qlt_shift_div_r; [exact Hr|]. exact H.
Qed.

Lemma inject_Z_pos z : (0 < z)%Z -> 0 < inject_Z z.
Proof. intros H. unfold Qlt, inject_Z. simpl. lia. Qed.

Lemma num_nonzero q : ~ q == 0 -> (0 < Z.abs (Qnum q))%Z.
Proof.
  intros H. destruct q as [a b]. unfold Qeq in H. simpl in *. lia.
Qed.

Lemma ilog2_lower q : ~ q == 0 -> pow2 (ilog2 q) <= Qabs q.
Proof.
  intros Hq. unfold ilog2.
  set (a := Z.abs (Qnum q)). set (b := Zpos (Qden q)).
  destruct (Qle_bool (pow2 (Z.log2 a - Z.log2 b)) (Qabs q)) eqn:E.
  - apply Qle_bool_iff. exact E.
  - assert (Ha : (0 < a)%Z) by (apply num_nonzero; exact Hq).
    assert (Hb : (0 < b)%Z) by (unfold b; lia).
    destruct (Z.log2_spec a Ha) as [Ha1 _].
    destruct (Z.log2_spec b Hb) as [_ Hb2].
    rewrite Qabs_num_den. fold a b.
    replace (Z.log2 a - Z.log2 b - 1)%Z with (Z.log2 a - Z.succ (Z.log2 b))%Z by lia.
    unfold pow2. rewrite Qpower_minus by discriminate. fold (pow2 (Z.log2 a)) (pow2 (Z.succ (Z.log2 b))).
    rewrite !pow2_nonneg_inject by (pose proof (Z.log2_nonneg a); pose proof (Z.log2_nonneg b); lia).
    apply Qdiv_le_cross.
    + apply inject_Z_pos. lia.
    + apply inject_Z_pos. exact Hb.
    + rewrite <- !inject_Z_mult. rewrite <- Zle_Qle.
      set (P := (2 ^ Z.log2 a)%Z) in *. set (R := (2 ^ Z.succ (Z.log2 b))%Z) in *.
      assert (0 < P)%Z by (unfold P; apply Z.pow_pos_nonneg; [lia | apply Z.log2_nonneg]). nia.
Qed.

Lemma ilog2_upper q : ~ q == 0 -> Qabs q < pow2 (ilog2 q + 1).
Proof.
  intros Hq. unfold ilog2.
  set (a := Z.abs (Qnum q)). set (b := Zpos (Qden q)).
  destruct (Qle_bool (pow2 (Z.log2 a - Z.log2 b)) (Qabs q)) eqn:E.
  - assert (Ha : (0 < a)%Z) by (apply num_nonzero; exact Hq).
    assert (Hb : (0 < b)%Z) by (unfold b; lia).
    destruct (Z.log2_spec a Ha) as [_ Ha2].
    destruct (Z.log2_spec b Hb) as [Hb1 _].
    rewrite Qabs_num_den. fold a b.
    replace (Z.log2 a - Z.log2 b + 1)%Z with (Z.succ (Z.log2 a) - Z.log2 b)%Z by lia.
    unfold pow2. rewrite Qpower_minus by discriminate. fold (pow2 (Z.log2 b)) (pow2 (Z.succ (Z.log2 a))).
    rewrite !pow2_nonneg_inject by (pose proof (Z.log2_nonneg a); pose proof (Z.log2_nonneg b); lia).
    apply Qdiv_lt_cross.
    + apply inject_Z_pos. exact Hb.
    + apply inject_Z_pos. apply Z.pow_pos_nonneg; [lia | apply Z.log2_nonneg].
    + rewrite <- !inject_Z_mult. rewrite <- Zlt_Qlt.
      set (P := (2 ^ Z.log2 b)%Z) in *. set (R := (2 ^ Z.succ (Z.log2 a))%Z) in *.
      assert (0 < P)%Z by (unfold P; apply Z.pow_pos_nonneg; [lia | apply Z.log2_nonneg]). nia.
  - replace (Z.log2 a - Z.log2 b - 1 + 1)%Z with (Z.log2 a - Z.log2 b)%Z by lia.
    apply Qnot_le_lt. intros H. apply Qle_bool_iff in H. congruence.
Qed.

Lemma rint_even_err q : Qabs (inject_Z (rint_even q) - q) <= 1 # 2.
Proof.
  unfold rint_even.
  pose proof (Qfloor_le q) as Hl. pose proof (Qlt_floor q) as Hu.
  set (f := Qfloor q) in *.
  assert (Hf1 : inject_Z (f + 1) == inject_Z f + 1) by (rewrite inject_Z_plus; reflexivity).
  apply Qabs_Qle_condition.
  destruct (Qcompare_spec (q - inject_Z f) (1 # 2)) as [E|E|E].
  - destruct (Z.even f); [|rewrite Hf1]; lra.
  - lra.
  - rewrite Hf1. lra.
Qed.

Lemma rint_even_near q w : Qabs (q - inject_Z w) < 1 # 2 -> rint_even q = w.
Proof.
  intros H. pose proof (rint_even_err q) as E.
  set (r := rint_even q) in *.
  apply Qabs_Qle_condition in E.
  apply Qabs_Qlt_condition in H.
  assert (L : inject_Z (r - w) < 1 /\ -(1) < inject_Z (r - w)).
  { unfold Zminus. rewrite inject_Z_plus, inject_Z_opp. split; lra. }
  destruct L as [L1 L2].
  change 1 with (inject_Z 1) in L1, L2. rewrite <- inject_Z_opp in L2.
  rewrite <- Zlt_Qlt in L1, L2. lia.
Qed.

Lemma rint_even_inject z : rint_even (inject_Z z) = z.
Proof.
  apply rint_even_near. setoid_replace (inject_Z z - inject_Z z) with 0 by ring.
  reflexivity.
Qed.

Lemma rnd_compat p q : p == q -> rnd p = rnd q.
Proof. intros H. unfold rnd. rewrite (Qred_complete _ _ H). reflexivity. Qed.

Lemma rnd_zero q : q == 0 -> rnd q = 0.
Proof. intros H. rewrite (rnd_compat _ _ H). reflexivity. Qed.

(** The value of [rnd] away from zero, up to [==]. *)
Lemma rnd_unfold q :
  ~ q == 0 ->
  rnd q == inject_Z (rint_even (Qred q / pow2 (ulp_exp (Qred q)))) * pow2 (ulp_exp (Qred q)).
Proof.
  intros Hq. unfold rnd.
  destruct (Qeq_bool (Qred q) 0) eqn:E.
  - apply Qeq_bool_iff in E. rewrite Qred_correct in E. contradiction.
  - apply Qred_correct.
Qed.

Lemma half_ulp_bound q :
  ~ q == 0 ->
  pow2 (ulp_exp q) * (1 # 2) <= Qabs q * pow2 (-53) + pow2 (-1075).
Proof.
  intros Hq. unfold ulp_exp.
  pose proof (ilog2_lower q Hq) as L.
  pose proof (pow2_pos (-53)) as P53. pose proof (pow2_pos (-1075)) as P1075.
  assert (H12 : (1 # 2) == pow2 (-1)) by reflexivity.
  rewrite H12, <- pow2_add.
  destruct (Z.max_spec (ilog2 q - 52) (-1074)) as [[_ E]|[_ E]]; rewrite E.
  - change (-1074 + -1)%Z with (-1075)%Z.
    assert (0 <= Qabs q * pow2 (-53)) by (apply Qmult_le_0_compat; [apply Qabs_nonneg | lra]).
    lra.
  - replace (ilog2 q - 52 + -1)%Z with (ilog2 q + -53)%Z by lia.
    rewrite pow2_add.
    assert (pow2 (ilog2 q) * pow2 (-53) <= Qabs q * pow2 (-53)).
    { apply Qmult_le_compat_r; [exact L | lra]. }
    lra.
Qed.

Theorem rnd_err q : Qabs (rnd q - q) <= Qabs q * pow2 (-53) + pow2 (-1075).
Proof.
  destruct (Qeq_dec q 0) as [Z0|NZ].
  - rewrite (rnd_zero q Z0). rewrite Z0. vm_compute. discriminate.
  - assert (NZ' : ~ Qred q == 0) by (rewrite Qred_correct; exact NZ).
    rewrite (rnd_unfold q NZ).
    pose proof (half_ulp_bound (Qred q) NZ') as HB.
    rewrite Qred_correct in HB at 2.
    set (p := pow2 (ulp_exp (Qred q))) in *.
    assert (Pp : 0 < p) by apply pow2_pos.
    pose proof (rint_even_err (Qred q / p)) as E.
    set (r := inject_Z (rint_even (Qred q / p))) in *.
    apply Qabs_Qle_condition in E. destruct E as [E1 E2].
    assert (Q1 : (r - Qred q / p) * p == r * p - q).
    { rewrite <- (Qred_correct q) at 2. field. lra. }
    assert (M1 : (r - Qred q / p) * p <= (1 # 2) * p) by (apply Qmult_le_compat_r; lra).
    assert (M2 : - (1 # 2) * p <= (r - Qred q / p) * p) by (apply Qmult_le_compat_r; lra).
    apply Qabs_Qle_condition. rewrite Q1 in M1, M2. split; lra.
Qed.

Lemma ulp_exp_le m e q :
  (Z.abs m < 2 ^ 53)%Z -> (-1074 <= e)%Z -> ~ q == 0 ->
  q == inject_Z m * pow2 e -> (ulp_exp q <= e)%Z.
Proof.
  intros Hm He NZ Hq. unfold ulp_exp.
  apply Z.max_lub; [|exact He].
  pose proof (ilog2_lower q NZ) as L.
  assert (U : Qabs q < pow2 (53 + e)).
  { rewrite Hq, Qabs_Qmult, pow2_add.
    rewrite (Qabs_pos (pow2 e)) by (apply Qlt_le_weak, pow2_pos).
    apply Qmult_lt_compat_r; [apply pow2_pos|].
    rewrite pow2_nonneg_inject by lia.
    change (Qabs (inject_Z m)) with (inject_Z (Z.abs m)). rewrite <- Zlt_Qlt. exact Hm. }
  assert (pow2 (ilog2 q) < pow2 (53 + e)) by (eapply Qle_lt_trans; eassumption).
  apply pow2_lt_inv in H. lia.
Qed.

Theorem rnd_exact m e q :
  (Z.abs m < 2 ^ 53)%Z -> (-1074 <= e)%Z ->
  q == inject_Z m * pow2 e -> rnd q == q.
Proof.
  intros Hm He Hq.
  destruct (Qeq_dec q 0) as [Z0|NZ].
  - rewrite (rnd_zero q Z0). symmetry. exact Z0.
  - assert (NZ' : ~ Qred q == 0) by (rewrite Qred_correct; exact NZ).
    assert (Hq' : Qred q == inject_Z m * pow2 e) by (rewrite Qred_correct; exact Hq).
    pose proof (ulp_exp_le m e (Qred q) Hm He NZ' Hq') as Hex.
    rewrite (rnd_unfold q NZ).
    set (ex := ulp_exp (Qred q)) in *.
    assert (Pp : 0 < pow2 ex) by apply pow2_pos.
    assert (Hs : pow2 e == inject_Z (2 ^ (e - ex)) * pow2 ex).
    { rewrite <- pow2_nonneg_inject by lia. rewrite <- pow2_add.
      replace (e - ex + ex)%Z with e by lia. reflexivity. }
    assert (Hr : rint_even (Qred q / pow2 ex) = (m * 2 ^ (e - ex))%Z).
    { apply rint_even_near.
      setoid_replace (Qred q / pow2 ex - inject_Z (m * 2 ^ (e - ex))) with 0.
      - reflexivity.
      - rewrite Hq', Hs, inject_Z_mult. field. lra. }
    rewrite Hr, inject_Z_mult, Hq, Hs. ring.
Qed.

Lemma rnd_int z : (Z.abs z < 2 ^ 53)%Z -> rnd (inject_Z z) == inject_Z z.
Proof.
  intros H. apply (rnd_exact z 0); [exact H | lia |].
  change (pow2 0) with 1. ring.
Qed.

(** Half-integers below [2^52] are doubles. *)
Lemma rnd_half_int k q :
  (Z.abs k < 2 ^ 53)%Z -> q == inject_Z k / 2 -> rnd q == q.
Proof.
  intros H Hq. apply (rnd_exact k (-1)); [exact H | lia |].
  rewrite Hq. change (pow2 (-1)) with (1 # 2). field.
Qed.

End F64Facts.

Import F64Facts.

(* ================================================================== *)
(** * The rotation engine computes the exact quarter-turn               *)
(* ================================================================== *)

Module RotateNumerics.
Local Open Scope Q_scope.

#[global] Instance rnd_Proper : Proper (Qeq ==> Qeq) rnd.
Proof. intros p q E. rewrite (rnd_compat p q E). reflexivity. Qed.

#[global] Instance add_Proper : Proper (Qeq ==> Qeq ==> Qeq) add.
Proof. intros a a' Ea b b' Eb. unfold add. rewrite Ea, Eb. reflexivity. Qed.

#[global] Instance sub_Proper : Proper (Qeq ==> Qeq ==> Qeq) sub.
Proof. intros a a' Ea b b' Eb. unfold sub. rewrite Ea, Eb. reflexivity. Qed.

#[global] Instance mul_Proper : Proper (Qeq ==> Qeq ==> Qeq) mul.
Proof. intros a a' Ea b b' Eb. unfold mul. rewrite Ea, Eb. reflexivity. Qed.

(** The tolerances of the analysis: [2^-36], and the bound [2^-52] on the
    cosine of a quarter-turn. *)
Definition e36 : Q := 1 # 68719476736.
Definition e52 : Q := 1 # 4503599627370496.

Lemma Qabs_le_iff x y : Qabs x <= y <-> - y <= x /\ x <= y.
Proof. apply Qabs_Qle_condition. Qed.

(** Rounding a number below [2^16] moves it by at most [2^-36]. *)
Lemma rnd_near q : Qabs q <= 65536 -> q - e36 <= rnd q /\ rnd q <= q + e36.
Proof.
  intros H. pose proof (rnd_err q) as E.
  assert (P1 : pow2 (-1075) <= pow2 (-54)) by (apply pow2_le; lia).
  assert (P2 : pow2 (-54) == 1 # 18014398509481984) by reflexivity.
  assert (P3 : pow2 (-53) == 1 # 9007199254740992) by reflexivity.
  rewrite P2 in P1. rewrite P3 in E.
  apply Qabs_le_iff in E. unfold e36. lra.
Qed.

Lemma small_product c u :
  Qabs c <= e52 -> Qabs u <= 32768 ->
  - (1 # 137438953472) <= c * u /\ c * u <= 1 # 137438953472.
Proof.
  intros Hc Hu. apply Qabs_le_iff.
  rewrite Qabs_Qmult.
  assert (Qabs c * Qabs u <= e52 * 32768).
  { apply Qmult_le_compat_nonneg; split; try apply Qabs_nonneg; assumption. }
  unfold e52 in *. lra.
Qed.

(** A centred coordinate: half an integer of magnitude below [2^16]. *)
Definition halfint (v : Q) : Prop :=
  exists k : Z, (Z.abs k <= 65535)%Z /\ v == inject_Z k / 2.

Lemma halfint_bound v : halfint v -> Qabs v <= 32768.
Proof.
  intros [k [Hk Hv]]. rewrite Hv. apply Qabs_le_iff.
  assert (inject_Z (-65535) <= inject_Z k /\ inject_Z k <= inject_Z 65535).
  { rewrite <- !Zle_Qle. lia. }
  change (inject_Z (-65535)) with (-65535 # 1) in H.
  change (inject_Z 65535) with (65535 # 1) in H.
  split; apply Qle_shift_div_l || apply Qle_shift_div_r; lra.
Qed.

Lemma halfint_rnd v : halfint v -> rnd v == v.
Proof.
  intros [k [Hk Hv]]. apply (rnd_half_int k); [lia | exact Hv].
Qed.

Lemma halfint_opp v : halfint v -> halfint (- v).
Proof.
  intros [k [Hk Hv]]. exists (- k)%Z. split; [lia|].
  rewrite Hv, inject_Z_opp. field.
Qed.


Definition e20 : Q := 1 # 1048576.
Definition e34 : Q := 1 # 17179869184.

Lemma trunc_inject z : trunc (inject_Z z) = z.
Proof. unfold trunc, inject_Z. simpl. apply Z.quot_1_r. Qed.

Lemma int16_small w : (0 <= w <= 32767)%Z -> int16 w = w.
Proof.
  intros H. unfold int16.
  rewrite Z.mod_small by lia. lia.
Qed.

(** The re-snap step: a double within [2^-20] of the integer [w - h], moved
    back by [h] and rounded, is [w]. *)
Lemma snap t h w :
  (0 <= w <= 32767)%Z ->
  inject_Z w - e20 <= t + h /\ t + h <= inject_Z w + e20 ->
  astype_int16 (np_rint (add t h)) = w.
Proof.
  intros Hw [H1 H2].
  assert (B : 0 <= inject_Z w /\ inject_Z w <= 32767).
  { change 0 with (inject_Z 0). change 32767 with (inject_Z 32767).
    rewrite <- !Zle_Qle. exact Hw. }
  unfold e20 in *.
  assert (A : Qabs (t + h) <= 65536) by (apply Qabs_le_iff; lra).
  destruct (rnd_near _ A) as [R1 R2]. unfold e36 in *.
  unfold astype_int16, np_rint, add.
  rewrite (rint_even_near (rnd (t + h)) w).
  - rewrite trunc_inject. apply int16_small. exact Hw.
  - apply Qabs_Qlt_condition. split; lra.
Qed.

Definition small (c : Q) : Prop := Qabs c <= e52.
Definition unit (s : Q) : Prop := s == 1 \/ s == -1.

Lemma mul_small c u :
  small c -> halfint u -> - e34 <= mul c u /\ mul c u <= e34.
Proof.
  intros Hc Hu. pose proof (halfint_bound u Hu) as Bu.
  destruct (small_product c u Hc Bu) as [P1 P2].
  assert (A : Qabs (c * u) <= 65536) by (apply Qabs_le_iff; lra).
  destruct (rnd_near _ A) as [R1 R2]. unfold mul, e36, e34 in *. lra.
Qed.

Lemma mul_unit s v : unit s -> halfint v -> mul s v == s * v.
Proof.
  intros [Hs|Hs] Hv; rewrite Hs; unfold mul.
  - rewrite (rnd_compat (1 * v) v) by ring. rewrite halfint_rnd by exact Hv. ring.
  - rewrite (rnd_compat (-1 * v) (- v)) by ring.
    rewrite halfint_rnd by (apply halfint_opp; exact Hv). ring.
Qed.

Lemma neg_unit s : unit s -> unit (neg s) /\ neg s == - s.
Proof.
  intros Hs. assert (E : neg s == - s) by (unfold neg; apply Qred_correct).
  split; [|exact E].
  destruct Hs as [Hs|Hs]; [right|left]; rewrite E, Hs; reflexivity.
Qed.

Lemma unit_mul_bound s v : unit s -> halfint v -> Qabs (s * v) <= 32768.
Proof.
  intros [Hs|Hs] Hv; rewrite Hs; pose proof (halfint_bound v Hv) as Bv;
    apply Qabs_le_iff in Bv; apply Qabs_le_iff; lra.
Qed.

(** The four shapes of a rotated component. *)
Lemma shape_sub_cs c s u v :
  small c -> unit s -> halfint u -> halfint v ->
  - (s * v) - e20 <= sub (mul c u) (mul s v) /\
  sub (mul c u) (mul s v) <= - (s * v) + e20.
Proof.
  intros Hc Hs Hu Hv.
  destruct (mul_small c u Hc Hu) as [M1 M2].
  pose proof (unit_mul_bound s v Hs Hv) as Bv. apply Qabs_le_iff in Bv.
  rewrite (mul_unit s v Hs Hv).
  unfold e34 in *.
  assert (A : Qabs (mul c u - s * v) <= 65536) by (apply Qabs_le_iff; lra).
  destruct (rnd_near _ A) as [R1 R2]. unfold sub, e36, e20 in *. lra.
Qed.

Lemma shape_add_sc c s u v :
  small c -> unit s -> halfint u -> halfint v ->
  s * u - e20 <= add (mul s u) (mul c v) /\
  add (mul s u) (mul c v) <= s * u + e20.
Proof.
  intros Hc Hs Hu Hv.
  destruct (mul_small c v Hc Hv) as [M1 M2].
  pose proof (unit_mul_bound s u Hs Hu) as Bu. apply Qabs_le_iff in Bu.
  rewrite (mul_unit s u Hs Hu).
  unfold e34 in *.
  assert (A : Qabs (s * u + mul c v) <= 65536) by (apply Qabs_le_iff; lra).
  destruct (rnd_near _ A) as [R1 R2]. unfold add, e36, e20 in *. lra.
Qed.

Lemma shape_add_cs c s u v :
  small c -> unit s -> halfint u -> halfint v ->
  s * v - e20 <= add (mul c u) (mul s v) /\
  add (mul c u) (mul s v) <= s * v + e20.
Proof.
  intros Hc Hs Hu Hv.
  destruct (mul_small c u Hc Hu) as [M1 M2].
  pose proof (unit_mul_bound s v Hs Hv) as Bv. apply Qabs_le_iff in Bv.
  rewrite (mul_unit s v Hs Hv).
  unfold e34 in *.
  assert (A : Qabs (mul c u + s * v) <= 65536) by (apply Qabs_le_iff; lra).
  destruct (rnd_near _ A) as [R1 R2]. unfold add, e36, e20 in *. lra.
Qed.

Lemma shape_add_negs c s u v :
  small c -> unit s -> halfint u -> halfint v ->
  - (s * u) - e20 <= add (mul (neg s) u) (mul c v) /\
  add (mul (neg s) u) (mul c v) <= - (s * u) + e20.
Proof.
  intros Hc Hs Hu Hv.
  destruct (neg_unit s Hs) as [Hn En].
  destruct (shape_add_sc c (neg s) u v Hc Hn Hu Hv) as [S1 S2].
  rewrite En in S1 at 1. rewrite En in S2 at 2. lra.
Qed.


(** Push [inject_Z] to the leaves. *)
Ltac inj_Z :=
  unfold Zminus;
  repeat (rewrite inject_Z_plus || rewrite inject_Z_opp || rewrite inject_Z_mult);
  change (inject_Z 2) with 2; change (inject_Z 1) with 1;
  change (inject_Z (-1)) with (-1).

Lemma half_exact n :
  (1 <= n <= 32768)%Z -> div (of_int (n - 1)) 2 == inject_Z (n - 1) / 2.
Proof.
  intros Hn. unfold div, of_int.
  rewrite (rnd_int (n - 1)) by lia.
  apply (rnd_half_int (n - 1)); [lia | reflexivity].
Qed.

(** A lattice coordinate translated by [-half] is computed exactly. *)
Lemma centre_exact n h x :
  (1 <= n <= 32768)%Z -> (0 <= x <= n - 1)%Z -> h == inject_Z (n - 1) / 2 ->
  sub (of_int x) h == inject_Z x - h /\ halfint (sub (of_int x) h).
Proof.
  intros Hn Hx Hh.
  assert (E : sub (of_int x) h == inject_Z x - h).
  { unfold sub, of_int. rewrite (rnd_int x) by lia.
    apply (rnd_half_int (2 * x - (n - 1))); [lia|].
    rewrite Hh. inj_Z. field. }
  split; [exact E|].
  exists (2 * x - (n - 1))%Z. split; [lia|].
  rewrite E, Hh. inj_Z. field.
Qed.


Lemma inj_flip m a : inject_Z (m - a) == inject_Z m - inject_Z a.
Proof. unfold Zminus. rewrite inject_Z_plus, inject_Z_opp. reflexivity. Qed.

End RotateNumerics.

Import RotateNumerics.

Local Open Scope Z_scope.

Section Row.
Variables (n : Z) (h c s : Q) (dir : Z).
Hypothesis Hn : 1 <= n <= 32768.
Hypothesis Hh : (h == inject_Z (n - 1) / 2)%Q.
Hypothesis Hc : small c.
Hypothesis Hs : (s == inject_Z dir)%Q.
Hypothesis Hdir : dir = 1 \/ dir = -1.

Lemma s_unit : unit s.
Proof. destruct Hdir as [E|E]; subst dir; [left|right]; exact Hs. Qed.

Lemma twice_half : (2 * h == inject_Z (n - 1))%Q.
Proof. rewrite Hh. field. Qed.

Lemma snap_fixed a :
  0 <= a <= n - 1 -> astype_int16 (np_rint (add (sub (of_int a) h) h)) = a.
Proof.
  intros Ha. destruct (centre_exact n h a Hn Ha Hh) as [E I].
  apply snap; [lia|]. unfold e20. lra.
Qed.

(** A rotated component within [2^-20] of [sg * (b - h)], [sg] being [s] or
    [-s], snaps to [b] or to its mirror image [n - 1 - b]. *)
Lemma snap_signed (t : Q) (b : Z) (plus : bool) :
  0 <= b <= n - 1 ->
  (let v := sub (of_int b) h in
   let m := if plus then s * v else - (s * v) in
   m - e20 <= t /\ t <= m + e20)%Q ->
  astype_int16 (np_rint (add t h))
  = if Bool.eqb plus (dir =? 1) then b else n - 1 - b.
Proof.
  intros Hb. cbv zeta.
  destruct (centre_exact n h b Hn Hb Hh) as [Eb Ib].
  pose proof twice_half as Hh2.
  set (v := sub (of_int b) h) in *. clearbody v.
  intros [S1 S2].
  assert (Es : (s * v == inject_Z dir * v)%Q) by (rewrite Hs; reflexivity).
  destruct plus; rewrite Es in S1, S2;
    destruct Hdir as [Dd|Dd]; subst dir; simpl Bool.eqb; cbv iota;
    (apply snap; [lia|]);
    rewrite ?inj_flip; rewrite ?inj_flip in Hh2;
    change (inject_Z 1) with 1%Q in *; change (inject_Z (-1)) with (-1)%Q in *;
    unfold e20 in *; lra.
Qed.

Lemma snap_row_turn axis p :
  in_range n p -> snap_row axis c s h p = turn_cell n axis dir p.
Proof.
  destruct p as [[x y] z]. intros (Hx & Hy & Hz).
  destruct (centre_exact n h x Hn Hx Hh) as [Ex Ix].
  destruct (centre_exact n h y Hn Hy Hh) as [Ey Iy].
  destruct (centre_exact n h z Hn Hz Hh) as [Ez Iz].
  pose proof s_unit as Us.
  unfold snap_row, turn_cell, VoxelRubiks.rotate_row.
  destruct (String.eqb axis "x"); [|destruct (String.eqb axis "y")].
  - rewrite (snap_fixed x Hx).
    rewrite (snap_signed _ z false Hz (shape_sub_cs c s _ _ Hc Us Iy Iz)).
    rewrite (snap_signed _ y true Hy (shape_add_sc c s _ _ Hc Us Iy Iz)).
    destruct Hdir as [Dd|Dd]; subst dir; reflexivity.
  - rewrite (snap_fixed y Hy).
    rewrite (snap_signed _ z true Hz (shape_add_cs c s _ _ Hc Us Ix Iz)).
    rewrite (snap_signed _ x false Hx (shape_add_negs c s _ _ Hc Us Ix Iz)).
    destruct Hdir as [Dd|Dd]; subst dir; reflexivity.
  - rewrite (snap_fixed z Hz).
    rewrite (snap_signed _ y false Hy (shape_sub_cs c s _ _ Hc Us Ix Iy)).
    rewrite (snap_signed _ x true Hx (shape_add_sc c s _ _ Hc Us Ix Iy)).
    destruct Hdir as [Dd|Dd]; subst dir; reflexivity.
Qed.

End Row.

(** ** From rows to the array *)

Lemma scatter_gather {A : Type} (sel : A -> bool) (g : A -> A) (rows : list A) :
  scatter (map sel rows) rows (map g (gather (map sel rows) rows))
  = map (fun r => if sel r then g r else r) rows.
Proof.
  induction rows as [|r rows IH]; simpl; [reflexivity|].
  destruct (sel r); simpl; rewrite IH; reflexivity.
Qed.

Lemma slice_mask_axis_coord axis index v :
  VoxelRubiks._slice_mask axis index v
  = map (fun p => axis_coord axis p =? index) (VoxelRubiks.coords v).
Proof.
  unfold VoxelRubiks._slice_mask, axis_coord.
  destruct (String.eqb axis "x"); [|destruct (String.eqb axis "y")];
    apply map_ext; intros [[x y] z]; reflexivity.
Qed.

(** The lattices the constructor builds and the rotations keep: the size fits
    the [int16] cells, [half] is [(n-1)/2.0], every row is inside the cube. *)
Definition lattice_ok (v : VoxelRubiks.t) : Prop :=
  2 <= VoxelRubiks.n v <= 32768
  /\ VoxelRubiks.half v = div (of_int (VoxelRubiks.n v - 1)) 2%Q
  /\ Forall (in_range (VoxelRubiks.n v)) (VoxelRubiks.coords v).

(** The angle of a committed quarter-turn, [dir_sign * (math.pi/2.0)]. *)
Definition quarter (dir_sign : Z) : float :=
  mul (of_int dir_sign) (div math_pi 2%Q).

(** What the proofs assume of libm: at the two quarter-turn angles the sine
    is exactly [+1] or [-1] and the cosine is at most [2^-52] in magnitude
    (the usual result is [6.123e-17]). *)
Definition libm_quarter_turns `{Libm} : Prop :=
  forall dir, dir = 1 \/ dir = -1 ->
    small (math_cos (quarter dir)) /\ (math_sin (quarter dir) == inject_Z dir)%Q.

Section Engine.
Context `{Libm}.
Hypothesis libm_ok : libm_quarter_turns.

Lemma rotate_coords axis index dir v :
  VoxelRubiks.coords (VoxelRubiks._rotate_slice_90 axis index dir v)
  = map (fun p => if axis_coord axis p =? index
                  then snap_row axis (math_cos (quarter dir)) (math_sin (quarter dir))
                                (VoxelRubiks.half v) p
                  else p)
        (VoxelRubiks.coords v).
Proof.
  unfold VoxelRubiks._rotate_slice_90. cbv zeta. simpl VoxelRubiks.coords.
  rewrite slice_mask_axis_coord. rewrite !map_map.
  rewrite <- scatter_gather. f_equal.
  apply map_ext. intros [[x y] z]. unfold snap_row, quarter.
  destruct (VoxelRubiks.rotate_row _ _ _ _) as [[x1 y1] z1]. reflexivity.
Qed.

(** The rotation engine, floating point and re-snap included, is the exact
    quarter-turn of the slice. *)
Lemma rotate_exact axis index dir v :
  lattice_ok v -> dir = 1 \/ dir = -1 ->
  VoxelRubiks.coords (VoxelRubiks._rotate_slice_90 axis index dir v)
  = map (turn_slice (VoxelRubiks.n v) axis index dir) (VoxelRubiks.coords v).
Proof.
  intros (Hn & Hh & Hr) Hd. rewrite rotate_coords.
  apply map_ext_in. intros p Hp. unfold turn_slice.
  destruct (axis_coord axis p =? index); [|reflexivity].
  destruct (libm_ok dir Hd) as [Hc Hs].
  apply (snap_row_turn (VoxelRubiks.n v)); try assumption.
  - lia.
  - rewrite Hh. apply half_exact. lia.
  - rewrite Forall_forall in Hr. apply Hr. exact Hp.
Qed.

End Engine.

(** ** The quarter-turn as a map of the integer lattice *)

Ltac cell_cases axis dir :=
  unfold turn_slice, turn_cell, axis_coord, in_range in *;
  destruct (String.eqb axis "x"); [|destruct (String.eqb axis "y")];
  destruct (dir =? 1).

Lemma turn_slice_in_range n axis index dir p :
  in_range n p -> in_range n (turn_slice n axis index dir p).
Proof.
  destruct p as [[x y] z]. intros Hp.
  unfold turn_slice. destruct (axis_coord axis (x, y, z) =? index); [|exact Hp].
  cell_cases axis dir; lia.
Qed.

Lemma turn_slice_axis_coord n axis index dir p :
  axis_coord axis (turn_slice n axis index dir p) = axis_coord axis p.
Proof.
  destruct p as [[x y] z].
  unfold turn_slice. destruct (axis_coord axis (x, y, z) =? index); [|reflexivity].
  unfold turn_cell, axis_coord.
  destruct (String.eqb axis "x"); [|destruct (String.eqb axis "y")];
    destruct (dir =? 1); reflexivity.
Qed.

Lemma turn_cell_four n axis dir p :
  turn_cell n axis dir (turn_cell n axis dir (turn_cell n axis dir (turn_cell n axis dir p))) = p.
Proof.
  destruct p as [[x y] z]. unfold turn_cell.
  destruct (String.eqb axis "x"); [|destruct (String.eqb axis "y")];
    destruct (dir =? 1); repeat f_equal; lia.
Qed.

Lemma turn_slice_four n axis index dir p :
  turn_slice n axis index dir
    (turn_slice n axis index dir
       (turn_slice n axis index dir (turn_slice n axis index dir p))) = p.
Proof.
  destruct (axis_coord axis p =? index) eqn:E.
  - assert (S1 : forall q, (axis_coord axis q =? index) = true ->
                 turn_slice n axis index dir q = turn_cell n axis dir q
                 /\ (axis_coord axis (turn_cell n axis dir q) =? index) = true).
    { intros q Hq. pose proof (turn_slice_axis_coord n axis index dir q) as A.
      unfold turn_slice in *. rewrite Hq in *. split; [reflexivity|].
      rewrite A. exact Hq. }
    destruct (S1 p E) as [E1 A1]. rewrite E1.
    destruct (S1 _ A1) as [E2 A2]. rewrite E2.
    destruct (S1 _ A2) as [E3 A3]. rewrite E3.
    destruct (S1 _ A3) as [E4 _]. rewrite E4.
    apply turn_cell_four.
  - unfold turn_slice. rewrite !E. reflexivity.
Qed.

Lemma turn_slice_injective n axis index dir p q :
  turn_slice n axis index dir p = turn_slice n axis index dir q -> p = q.
Proof.
  intros E. rewrite <- (turn_slice_four n axis index dir p),
                    <- (turn_slice_four n axis index dir q), E.
  reflexivity.
Qed.

(** A turn in one sense undoes a turn in the other. *)
Lemma turn_slice_opposite n axis index p :
  turn_slice n axis index (-1) (turn_slice n axis index 1 p) = p.
Proof.
  destruct p as [[x y] z].
  unfold turn_slice at 2.
  destruct (axis_coord axis (x, y, z) =? index) eqn:E.
  - pose proof (turn_slice_axis_coord n axis index 1 (x, y, z)) as A.
    unfold turn_slice in A at 1. rewrite E in A.
    unfold turn_slice. rewrite A, E.
    unfold turn_cell.
    destruct (String.eqb axis "x"); [|destruct (String.eqb axis "y")];
      simpl; repeat f_equal; lia.
  - unfold turn_slice. rewrite E. reflexivity.
Qed.

Section EngineFacts.
Context `{Libm}.
Hypothesis libm_ok : libm_quarter_turns.

Lemma rotate_set_coords axis index dir v :
  VoxelRubiks._rotate_slice_90 axis index dir v
  = VoxelRubiks.set_coords v
      (VoxelRubiks.coords (VoxelRubiks._rotate_slice_90 axis index dir v)).
Proof. reflexivity. Qed.

Lemma rotate_turn axis index dir v :
  lattice_ok v -> dir = 1 \/ dir = -1 ->
  VoxelRubiks._rotate_slice_90 axis index dir v
  = VoxelRubiks.set_coords v
      (map (turn_slice (VoxelRubiks.n v) axis index dir) (VoxelRubiks.coords v)).
Proof.
  intros Hv Hd. rewrite rotate_set_coords, (rotate_exact libm_ok) by assumption.
  reflexivity.
Qed.

Lemma set_coords_ok v cs :
  lattice_ok v -> Forall (in_range (VoxelRubiks.n v)) cs ->
  lattice_ok (VoxelRubiks.set_coords v cs).
Proof.
  intros (Hn & Hh & _) Hc. repeat split; simpl; assumption || lia.
Qed.

Lemma rotate_ok axis index dir v :
  lattice_ok v -> dir = 1 \/ dir = -1 ->
  lattice_ok (VoxelRubiks._rotate_slice_90 axis index dir v).
Proof.
  intros Hv Hd. rewrite rotate_turn by assumption.
  apply set_coords_ok; [exact Hv|].
  destruct Hv as (_ & _ & Hr).
  rewrite Forall_forall in *. intros q Hq.
  apply in_map_iff in Hq. destruct Hq as [p [<- Hp]].
  apply turn_slice_in_range. apply Hr. exact Hp.
Qed.

Lemma set_coords_same v : VoxelRubiks.set_coords v (VoxelRubiks.coords v) = v.
Proof. destruct v. reflexivity. Qed.

(** C3.  Four consecutive quarter-turns of the same slice in the same
    direction give back the lattice: every cubelet has exactly its original
    integer coordinates, whatever the axis, the slice index and the direction,
    although each turn goes through floating-point [cos] and [sin]. *)
Theorem rotate_four_identity axis index dir v :
  lattice_ok v -> dir = 1 \/ dir = -1 ->
  Nat.iter 4 (VoxelRubiks._rotate_slice_90 axis index dir) v = v.
Proof.
  intros Hv Hd. simpl Nat.iter.
  pose proof (rotate_ok axis index dir v Hv Hd) as H1.
  pose proof (rotate_ok axis index dir _ H1 Hd) as H2.
  pose proof (rotate_ok axis index dir _ H2 Hd) as H3.
  rewrite (rotate_turn axis index dir _ H3 Hd).
  rewrite (rotate_turn axis index dir _ H2 Hd).
  rewrite (rotate_turn axis index dir _ H1 Hd).
  rewrite (rotate_turn axis index dir _ Hv Hd).
  destruct v as [n h cs ms sv hs]. unfold VoxelRubiks.set_coords. simpl.
  f_equal. rewrite !map_map.
  rewrite <- (map_id cs) at 2. apply map_ext. intros p.
  apply turn_slice_four.
Qed.

End EngineFacts.

(* ================================================================== *)
(** * The constructed lattice                                           *)
(* ================================================================== *)

Lemma in_range_list x n : In x (range n) <-> 0 <= x < n.
Proof.
  unfold range. rewrite in_map_iff. split.
  - intros [k [<- Hk]]. apply in_seq in Hk. lia.
  - intros Hx. exists (Z.to_nat x). split; [lia|]. apply in_seq. lia.
Qed.

Lemma NoDup_range n : NoDup (range n).
Proof.
  unfold range. apply Finite.Injective_map_NoDup; [|apply seq_NoDup].
  intros a b E. lia.
Qed.

(** A list built by [flat_map] has no duplicates when every element records
    the index it was produced for. *)
Lemma NoDup_flat_map_key {A B : Type} (key : B -> A) (f : A -> list B) (l : list A) :
  NoDup l ->
  (forall a, In a l -> NoDup (f a)) ->
  (forall a b, In a l -> In b (f a) -> key b = a) ->
  NoDup (flat_map f l).
Proof.
  induction 1 as [|a l Ha Hl IH]; intros Hf Hk; simpl; [constructor|].
  apply NoDup_app.
  - apply Hf. left. reflexivity.
  - apply IH; intros; [apply Hf | eapply Hk]; try (right; eassumption); eassumption.
  - intros b Hb Hb'. apply in_flat_map in Hb'. destruct Hb' as [a' [Ha' Hb']].
    assert (key b = a) by (apply Hk; [left; reflexivity | exact Hb]).
    assert (key b = a') by (apply Hk; [right; exact Ha' | exact Hb']).
    congruence.
Qed.

Lemma in_shell_cubelets n p m :
  In (p, m) (VoxelRubiks.shell_cubelets n) <->
  (let '(x, y, z) := p in
   (0 <= x < n /\ 0 <= y < n /\ 0 <= z < n)
   /\ on_shell n p = true /\ m = VoxelRubiks.face_mask n x y z).
Proof.
  destruct p as [[x y] z]. unfold VoxelRubiks.shell_cubelets, on_shell.
  rewrite in_flat_map. split.
  - intros [z' [Hz H1]]. apply in_flat_map in H1. destruct H1 as [y' [Hy H2]].
    apply in_flat_map in H2. destruct H2 as [x' [Hx H3]].
    apply in_range_list in Hx, Hy, Hz.
    destruct (VoxelRubiks.on_face n x' || VoxelRubiks.on_face n y'
              || VoxelRubiks.on_face n z') eqn:E; simpl in H3; [|contradiction].
    destruct H3 as [H3|[]]. inversion H3; subst. repeat split; try lia; assumption.
  - intros [(Hx & Hy & Hz) [E ->]].
    exists z. split; [apply in_range_list; exact Hz|].
    apply in_flat_map. exists y. split; [apply in_range_list; exact Hy|].
    apply in_flat_map. exists x. split; [apply in_range_list; exact Hx|].
    rewrite E. left. reflexivity.
Qed.

Lemma in_shell_cells n p :
  In p (shell_cells n) <-> in_range n p /\ on_shell n p = true.
Proof.
  unfold shell_cells. rewrite in_map_iff. split.
  - intros [[q m] [<- H]]. apply in_shell_cubelets in H. simpl.
    destruct q as [[x y] z]. destruct H as [(Hx & Hy & Hz) [E _]].
    split; [simpl; lia | exact E].
  - destruct p as [[x y] z]. intros [Hr E].
    exists ((x, y, z), VoxelRubiks.face_mask n x y z). split; [reflexivity|].
    apply in_shell_cubelets. simpl in Hr. repeat split; try lia. exact E.
Qed.

Lemma NoDup_shell_cells n : NoDup (shell_cells n).
Proof.
  unfold shell_cells, VoxelRubiks.shell_cubelets.
  apply Finite.Injective_map_NoDup_in.
  - intros [p m] [p' m'] H1 H2 E. simpl in E. subst p'.
    apply in_shell_cubelets in H1, H2. destruct p as [[x y] z].
    destruct H1 as (_ & _ & ->). destruct H2 as (_ & _ & ->). reflexivity.
  - apply (NoDup_flat_map_key (fun c : cell * Z => snd (fst c)));
      [apply NoDup_range | |].
    + intros z _.
      apply (NoDup_flat_map_key (fun c : cell * Z => snd (fst (fst c))));
        [apply NoDup_range | |].
      * intros y _.
        apply (NoDup_flat_map_key (fun c : cell * Z => fst (fst (fst c))));
          [apply NoDup_range | |].
        -- intros x _. destruct (_ || _); repeat constructor. intros [].
        -- intros x c _ Hc. destruct (_ || _); simpl in Hc; [|contradiction].
           destruct Hc as [<-|[]]. reflexivity.
      * intros y c _ Hc. apply in_flat_map in Hc. destruct Hc as [x [_ Hc]].
        destruct (_ || _); simpl in Hc; [|contradiction].
        destruct Hc as [<-|[]]. reflexivity.
    + intros z c _ Hc. apply in_flat_map in Hc. destruct Hc as [y [_ Hc]].
      apply in_flat_map in Hc. destruct Hc as [x [_ Hc]].
      destruct (_ || _); simpl in Hc; [|contradiction].
      destruct Hc as [<-|[]]. reflexivity.
Qed.

Lemma int16_cell_small n p :
  n <= 32768 -> in_range n p -> VoxelRubiks.int16_cell p = p.
Proof.
  destruct p as [[x y] z]. intros Hn (Hx & Hy & Hz). unfold VoxelRubiks.int16_cell.
  rewrite !int16_small by lia. reflexivity.
Qed.

(** The coordinates of a freshly built lattice are the shell cells. *)
Lemma init_coords n v :
  n <= 32768 -> VoxelRubiks.__init__ n = Some v ->
  VoxelRubiks.n v = n /\ 2 <= n
  /\ VoxelRubiks.half v = div (of_int (n - 1)) 2%Q
  /\ VoxelRubiks.coords v = shell_cells n
  /\ VoxelRubiks.solved v = shell_cells n
  /\ VoxelRubiks.history v = [].
Proof.
  intros Hn. unfold VoxelRubiks.__init__.
  destruct (2 <=? n) eqn:E; [|discriminate].
  intros [= <-]. simpl. apply Z.leb_le in E.
  assert (M : map VoxelRubiks.int16_cell (map fst (VoxelRubiks.shell_cubelets n))
              = shell_cells n).
  { fold (shell_cells n). rewrite <- (map_id (shell_cells n)) at 2.
    apply map_ext_in. intros p Hp. apply in_shell_cells in Hp.
    apply (int16_cell_small n); [exact Hn | apply Hp]. }
  rewrite M. repeat split; try reflexivity; lia.
Qed.

Lemma init_ok n v :
  n <= 32768 -> VoxelRubiks.__init__ n = Some v -> lattice_ok v.
Proof.
  intros Hn Hv. destruct (init_coords n v Hn Hv) as (En & H2 & Hh & Hc & _).
  unfold lattice_ok. rewrite En, Hc. repeat split; try lia; try exact Hh.
  apply Forall_forall. intros p Hp. apply in_shell_cells in Hp. apply Hp.
Qed.

Section Colours.
Context `{QtColor}.

Lemma face_mask_blend n x y z :
  on_shell n (x, y, z) = true ->
  let mask := uint8 (VoxelRubiks.face_mask n x y z) in
  mask <> 0 /\ 0 < blend_cnt mask /\
  exists r g b, blend_colors mask = QColor_rgbF r g b 1%Q.
Proof.
  unfold on_shell, VoxelRubiks.on_face, VoxelRubiks.face_mask.
  destruct (x =? 0), (x =? n - 1), (y =? 0), (y =? n - 1), (z =? 0), (z =? n - 1);
    simpl orb; intros E; try discriminate E; clear E;
    (split; [vm_compute; discriminate|]);
    (split; [reflexivity|]);
    unfold blend_colors; do 3 eexists; reflexivity.
Qed.

Lemma build_cubelets_colors h cs ms es :
  VoxelQtScene.build_cubelets h cs ms = Some es ->
  forall e, In e es -> exists mask, In mask ms /\ CubeletEntity.color e = blend_colors mask.
Proof.
  revert ms es. induction cs as [|c cs IH]; intros ms es; simpl.
  - intros [= <-] e [].
  - destruct ms as [|mask ms]; [discriminate|].
    destruct (VoxelQtScene.build_cubelets h cs ms) as [ents|] eqn:E; [|discriminate].
    intros [= <-] e [<-|He].
    + exists mask. split; [left; reflexivity | reflexivity].
    + destruct (IH ms ents E e He) as [m [Hm Hc]].
      exists m. split; [right; exact Hm | exact Hc].
Qed.

(** C10.  Every cubelet the constructor builds has a non-zero face mask (a
    shell cubelet has a coordinate equal to [0] or [n-1], so a face flag is
    set); hence [blend_colors] counts at least one face for it, and the dark
    fallback colour [#111111] of its [cnt == 0] branch is the colour of no
    cubelet of the scene. *)
Theorem every_cubelet_has_a_face n v s :
  VoxelRubiks.__init__ n = Some v ->
  VoxelQtScene.__init__ n = Some s ->
  Forall (fun mask => mask <> 0 /\ 0 < blend_cnt mask
                      /\ blend_colors mask <> QColor_name "#111111")
         (VoxelRubiks.masks v)
  /\ List.length (VoxelRubiks.masks v) = List.length (VoxelRubiks.coords v)
  /\ Forall (fun e => CubeletEntity.color e <> QColor_name "#111111")
            (VoxelQtScene.cubelets s).
Proof.
  intros Hv Hs.
  assert (M : Forall (fun mask => mask <> 0 /\ 0 < blend_cnt mask
                      /\ blend_colors mask <> QColor_name "#111111")
                     (VoxelRubiks.masks v)).
  { revert Hv. unfold VoxelRubiks.__init__. destruct (2 <=? n); [|discriminate].
    intros [= <-]. simpl. apply Forall_forall. intros mask Hm.
    apply in_map_iff in Hm. destruct Hm as [m [<- Hm]].
    apply in_map_iff in Hm. destruct Hm as [[p m'] [Em Hm]]. simpl in Em. subst m'.
    apply in_shell_cubelets in Hm. destruct p as [[x y] z].
    destruct Hm as (_ & E & ->).
    destruct (face_mask_blend n x y z E) as (N & C & r & g & b & Eb).
    repeat split; try assumption. rewrite Eb. discriminate. }
  split; [exact M|]. split.
  - revert Hv. unfold VoxelRubiks.__init__. destruct (2 <=? n); [|discriminate].
    intros [= <-]. simpl. rewrite !length_map. reflexivity.
  - revert Hs. unfold VoxelQtScene.__init__. rewrite Hv.
    destruct (VoxelQtScene.build_cubelets _ _ _) as [es|] eqn:E; [|discriminate].
    intros [= <-]. simpl. apply Forall_forall. intros e He.
    destruct (build_cubelets_colors _ _ _ _ E e He) as [mask [Hm ->]].
    rewrite Forall_forall in M. apply M. exact Hm.
Qed.

End Colours.

Lemma every_cubelet_has_a_face_witness :
  Forall (fun mask => mask <> 0 /\ 0 < @blend_cnt Samples.hex_colors mask
                      /\ @blend_colors Samples.hex_colors mask <> QColor_name "#111111")
         (VoxelRubiks.masks Samples.cube2)
  /\ List.length (VoxelRubiks.masks Samples.cube2)
     = List.length (VoxelRubiks.coords Samples.cube2)
  /\ Forall (fun e => CubeletEntity.color e <> QColor_name "#111111")
            (VoxelQtScene.cubelets Samples.scene2).
Proof.
  apply (@every_cubelet_has_a_face Samples.hex_colors 2 Samples.cube2 Samples.scene2);
    reflexivity.
Defined.

(** The sample libm meets the assumption on the quarter-turn angles, and the
    sample cubes are lattices of the constructor. *)
Lemma table_libm_ok : @libm_quarter_turns Samples.table_libm.
Proof.
  intros dir [-> | ->]; split; vm_compute; discriminate || reflexivity.
Qed.


Lemma cube3_ok : lattice_ok Samples.cube3.
Proof. apply (init_ok 3); [lia | reflexivity]. Qed.

Lemma rotate_four_identity_witness :
  Nat.iter 4 (@VoxelRubiks._rotate_slice_90 Samples.table_libm "y" 1 (-1)) Samples.cube3
  = Samples.cube3.
Proof.
  apply (@rotate_four_identity Samples.table_libm table_libm_ok "y" 1 (-1) Samples.cube3).
  - exact cube3_ok.
  - right. reflexivity.
Defined.

(** The slice really moves: one quarter-turn is not the identity. *)
Example rotate_once_moves :
  VoxelRubiks.coords (@VoxelRubiks._rotate_slice_90 Samples.table_libm "y" 1 (-1) Samples.cube3)
  <> VoxelRubiks.coords Samples.cube3.
Proof. vm_compute. discriminate. Qed.

(* ================================================================== *)
(** * Slice masks                                                       *)
(* ================================================================== *)

Lemma in_where_from k mask i :
  In i (where_from k mask) <->
  exists j, i = (k + j)%nat /\ nth_error mask j = Some true.
Proof.
  revert k. induction mask as [|b mask IH]; intros k; simpl.
  - split; [intros [] | intros [j [_ Hj]]; destruct j; discriminate].
  - assert (T : In i (where_from (S k) mask) <->
                exists j, i = (k + S j)%nat /\ nth_error mask j = Some true).
    { rewrite IH. split; intros [j [E Hj]]; exists j; split; try assumption; lia. }
    destruct b; simpl; rewrite T; clear T; split.
    + intros [<-|[j [E Hj]]]; [exists O; split; [lia | reflexivity] | exists (S j); auto].
    + intros [[|j] [E Hj]]; [left; lia | right; exists j; auto].
    + intros [j [E Hj]]. exists (S j). auto.
    + intros [[|j] [E Hj]]; [discriminate | exists j; auto].
Qed.

Lemma where_from_lower k mask i : In i (where_from k mask) -> (k <= i)%nat.
Proof. intros Hi. apply in_where_from in Hi. destruct Hi as [j [-> _]]. lia. Qed.

Lemma NoDup_where_from k mask : NoDup (where_from k mask).
Proof.
  revert k. induction mask as [|b mask IH]; intros k; simpl; [constructor|].
  destruct b; [|apply IH].
  constructor; [|apply IH].
  intros Hk. apply where_from_lower in Hk. lia.
Qed.

Lemma in_np_where mask i : In i (np_where mask) <-> nth_error mask i = Some true.
Proof.
  unfold np_where. rewrite in_where_from. split.
  - intros [j [-> Hj]]. exact Hj.
  - intros Hi. exists i. split; [reflexivity | exact Hi].
Qed.

(** The cubelets a slice mask selects: those whose coordinate along the axis
    is the index. *)
Lemma in_slice_mask axis index v i :
  In i (np_where (VoxelRubiks._slice_mask axis index v)) <->
  exists p, nth_error (VoxelRubiks.coords v) i = Some p /\ axis_coord axis p = index.
Proof.
  rewrite in_np_where, slice_mask_axis_coord, nth_error_map.
  destruct (nth_error (VoxelRubiks.coords v) i) as [p|]; simpl.
  - split.
    + intros [= E]. exists p. split; [reflexivity | apply Z.eqb_eq; exact E].
    + intros [q [[= <-] E]]. f_equal. apply Z.eqb_eq. exact E.
  - split; [discriminate | intros [q [[=] _]]].
Qed.

Lemma axis_coord_in_range n axis p :
  in_range n p -> 0 <= axis_coord axis p < n.
Proof.
  destruct p as [[x y] z]. unfold in_range, axis_coord.
  destruct (String.eqb axis "x"); [|destruct (String.eqb axis "y")]; lia.
Qed.

(** C8.  For a fixed axis the slice masks partition the cubelets: the mask of
    [index] selects exactly the cubelets whose coordinate along the axis is
    [index]; the masks of two distinct indices select no common cubelet; and
    over the indices [0 .. n-1] every cubelet is selected exactly once. *)
Theorem slice_masks_partition axis v :
  lattice_ok v ->
  (forall index i,
      In i (np_where (VoxelRubiks._slice_mask axis index v)) <->
      exists p, nth_error (VoxelRubiks.coords v) i = Some p /\ axis_coord axis p = index)
  /\ (forall index index' i,
         index <> index' ->
         In i (np_where (VoxelRubiks._slice_mask axis index v)) ->
         ~ In i (np_where (VoxelRubiks._slice_mask axis index' v)))
  /\ Permutation
       (flat_map (fun index => np_where (VoxelRubiks._slice_mask axis index v))
                 (range (VoxelRubiks.n v)))
       (seq 0 (List.length (VoxelRubiks.coords v))).
Proof.
  intros (Hn & _ & Hr). split; [|split].
  - intros index i. apply in_slice_mask.
  - intros index index' i Hne Hi Hi'.
    apply in_slice_mask in Hi, Hi'.
    destruct Hi as [p [Hp E]]. destruct Hi' as [p' [Hp' E']]. congruence.
  - apply NoDup_Permutation.
    + apply (NoDup_flat_map_key
               (fun i => axis_coord axis (nth i (VoxelRubiks.coords v) (0, 0, 0)))).
      * apply NoDup_range.
      * intros index _. apply NoDup_where_from.
      * intros index i _ Hi. apply in_slice_mask in Hi. destruct Hi as [p [Hp E]].
        rewrite (nth_error_nth _ _ _ Hp). exact E.
    + apply seq_NoDup.
    + intros i. rewrite in_flat_map, in_seq. split.
      * intros [index [_ Hi]]. apply in_slice_mask in Hi. destruct Hi as [p [Hp _]].
        assert (nth_error (VoxelRubiks.coords v) i <> None) by congruence.
        apply nth_error_Some in H. lia.
      * intros Hi.
        destruct (nth_error (VoxelRubiks.coords v) i) as [p|] eqn:Hp.
        -- exists (axis_coord axis p). split.
           ++ apply in_range_list. apply axis_coord_in_range.
              rewrite Forall_forall in Hr. apply Hr. eapply nth_error_In. exact Hp.
           ++ apply in_slice_mask. exists p. split; [exact Hp | reflexivity].
        -- apply nth_error_None in Hp. lia.
Qed.

Lemma slice_masks_partition_witness :
  Permutation
    (flat_map (fun index => np_where (VoxelRubiks._slice_mask "x" index Samples.cube3))
              (range 3))
    (seq 0 26).
Proof.
  exact (proj2 (proj2 (slice_masks_partition "x" Samples.cube3 cube3_ok))).
Defined.

(* ================================================================== *)
(** * The lattice invariant                                             *)
(* ================================================================== *)

Lemma on_shell_iff n x y z :
  on_shell n (x, y, z) = true <->
  x = 0 \/ x = n - 1 \/ y = 0 \/ y = n - 1 \/ z = 0 \/ z = n - 1.
Proof.
  unfold on_shell, VoxelRubiks.on_face.
  rewrite !orb_true_iff, !Z.eqb_eq. tauto.
Qed.

Lemma turn_slice_on_shell n axis index dir p :
  on_shell n p = true -> on_shell n (turn_slice n axis index dir p) = true.
Proof.
  destruct p as [[x y] z]. intros Hs.
  unfold turn_slice. destruct (axis_coord axis (x, y, z) =? index); [|exact Hs].
  apply on_shell_iff in Hs. unfold turn_cell.
  destruct (String.eqb axis "x"); [|destruct (String.eqb axis "y")];
    destruct (dir =? 1); apply on_shell_iff; lia.
Qed.

Lemma filter_map_commute {A : Type} (P : A -> bool) (f : A -> A) (l : list A) :
  (forall a, P (f a) = P a) -> filter P (map f l) = map f (filter P l).
Proof.
  intros H. induction l as [|a l IH]; simpl; [reflexivity|].
  rewrite H. destruct (P a); simpl; rewrite IH; reflexivity.
Qed.

(** A quarter-turn permutes any duplicate-free list of cells that is closed
    under it. *)
Lemma turn_slice_permutes n axis index dir (cs : list cell) :
  NoDup cs ->
  (forall p, In p cs -> In (turn_slice n axis index dir p) cs) ->
  Permutation (map (turn_slice n axis index dir) cs) cs.
Proof.
  intros Hnd Hcl. apply Permutation_map_same_l.
  - apply Finite.Injective_map_NoDup; [|exact Hnd].
    intros p q. apply turn_slice_injective.
  - intros q Hq. apply in_map_iff in Hq. destruct Hq as [p [<- Hp]].
    apply Hcl. exact Hp.
Qed.

(** The invariant of the lattice: its rows are a rearrangement of the solved
    coordinate set, which is the shell of the cube. *)
Definition lattice_inv (v : VoxelRubiks.t) : Prop :=
  lattice_ok v
  /\ VoxelRubiks.solved v = shell_cells (VoxelRubiks.n v)
  /\ Permutation (VoxelRubiks.coords v) (VoxelRubiks.solved v).

Lemma init_inv n v :
  n <= 32768 -> VoxelRubiks.__init__ n = Some v -> lattice_inv v.
Proof.
  intros Hn Hv. split; [apply (init_ok n); assumption|].
  destruct (init_coords n v Hn Hv) as (-> & _ & _ & -> & -> & _).
  split; reflexivity.
Qed.

Lemma inv_in_shell v p :
  lattice_inv v ->
  In p (VoxelRubiks.coords v) <->
  in_range (VoxelRubiks.n v) p /\ on_shell (VoxelRubiks.n v) p = true.
Proof.
  intros (_ & Hs & Hp). rewrite <- in_shell_cells, <- Hs. split; intros H.
  - eapply Permutation_in; eassumption.
  - eapply Permutation_in; [apply Permutation_sym|]; eassumption.
Qed.

Lemma inv_NoDup v : lattice_inv v -> NoDup (VoxelRubiks.coords v).
Proof.
  intros (_ & Hs & Hp). eapply Permutation_NoDup; [apply Permutation_sym; exact Hp|].
  rewrite Hs. apply NoDup_shell_cells.
Qed.

Section Invariant.
Context `{Libm}.
Hypothesis libm_ok : libm_quarter_turns.

Lemma rotate_inv axis index dir v :
  lattice_inv v -> dir = 1 \/ dir = -1 ->
  lattice_inv (VoxelRubiks._rotate_slice_90 axis index dir v).
Proof.
  intros Hv Hd. pose proof Hv as (Hok & Hs & Hp).
  split; [apply (rotate_ok libm_ok); assumption|].
  rewrite (rotate_turn libm_ok) by assumption. simpl. split; [exact Hs|].
  eapply Permutation_trans; [|exact Hp].
  apply turn_slice_permutes; [apply inv_NoDup; exact Hv|].
  intros p Hp'. apply (inv_in_shell v _ Hv) in Hp'. apply (inv_in_shell v _ Hv).
  split; [apply turn_slice_in_range | apply turn_slice_on_shell]; apply Hp'.
Qed.

Lemma commit_inv q v :
  lattice_inv v -> Forall unit_dir q -> lattice_inv (commit_turns q v).
Proof.
  revert v. induction q as [|[[a i] d] q IH]; intros v Hv Hq; simpl; [exact Hv|].
  inversion Hq as [|? ? Hd Hq']; subst. apply IH; [|exact Hq'].
  apply rotate_inv; assumption.
Qed.

Lemma commit_n q v : VoxelRubiks.n (commit_turns q v) = VoxelRubiks.n v.
Proof.
  revert v. induction q as [|[[a i] d] q IH]; intros v; simpl; [reflexivity|].
  rewrite IH. reflexivity.
Qed.

(** C2.  After every committed slice rotation the lattice invariant holds:
    starting from the constructed lattice and after any sequence of commits,
    a further commit leaves every cubelet on an integer triple inside
    [[0, n-1]^3], no two cubelets on the same position, and the coordinates a
    rearrangement of the solved coordinate set; within the rotated slice the
    occupied lattice points are the same before and after (the rotation is
    a bijection on them), and the cubelets outside the slice do not move. *)
Theorem rotation_keeps_lattice n v0 q axis index dir :
  n <= 32768 ->
  VoxelRubiks.__init__ n = Some v0 ->
  Forall unit_dir q ->
  dir = 1 \/ dir = -1 ->
  let v := commit_turns q v0 in
  let v' := VoxelRubiks._rotate_slice_90 axis index dir v in
  Forall (in_range n) (VoxelRubiks.coords v')
  /\ NoDup (VoxelRubiks.coords v')
  /\ VoxelRubiks.solved v' = VoxelRubiks.coords v0
  /\ Permutation (VoxelRubiks.coords v') (VoxelRubiks.solved v')
  /\ Permutation (filter (in_slice axis index) (VoxelRubiks.coords v'))
                 (filter (in_slice axis index) (VoxelRubiks.coords v))
  /\ (forall i p, nth_error (VoxelRubiks.coords v) i = Some p ->
                  in_slice axis index p = false ->
                  nth_error (VoxelRubiks.coords v') i = Some p).
Proof.
  intros Hn Hv0 Hq Hd v v'.
  pose proof (init_inv n v0 Hn Hv0) as I0.
  pose proof (commit_inv q v0 I0 Hq) as Iv. fold v in Iv.
  pose proof (rotate_inv axis index dir v Iv Hd) as Iv'. fold v' in Iv'.
  destruct (init_coords n v0 Hn Hv0) as (En & _ & _ & Ec & Es & _).
  assert (Nv : VoxelRubiks.n v = n) by (unfold v; rewrite commit_n; exact En).
  assert (Nv' : VoxelRubiks.n v' = n) by exact Nv.
  pose proof Iv' as ((_ & _ & Hr) & Hs & Hp). rewrite Nv' in Hr, Hs.
  assert (Ev' : VoxelRubiks.coords v'
                = map (turn_slice n axis index dir) (VoxelRubiks.coords v)).
  { unfold v'. rewrite (rotate_exact libm_ok) by (assumption || apply Iv).
    rewrite Nv. reflexivity. }
  repeat split.
  - exact Hr.
  - apply inv_NoDup. exact Iv'.
  - rewrite Hs, Ec. reflexivity.
  - exact Hp.
  - rewrite Ev'. unfold in_slice at 1.
    rewrite filter_map_commute
      by (intros p; rewrite turn_slice_axis_coord; reflexivity).
    apply turn_slice_permutes.
    + apply NoDup_filter. apply inv_NoDup. exact Iv.
    + intros p Hp'. apply filter_In in Hp'. destruct Hp' as [Hin Hsl].
      apply filter_In. split.
      * apply (inv_in_shell v _ Iv) in Hin. apply (inv_in_shell v _ Iv).
        rewrite Nv in *.
        split; [apply turn_slice_in_range | apply turn_slice_on_shell]; apply Hin.
      * unfold in_slice in *. rewrite turn_slice_axis_coord. exact Hsl.
  - intros i p Hi Hsl. rewrite Ev', nth_error_map, Hi. simpl.
    unfold turn_slice. unfold in_slice in Hsl. rewrite Hsl. reflexivity.
Qed.

End Invariant.

Lemma rotation_keeps_lattice_witness :
  let v := @commit_turns Samples.table_libm [("x"%string, 0, 1); ("z"%string, 2, 1)] Samples.cube3 in
  let v' := @VoxelRubiks._rotate_slice_90 Samples.table_libm "y" 1 1 v in
  Forall (in_range 3) (VoxelRubiks.coords v')
  /\ NoDup (VoxelRubiks.coords v')
  /\ VoxelRubiks.solved v' = VoxelRubiks.coords Samples.cube3
  /\ Permutation (VoxelRubiks.coords v') (VoxelRubiks.solved v')
  /\ Permutation (filter (in_slice "y" 1) (VoxelRubiks.coords v'))
                 (filter (in_slice "y" 1) (VoxelRubiks.coords v))
  /\ (forall i p, nth_error (VoxelRubiks.coords v) i = Some p ->
                  in_slice "y" 1 p = false ->
                  nth_error (VoxelRubiks.coords v') i = Some p).
Proof.
  apply (@rotation_keeps_lattice Samples.table_libm table_libm_ok 3 Samples.cube3).
  - lia.
  - reflexivity.
  - repeat constructor.
  - left. reflexivity.
Defined.

(* ================================================================== *)
(** * Moves and their inverses                                          *)
(* ================================================================== *)

(** [enqueue_move] without recording appends the unit turns of the move. *)
Lemma enqueue_all_queue seq s :
  VoxelQtScene.queue (VoxelQtScene.enqueue_all seq s)
  = VoxelQtScene.queue s ++ unit_turns seq
  /\ VoxelQtScene.model (VoxelQtScene.enqueue_all seq s) = VoxelQtScene.model s.
Proof.
  unfold VoxelQtScene.enqueue_all, unit_turns.
  revert s. induction seq as [|m seq IH]; intros s; cbn [fold_left flat_map].
  - rewrite app_nil_r. split; reflexivity.
  - destruct (IH (VoxelQtScene.enqueue_move (Move.axis m) (Move.index m) (Move.k m) false s))
      as [Q M].
    rewrite Q, M. unfold VoxelQtScene.enqueue_move. simpl.
    rewrite <- app_assoc. split; reflexivity.
Qed.

Lemma unit_turns_app s1 s2 : unit_turns (s1 ++ s2) = unit_turns s1 ++ unit_turns s2.
Proof. unfold unit_turns. apply flat_map_app. Qed.

Lemma unit_turns_dirs seq : Forall unit_dir (unit_turns seq).
Proof.
  apply Forall_forall. intros [[a i] d] Ht. unfold unit_turns in Ht.
  apply in_flat_map in Ht. destruct Ht as [m [_ Ht]].
  apply repeat_spec in Ht. inversion Ht. left. reflexivity.
Qed.

Lemma turn_cells_app n q1 q2 cs :
  turn_cells n (q1 ++ q2) cs = turn_cells n q2 (turn_cells n q1 cs).
Proof. unfold turn_cells. apply fold_left_app. Qed.

Lemma turn_cells_repeat_4 n axis index dir cs :
  turn_cells n (repeat (axis, index, dir) 4) cs = cs.
Proof.
  simpl. rewrite !map_map. rewrite <- (map_id cs) at 2.
  apply map_ext. intros p. apply turn_slice_four.
Qed.

(** The loop of [inverse_history] computes the inverse of the specification. *)
Lemma inverse_history_spec v :
  VoxelRubiks.inverse_history v = inverse_spec (VoxelRubiks.history v).
Proof.
  unfold VoxelRubiks.inverse_history, inverse_spec.
  generalize (rev (VoxelRubiks.history v)) as l.
  assert (G : forall l acc,
             fold_left
               (fun inv m =>
                  let inv_k := (4 - Move.k m mod 4) mod 4 in
                  if negb (inv_k =? 0)
                  then inv ++ [Move.mk (Move.axis m) (Move.index m) inv_k]
                  else inv) l acc
             = acc ++ filter (fun m => negb (Move.k m =? 0))
                        (map (fun m => Move.mk (Move.axis m) (Move.index m)
                                               ((4 - Move.k m mod 4) mod 4)) l)).
  { induction l as [|m l IH]; intros acc; cbn [fold_left map filter Move.k].
    - rewrite app_nil_r. reflexivity.
    - rewrite IH. cbv zeta.
      destruct (negb ((4 - Move.k m mod 4) mod 4 =? 0)).
      + rewrite <- app_assoc. reflexivity.
      + reflexivity. }
  intros l. apply (G l []).
Qed.

(** A move followed by its inverse is four quarter-turns of its slice, or
    none. *)
Lemma move_then_inverse n m cs :
  turn_cells n
    (unit_turns [m]
     ++ unit_turns
          (filter (fun m => negb (Move.k m =? 0))
             [Move.mk (Move.axis m) (Move.index m) ((4 - Move.k m mod 4) mod 4)]))
    cs = cs.
Proof.
  unfold unit_turns. cbn [filter flat_map Move.k Move.axis Move.index].
  pose proof (Z.mod_pos_bound (Move.k m) 4 ltac:(lia)) as Hk.
  remember (Move.k m mod 4) as r eqn:Er. clear Er.
  assert (C : r = 0 \/ r = 1 \/ r = 2 \/ r = 3) by lia.
  destruct C as [-> | [-> | [-> | ->]]]; [reflexivity | | |];
    change (turn_cells n (repeat (Move.axis m, Move.index m, 1) 4) cs = cs);
    apply turn_cells_repeat_4.
Qed.

Lemma inverse_spec_snoc h m :
  inverse_spec (h ++ [m])
  = filter (fun m => negb (Move.k m =? 0))
      [Move.mk (Move.axis m) (Move.index m) ((4 - Move.k m mod 4) mod 4)]
    ++ inverse_spec h.
Proof.
  unfold inverse_spec. rewrite rev_app_distr. simpl rev. simpl app.
  cbn [map]. change (?a :: ?l) with ([a] ++ l) at 1. rewrite filter_app. reflexivity.
Qed.

(** On the integer lattice a history followed by its inverse is the
    identity. *)
Lemma cells_round_trip n h cs :
  turn_cells n (unit_turns h ++ unit_turns (inverse_spec h)) cs = cs.
Proof.
  revert cs. induction h as [|m h IH] using rev_ind; intros cs; [reflexivity|].
  rewrite inverse_spec_snoc, !unit_turns_app.
  rewrite <- app_assoc, turn_cells_app.
  rewrite (app_assoc (unit_turns [m])), turn_cells_app.
  rewrite move_then_inverse. rewrite <- turn_cells_app. apply IH.
Qed.

Section RoundTrip.
Context `{Libm}.
Hypothesis libm_ok : libm_quarter_turns.

(** The commits of a queue are the exact quarter-turns of its entries. *)
Lemma commit_turns_cells q v :
  lattice_ok v -> Forall unit_dir q ->
  commit_turns q v
  = VoxelRubiks.set_coords v (turn_cells (VoxelRubiks.n v) q (VoxelRubiks.coords v))
  /\ lattice_ok (commit_turns q v).
Proof.
  revert v. induction q as [|[[a i] d] q IH]; intros v Hv Hq; simpl.
  - rewrite set_coords_same. split; [reflexivity | exact Hv].
  - inversion Hq as [|? ? Hd Hq']; subst.
    pose proof (rotate_ok libm_ok a i d v Hv Hd) as Hv'.
    destruct (IH _ Hv' Hq') as [E O]. split; [|exact O].
    rewrite E. rewrite (rotate_turn libm_ok) by assumption. reflexivity.
Qed.

Lemma commit_turns_app q1 q2 v :
  commit_turns (q1 ++ q2) v = commit_turns q2 (commit_turns q1 v).
Proof. unfold commit_turns. apply fold_left_app. Qed.

(** C1.  For every lattice and every recorded history, committing the unit
    turns of each move of the history in order and then those of the sequence
    [inverse_history] returns brings every cubelet back to exactly the integer
    coordinates it had before; and [inverse_history] lists the moves in
    reverse chronological order, each count mapped to [(4 - (k mod 4)) mod 4],
    without the entries whose count becomes [0]. *)
Theorem history_round_trip v :
  lattice_ok v ->
  VoxelRubiks.coords
    (commit_turns (unit_turns (VoxelRubiks.inverse_history v))
       (commit_turns (unit_turns (VoxelRubiks.history v)) v))
  = VoxelRubiks.coords v
  /\ VoxelRubiks.inverse_history v = inverse_spec (VoxelRubiks.history v).
Proof.
  intros Hv. split; [|apply inverse_history_spec].
  rewrite <- commit_turns_app.
  destruct (commit_turns_cells
              (unit_turns (VoxelRubiks.history v)
               ++ unit_turns (VoxelRubiks.inverse_history v)) v Hv) as [E _].
  { apply Forall_app. split; apply unit_turns_dirs. }
  rewrite E. simpl. rewrite inverse_history_spec. apply cells_round_trip.
Qed.

End RoundTrip.

Definition sample_history : list Move.t :=
  [Move.mk "x" 0 1; Move.mk "z" 2 3; Move.mk "y" 1 2; Move.mk "x" 2 4; Move.mk "w" 1 7].

Lemma history_round_trip_witness :
  let v := VoxelRubiks.set_history Samples.cube3 sample_history in
  VoxelRubiks.coords
    (@commit_turns Samples.table_libm (unit_turns (VoxelRubiks.inverse_history v))
       (@commit_turns Samples.table_libm (unit_turns (VoxelRubiks.history v)) v))
  = VoxelRubiks.coords v
  /\ VoxelRubiks.inverse_history v = inverse_spec (VoxelRubiks.history v).
Proof.
  apply (@history_round_trip Samples.table_libm table_libm_ok).
  exact cube3_ok.
Defined.

(** The history alone does move the cubelets, and its inverse is not empty. *)
Example sample_history_moves :
  VoxelRubiks.coords
    (@commit_turns Samples.table_libm (unit_turns sample_history) Samples.cube3)
  <> VoxelRubiks.coords Samples.cube3
  /\ VoxelRubiks.inverse_history (VoxelRubiks.set_history Samples.cube3 sample_history)
     = [Move.mk "w" 1 1; Move.mk "y" 1 2; Move.mk "z" 2 1; Move.mk "x" 0 3].
Proof. split; [vm_compute; discriminate | reflexivity]. Qed.

(* ================================================================== *)
(** * The turn scheduler                                                *)
(* ================================================================== *)

(** The unit turns not yet committed: the turn being animated, then the
    queue. *)
Definition pending (s : VoxelQtScene.t) : list VoxelQtScene.turn :=
  if VoxelQtScene.animating s then
    match VoxelQtScene.current_move s with
    | Some t => t :: VoxelQtScene.queue s
    | None => VoxelQtScene.queue s
    end
  else VoxelQtScene.queue s.

(** The scenes the constructor builds and the handlers keep: one entity per
    cubelet; while a turn is animated its move and the indices of its slice
    are set; the speed gives a frame count. *)
Definition scene_ok (s : VoxelQtScene.t) : Prop :=
  List.length (VoxelQtScene.cubelets s)
  = List.length (VoxelRubiks.coords (VoxelQtScene.model s))
  /\ (VoxelQtScene.animating s = true ->
      exists t idxs,
        VoxelQtScene.current_move s = Some t
        /\ VoxelQtScene.moving_indices s = Some idxs
        /\ Forall (fun i => (i < List.length (VoxelRubiks.coords (VoxelQtScene.model s)))%nat)
                  idxs)
  /\ exists T, VoxelQtScene.total_frames (VoxelQtScene.frames_per_turn s)
                                        (VoxelQtScene.speed s) = Some T.

(** The frame count of a scene, [1] when the speed gives none. *)
Definition frames_of (s : VoxelQtScene.t) : Z :=
  match VoxelQtScene.total_frames (VoxelQtScene.frames_per_turn s) (VoxelQtScene.speed s) with
  | Some T => T
  | None => 1
  end.

Lemma list_set_length {A : Type} (l : list A) i v :
  (i < List.length l)%nat ->
  exists l', list_set l i v = Some l' /\ List.length l' = List.length l.
Proof.
  revert i. induction l as [|a l IH]; intros i Hi; simpl in *; [lia|].
  destruct i as [|i].
  - eexists. split; reflexivity.
  - destruct (IH i ltac:(lia)) as [l' [E L]]. rewrite E.
    eexists. split; [reflexivity | simpl; lia].
Qed.

Lemma set_positions_total f coords idxs cubelets :
  List.length cubelets = List.length coords ->
  Forall (fun i => (i < List.length coords)%nat) idxs ->
  exists cubelets',
    VoxelQtScene.set_positions f coords idxs cubelets = Some cubelets'
    /\ List.length cubelets' = List.length coords.
Proof.
  intros L H. revert cubelets L. induction H as [|i idxs Hi _ IH]; intros cubelets L; simpl.
  - exists cubelets. split; [reflexivity | exact L].
  - destruct (nth_error coords i) as [c|] eqn:Ec;
      [|apply nth_error_None in Ec; lia].
    destruct (nth_error cubelets i) as [e|] eqn:Ee;
      [|apply nth_error_None in Ee; lia].
    destruct (list_set_length cubelets i (CubeletEntity.set_position e (f c)) ltac:(lia))
      as [l' [El Ll]].
    rewrite El. apply IH. lia.
Qed.

Lemma where_from_bound k mask i :
  In i (where_from k mask) -> (i < k + List.length mask)%nat.
Proof.
  intros Hi. apply in_where_from in Hi. destruct Hi as [j [-> Hj]].
  assert (nth_error mask j <> None) by congruence.
  apply nth_error_Some in H. lia.
Qed.

Lemma slice_indices_in_range axis index v :
  Forall (fun i => (i < List.length (VoxelRubiks.coords v))%nat)
         (np_where (VoxelRubiks._slice_mask axis index v)).
Proof.
  apply Forall_forall. intros i Hi. apply where_from_bound in Hi.
  rewrite slice_mask_axis_coord, length_map in Hi. lia.
Qed.

Lemma start_next_turn_ok s :
  List.length (VoxelQtScene.cubelets s)
  = List.length (VoxelRubiks.coords (VoxelQtScene.model s)) ->
  (exists T, VoxelQtScene.total_frames (VoxelQtScene.frames_per_turn s)
                                       (VoxelQtScene.speed s) = Some T) ->
  scene_ok (VoxelQtScene._start_next_turn s).
Proof.
  intros L HT. unfold VoxelQtScene._start_next_turn.
  destruct (VoxelQtScene.queue s) as [|[[a i] d] q]; split; simpl; try exact L.
  - split; [discriminate | exact HT].
  - split; [|exact HT]. intros _.
    exists (a, i, d), (np_where (VoxelRubiks._slice_mask a i (VoxelQtScene.model s))).
    repeat split. apply slice_indices_in_range.
Qed.

(** Starting the next turn dequeues the head of the queue and commits
    nothing. *)
Lemma start_next_turn_pending s :
  pending (VoxelQtScene._start_next_turn s) = VoxelQtScene.queue s
  /\ VoxelQtScene.model (VoxelQtScene._start_next_turn s) = VoxelQtScene.model s
  /\ VoxelQtScene.frames_per_turn (VoxelQtScene._start_next_turn s)
     = VoxelQtScene.frames_per_turn s
  /\ VoxelQtScene.speed (VoxelQtScene._start_next_turn s) = VoxelQtScene.speed s.
Proof.
  unfold VoxelQtScene._start_next_turn, pending.
  destruct (VoxelQtScene.queue s) as [|[[a i] d] q] eqn:E; simpl; rewrite ?E; auto.
Qed.

Section Scheduler.
Context `{Libm}.

Lemma rotate_length axis index dir v :
  List.length (VoxelRubiks.coords (VoxelRubiks._rotate_slice_90 axis index dir v))
  = List.length (VoxelRubiks.coords v).
Proof. rewrite rotate_coords, length_map. reflexivity. Qed.

(** A frame before the last one of a turn: only the entities move. *)
Lemma animate_frame_wait s T :
  scene_ok s -> VoxelQtScene.animating s = true ->
  VoxelQtScene.total_frames (VoxelQtScene.frames_per_turn s) (VoxelQtScene.speed s) = Some T ->
  VoxelQtScene.frame s + 1 < T ->
  exists s',
    VoxelQtScene.animate_frame s = Some s'
    /\ VoxelQtScene.model s' = VoxelQtScene.model s
    /\ VoxelQtScene.queue s' = VoxelQtScene.queue s
    /\ VoxelQtScene.animating s' = true
    /\ VoxelQtScene.current_move s' = VoxelQtScene.current_move s
    /\ VoxelQtScene.frame s' = VoxelQtScene.frame s + 1
    /\ VoxelQtScene.frames_per_turn s' = VoxelQtScene.frames_per_turn s
    /\ VoxelQtScene.speed s' = VoxelQtScene.speed s
    /\ scene_ok s'.
Proof.
  intros (L & A & HT) An ET Hf.
  destruct (A An) as ([[a i] d] & idxs & Ec & Em & Hi).
  unfold VoxelQtScene.animate_frame. rewrite Ec, Em, ET. cbv zeta.
  match goal with
  | |- context [VoxelQtScene.set_positions ?f ?c ?ix ?cb] =>
      destruct (set_positions_total f c ix cb L Hi) as [c1 [E1 L1]]; rewrite E1
  end.
  simpl VoxelQtScene.frame.
  destruct (T <=? VoxelQtScene.frame s + 1) eqn:E; [apply Z.leb_le in E; lia|].
  eexists. split; [reflexivity|]. simpl. repeat split; assumption.
Qed.

(** The last frame of a turn: the rotation is committed and the next turn is
    dequeued. *)
Lemma animate_frame_commit s T a i d :
  scene_ok s -> VoxelQtScene.animating s = true ->
  VoxelQtScene.current_move s = Some (a, i, d) ->
  VoxelQtScene.total_frames (VoxelQtScene.frames_per_turn s) (VoxelQtScene.speed s) = Some T ->
  T <= VoxelQtScene.frame s + 1 ->
  exists s',
    VoxelQtScene.animate_frame s = Some s'
    /\ VoxelQtScene.model s' = VoxelRubiks._rotate_slice_90 a i d (VoxelQtScene.model s)
    /\ pending s' = VoxelQtScene.queue s
    /\ VoxelQtScene.animating s'
       = negb (match VoxelQtScene.queue s with [] => true | _ => false end)
    /\ (VoxelQtScene.animating s' = true -> VoxelQtScene.frame s' = 0)
    /\ VoxelQtScene.frames_per_turn s' = VoxelQtScene.frames_per_turn s
    /\ VoxelQtScene.speed s' = VoxelQtScene.speed s
    /\ scene_ok s'.
Proof.
  intros (L & A & HT) An Ec ET Hf.
  destruct (A An) as (t & idxs & Ec' & Em & Hi).
  unfold VoxelQtScene.animate_frame. rewrite Ec, Em, ET. cbv zeta.
  match goal with
  | |- context [VoxelQtScene.set_positions ?f ?c ?ix ?cb] =>
      destruct (set_positions_total f c ix cb L Hi) as [c1 [E1 L1]]; rewrite E1
  end.
  simpl VoxelQtScene.frame.
  destruct (T <=? VoxelQtScene.frame s + 1) eqn:E; [|apply Z.leb_gt in E; lia].
  simpl VoxelQtScene.model. simpl VoxelQtScene.cubelets.
  assert (L2 : List.length c1
               = List.length (VoxelRubiks.coords
                                (VoxelRubiks._rotate_slice_90 a i d (VoxelQtScene.model s))))
    by (rewrite rotate_length; exact L1).
  assert (Hi2 : Forall (fun j => (j < List.length
                   (VoxelRubiks.coords
                      (VoxelRubiks._rotate_slice_90 a i d (VoxelQtScene.model s))))%nat) idxs)
    by (rewrite rotate_length; exact Hi).
  match goal with
  | |- context [VoxelQtScene.set_positions ?f ?c ?ix ?cb] =>
      destruct (set_positions_total f c ix cb L2 Hi2) as [c2 [E2 L2']]; rewrite E2
  end.
  eexists. split; [reflexivity|].
  match goal with
  | |- context [VoxelQtScene._start_next_turn ?s0] =>
      pose proof (start_next_turn_pending s0) as (P1 & P2 & P3 & P4);
      pose proof (start_next_turn_ok s0) as Ok
  end.
  simpl in P1, P2, P3, P4, Ok.
  split; [exact P2|]. split; [exact P1|]. split.
  { unfold VoxelQtScene._start_next_turn. simpl.
    destruct (VoxelQtScene.queue s) as [|[[a' i'] d'] q]; reflexivity. }
  split.
  { unfold VoxelQtScene._start_next_turn. simpl.
    destruct (VoxelQtScene.queue s) as [|[[a' i'] d'] q]; simpl; [discriminate | reflexivity]. }
  split; [exact P3|]. split; [exact P4|].
  apply Ok; [exact L2' | exact HT].
Qed.

End Scheduler.

(** The frame of the turn being animated, [0] when idle. *)
Definition phase (s : VoxelQtScene.t) : Z :=
  if VoxelQtScene.animating s then VoxelQtScene.frame s else 0.

(** The next tick commits: a turn is pending and its last frame is reached. *)
Definition due (s : VoxelQtScene.t) : bool :=
  match pending s with
  | [] => false
  | _ :: _ => frames_of s <=? phase s + 1
  end.

Section SchedulerSteps.
Context `{Libm}.

Lemma frames_of_total s T :
  VoxelQtScene.total_frames (VoxelQtScene.frames_per_turn s) (VoxelQtScene.speed s) = Some T ->
  frames_of s = T.
Proof. intros E. unfold frames_of. rewrite E. reflexivity. Qed.

Lemma total_frames_pos fpt speed T :
  VoxelQtScene.total_frames fpt speed = Some T -> 1 <= T.
Proof.
  unfold VoxelQtScene.total_frames.
  destruct (Qeq_bool speed 0); [discriminate|].
  destruct (finite _); [|discriminate]. intros [= <-]. lia.
Qed.

(** One tick of a well-formed scene succeeds, keeps the scene well formed
    and either commits the head of the pending turns, when it is [due], or
    leaves lattice and pending turns as they are. *)
Lemma on_tick_step s :
  scene_ok s ->
  exists s',
    VoxelQtScene._on_tick s = Some s'
    /\ scene_ok s'
    /\ frames_of s' = frames_of s
    /\ if due s then
         exists a i d rest,
           pending s = (a, i, d) :: rest
           /\ VoxelQtScene.model s' = VoxelRubiks._rotate_slice_90 a i d (VoxelQtScene.model s)
           /\ pending s' = rest
           /\ phase s' = 0
       else
         VoxelQtScene.model s' = VoxelQtScene.model s
         /\ pending s' = pending s
         /\ (pending s <> [] -> phase s' = phase s + 1).
Proof.
  intros Hok. pose proof Hok as (L & A & [T HT]).
  assert (animated : forall s1,
             scene_ok s1 -> VoxelQtScene.animating s1 = true ->
             VoxelQtScene.frames_per_turn s1 = VoxelQtScene.frames_per_turn s ->
             VoxelQtScene.speed s1 = VoxelQtScene.speed s ->
             exists s',
               VoxelQtScene.animate_frame s1 = Some s'
               /\ scene_ok s'
               /\ frames_of s' = frames_of s
               /\ if T <=? VoxelQtScene.frame s1 + 1 then
                    exists a i d,
                      VoxelQtScene.current_move s1 = Some (a, i, d)
                      /\ VoxelQtScene.model s'
                         = VoxelRubiks._rotate_slice_90 a i d (VoxelQtScene.model s1)
                      /\ pending s' = VoxelQtScene.queue s1
                      /\ phase s' = 0
                  else
                    VoxelQtScene.model s' = VoxelQtScene.model s1
                    /\ pending s' = pending s1
                    /\ phase s' = VoxelQtScene.frame s1 + 1).
  { intros s1 Ok1 An1 Ef Es.
    assert (HT1 : VoxelQtScene.total_frames (VoxelQtScene.frames_per_turn s1)
                    (VoxelQtScene.speed s1) = Some T) by (rewrite Ef, Es; exact HT).
    assert (FS : forall s', VoxelQtScene.frames_per_turn s' = VoxelQtScene.frames_per_turn s1 ->
                            VoxelQtScene.speed s' = VoxelQtScene.speed s1 ->
                            frames_of s' = frames_of s).
    { intros s' E1 E2. unfold frames_of. rewrite E1, E2, Ef, Es. reflexivity. }
    destruct (T <=? VoxelQtScene.frame s1 + 1) eqn:E.
    - apply Z.leb_le in E. pose proof Ok1 as (_ & A1 & _).
      destruct (A1 An1) as ([[a i] d] & idxs & Ec & _).
      destruct (animate_frame_commit s1 T a i d Ok1 An1 Ec HT1 E)
        as (s' & E' & M & P & An' & F' & Ef' & Es' & Ok').
      exists s'. split; [exact E'|]. split; [exact Ok'|].
      split; [apply FS; assumption|].
      exists a, i, d. repeat split; try assumption.
      unfold phase. destruct (VoxelQtScene.animating s'); [apply F'; reflexivity | reflexivity].
    - apply Z.leb_gt in E.
      destruct (animate_frame_wait s1 T Ok1 An1 HT1 E)
        as (s' & E' & M & Q & An' & C & F' & Ef' & Es' & Ok').
      exists s'. split; [exact E'|]. split; [exact Ok'|].
      split; [apply FS; assumption|]. split; [exact M|]. split.
      + unfold pending. rewrite An', An1, C, Q. reflexivity.
      + unfold phase. rewrite An'. exact F'. }
  unfold VoxelQtScene._on_tick, due.
  rewrite (frames_of_total s T HT).
  destruct (VoxelQtScene.animating s) eqn:An; simpl negb; simpl andb; cbv iota.
  - (* a turn is being animated *)
    rewrite An. simpl negb. cbv iota.
    destruct (A eq_refl) as (t & idxs & Ec & _).
    destruct (animated s Hok An eq_refl eq_refl) as (s' & E' & Ok' & Fo & R).
    exists s'. split; [exact E'|]. split; [exact Ok'|].
    split; [rewrite Fo; apply frames_of_total; exact HT|].
    assert (Ps : pending s = t :: VoxelQtScene.queue s)
      by (unfold pending; rewrite An, Ec; reflexivity).
    assert (Ph0 : phase s = VoxelQtScene.frame s) by (unfold phase; rewrite An; reflexivity).
    rewrite Ps, Ph0.
    destruct (T <=? VoxelQtScene.frame s + 1).
    + destruct R as (a & i & d & Ec' & M & P & Ph).
      exists a, i, d, (VoxelQtScene.queue s). rewrite Ec in Ec'.
      assert (Et : t = (a, i, d)) by congruence.
      rewrite Et. repeat split; assumption.
    + destruct R as (M & P & Ph). rewrite Ps in P.
      split; [exact M|]. split; [exact P|]. intros _. exact Ph.
  - (* idle *)
    assert (Ph0 : phase s = 0) by (unfold phase; rewrite An; reflexivity).
    assert (Ps : pending s = VoxelQtScene.queue s) by (unfold pending; rewrite An; reflexivity).
    rewrite Ps, Ph0.
    destruct (VoxelQtScene.queue s) as [|t q] eqn:Eq; simpl negb; cbv iota.
    + rewrite An. simpl. exists s.
      split; [reflexivity|]. split; [exact Hok|]. split; [apply frames_of_total; exact HT|].
      split; [reflexivity|]. split; [exact Ps|]. intros C. contradiction C. reflexivity.
    + pose proof (start_next_turn_ok s L (ex_intro _ T HT)) as Ok1.
      pose proof (start_next_turn_pending s) as (P1 & M1 & F1 & S1).
      assert (An1 : VoxelQtScene.animating (VoxelQtScene._start_next_turn s) = true
                    /\ VoxelQtScene.frame (VoxelQtScene._start_next_turn s) = 0
                    /\ VoxelQtScene.queue (VoxelQtScene._start_next_turn s) = q
                    /\ VoxelQtScene.current_move (VoxelQtScene._start_next_turn s) = Some t).
      { unfold VoxelQtScene._start_next_turn. rewrite Eq. destruct t as [[a i] d].
        repeat split. }
      destruct An1 as (An1 & Fr1 & Q1 & C1).
      rewrite An1. simpl negb. cbv iota.
      destruct (animated _ Ok1 An1 F1 S1) as (s' & E' & Ok' & Fo & R).
      exists s'. split; [exact E'|]. split; [exact Ok'|].
      split; [rewrite Fo; apply frames_of_total; exact HT|].
      rewrite Fr1 in R.
      destruct (T <=? 0 + 1).
      * destruct R as (a & i & d & Ec' & M & P & Ph).
        exists a, i, d, q. rewrite C1 in Ec'.
        assert (Et : t = (a, i, d)) by congruence.
        rewrite M1 in M. rewrite Q1 in P. rewrite Et. repeat split; assumption.
      * destruct R as (M & P & Ph). rewrite M1 in M. rewrite P1, Eq in P.
        split; [exact M|]. split; [exact P|]. intros _. exact Ph.
Qed.

End SchedulerSteps.

Lemma skipn_cons_step {A : Type} (j : nat) (q : list A) h rest :
  skipn j q = h :: rest ->
  firstn (S j) q = firstn j q ++ [h] /\ skipn (S j) q = rest.
Proof.
  revert q. induction j as [|j IH]; intros q E.
  - simpl in E. subst q. split; reflexivity.
  - destruct q as [|a q]; [discriminate|]. simpl in E.
    destruct (IH q E) as [F S']. split.
    + change (firstn (S (S j)) (a :: q)) with (a :: firstn (S j) q).
      rewrite F. reflexivity.
    + exact S'.
Qed.

Lemma pending_nil s :
  scene_ok s -> pending s = [] ->
  VoxelQtScene.animating s = false /\ VoxelQtScene.queue s = [].
Proof.
  intros (_ & A & _) P. unfold pending in P.
  destruct (VoxelQtScene.animating s) eqn:An; [|split; [reflexivity | exact P]].
  destruct (A eq_refl) as (t & idxs & Ec & _). rewrite Ec in P. discriminate.
Qed.

Lemma enqueue_move_pending axis index k record s :
  pending (VoxelQtScene.enqueue_move axis index k record s)
  = pending s ++ repeat (axis, index, 1) (Z.to_nat (k mod 4))
  /\ VoxelRubiks.coords (VoxelQtScene.model (VoxelQtScene.enqueue_move axis index k record s))
     = VoxelRubiks.coords (VoxelQtScene.model s).
Proof.
  unfold VoxelQtScene.enqueue_move, pending.
  destruct record; simpl;
    (split; [|reflexivity]);
    destruct (VoxelQtScene.animating s); try reflexivity;
    destruct (VoxelQtScene.current_move s); reflexivity.
Qed.

Section SchedulerRuns.
Context `{Libm}.

Lemma ticks_S_end k s :
  VoxelQtScene.ticks (S k) s
  = match VoxelQtScene.ticks k s with
    | Some s' => VoxelQtScene._on_tick s'
    | None => None
    end.
Proof.
  revert s. induction k as [|k IH]; intros s.
  - simpl. destruct (VoxelQtScene._on_tick s); reflexivity.
  - change (VoxelQtScene.ticks (S (S k)) s)
      with (match VoxelQtScene._on_tick s with
            | Some s' => VoxelQtScene.ticks (S k) s'
            | None => None
            end).
    destruct (VoxelQtScene._on_tick s) as [s1|] eqn:E.
    + rewrite IH. simpl. rewrite E. reflexivity.
    + simpl. rewrite E. reflexivity.
Qed.

(** From an idle scene, after [k] ticks the lattice is the result of
    committing the first [j] turns of the queue in order, the turns still
    pending are the rest of the queue, and [k = T * j + phase]. *)
Lemma ticks_from_idle s k :
  scene_ok s -> VoxelQtScene.animating s = false ->
  Z.of_nat k <= frames_of s * Z.of_nat (List.length (VoxelQtScene.queue s)) ->
  exists s' j,
    VoxelQtScene.ticks k s = Some s'
    /\ scene_ok s'
    /\ frames_of s' = frames_of s
    /\ VoxelQtScene.model s' = commit_turns (firstn j (VoxelQtScene.queue s)) (VoxelQtScene.model s)
    /\ pending s' = skipn j (VoxelQtScene.queue s)
    /\ (j <= List.length (VoxelQtScene.queue s))%nat
    /\ 0 <= phase s' < frames_of s
    /\ Z.of_nat k = frames_of s * Z.of_nat j + phase s'.
Proof.
  intros Hok An. set (q := VoxelQtScene.queue s). set (T := frames_of s).
  assert (T1 : 1 <= T).
  { destruct Hok as (_ & _ & [T' HT]). unfold T. rewrite (frames_of_total s T' HT).
    apply (total_frames_pos _ _ _ HT). }
  induction k as [|k IH]; intros Hk.
  - exists s, O.
    assert (Ph : phase s = 0) by (unfold phase; rewrite An; reflexivity).
    assert (Ps : pending s = q) by (unfold pending; rewrite An; reflexivity).
    split; [reflexivity|]. split; [exact Hok|]. split; [reflexivity|].
    split; [reflexivity|]. split; [exact Ps|]. split; [lia|].
    rewrite Ph. lia.
  - destruct (IH ltac:(lia)) as (s1 & j & E & Ok1 & F1 & M1 & P1 & J1 & Ph1 & K1).
    rewrite ticks_S_end, E.
    destruct (on_tick_step s1 Ok1) as (s' & E' & Ok' & F' & R).
    assert (NE : pending s1 <> []).
    { intros C. rewrite C in P1. symmetry in P1.
      assert (List.length (skipn j q) = 0%nat) by (rewrite P1; reflexivity).
      rewrite length_skipn in H0. nia. }
    unfold due in R. rewrite F1 in R. fold T in R.
    destruct (pending s1) as [|t rest] eqn:Ps; [contradiction NE; reflexivity|].
    destruct (T <=? phase s1 + 1) eqn:D.
    + apply Z.leb_le in D.
      destruct R as (a & i & d & rest' & Ep & M & P & Ph).
      injection Ep as Et Er. subst t rest'.
      symmetry in P1. destruct (skipn_cons_step j q _ _ P1) as [Fj Sj].
      exists s', (S j). split; [exact E'|]. split; [exact Ok'|].
      split; [rewrite F'; exact F1|].
      split; [rewrite M, M1, Fj; unfold commit_turns; rewrite fold_left_app; reflexivity|].
      split; [rewrite P, Sj; reflexivity|].
      split.
      { assert (List.length (skipn j q) = S (List.length rest)) by (rewrite P1; reflexivity).
        rewrite length_skipn in H0. lia. }
      split; [rewrite Ph; lia|]. rewrite Ph. lia.
    + apply Z.leb_gt in D.
      destruct R as (M & P & Ph). specialize (Ph ltac:(discriminate)).
      exists s', j. split; [exact E'|]. split; [exact Ok'|].
      split; [rewrite F'; exact F1|].
      split; [rewrite M; exact M1|].
      split; [rewrite P; exact P1|].
      split; [exact J1|]. split; [rewrite Ph; lia|]. rewrite Ph. lia.
Qed.

(** C9.  The authoritative lattice is never partially rotated and the queue
    is served first in, first out.  (1) A tick of a well-formed scene changes
    the lattice only by committing the whole quarter-turn at the head of the
    pending turns, and only when the frame counter reaches the frame count;
    on every other tick the lattice and the pending turns stay as they are
    (the interpolated positions go to the entities only).  (2) [enqueue_move]
    appends its unit turns behind the pending ones and leaves the lattice
    alone.  (3) From an idle scene with frame count [T], after [k] ticks
    exactly the first [k / T] turns of the queue have been committed, in
    queue order, the remaining turns are still pending in order, and after
    [T * length queue] ticks the queue is empty and the scene idle again. *)
Theorem scheduler_commits_fifo s :
  scene_ok s ->
  (exists s',
      VoxelQtScene._on_tick s = Some s'
      /\ scene_ok s'
      /\ if due s then
           exists a i d rest,
             pending s = (a, i, d) :: rest
             /\ VoxelQtScene.model s'
                = VoxelRubiks._rotate_slice_90 a i d (VoxelQtScene.model s)
             /\ pending s' = rest
         else
           VoxelQtScene.model s' = VoxelQtScene.model s /\ pending s' = pending s)
  /\ (forall axis index k record,
         pending (VoxelQtScene.enqueue_move axis index k record s)
         = pending s ++ repeat (axis, index, 1) (Z.to_nat (k mod 4))
         /\ VoxelRubiks.coords
              (VoxelQtScene.model (VoxelQtScene.enqueue_move axis index k record s))
            = VoxelRubiks.coords (VoxelQtScene.model s))
  /\ (VoxelQtScene.animating s = false ->
      forall k : nat,
        Z.of_nat k <= frames_of s * Z.of_nat (List.length (VoxelQtScene.queue s)) ->
        exists s',
          VoxelQtScene.ticks k s = Some s'
          /\ VoxelQtScene.model s'
             = commit_turns
                 (firstn (Z.to_nat (Z.of_nat k / frames_of s)) (VoxelQtScene.queue s))
                 (VoxelQtScene.model s)
          /\ pending s'
             = skipn (Z.to_nat (Z.of_nat k / frames_of s)) (VoxelQtScene.queue s)
          /\ phase s' = Z.of_nat k mod frames_of s
          /\ (Z.of_nat k = frames_of s * Z.of_nat (List.length (VoxelQtScene.queue s)) ->
              VoxelQtScene.queue s' = [] /\ VoxelQtScene.animating s' = false)).
Proof.
  intros Hok. split; [|split].
  - destruct (on_tick_step s Hok) as (s' & E & Ok' & _ & R).
    exists s'. split; [exact E|]. split; [exact Ok'|].
    destruct (due s).
    + destruct R as (a & i & d & rest & P & M & P' & _). exists a, i, d, rest. auto.
    + destruct R as (M & P & _). auto.
  - intros axis index k record. apply enqueue_move_pending.
  - intros An k Hk.
    destruct (ticks_from_idle s k Hok An Hk)
      as (s' & j & E & Ok' & F' & M & P & J & Ph & K).
    assert (Ej : Z.of_nat k / frames_of s = Z.of_nat j).
    { symmetry. apply (Z.div_unique _ _ _ (phase s')); [left; exact Ph | exact K]. }
    assert (Em : Z.of_nat k mod frames_of s = phase s').
    { symmetry. apply (Z.mod_unique _ _ (Z.of_nat j)); [left; exact Ph | exact K]. }
    exists s'. rewrite Ej, Em, Nat2Z.id.
    split; [exact E|]. split; [exact M|]. split; [exact P|]. split; [reflexivity|].
    intros Hall. apply and_comm. apply (pending_nil s' Ok').
    rewrite P. apply skipn_all2. nia.
Qed.

End SchedulerRuns.

(** The 2x2x2 scene after [enqueue_move('x', 0, 1)] and
    [enqueue_move('y', 1, 2)]: three unit turns queued. *)
Definition sample_scene : VoxelQtScene.t :=
  VoxelQtScene.enqueue_move "y" 1 2 true
    (VoxelQtScene.enqueue_move "x" 0 1 true Samples.scene2).

Lemma sample_scene_ok : scene_ok sample_scene.
Proof.
  split; [reflexivity|]. split; [intros C; discriminate C|].
  exists 12. reflexivity.
Qed.

Lemma scheduler_commits_fifo_witness :
  exists s',
    @VoxelQtScene.ticks Samples.table_libm 36 sample_scene = Some s'
    /\ VoxelQtScene.model s'
       = @commit_turns Samples.table_libm
           (firstn (Z.to_nat (Z.of_nat 36 / frames_of sample_scene))
                   (VoxelQtScene.queue sample_scene))
           (VoxelQtScene.model sample_scene)
    /\ pending s'
       = skipn (Z.to_nat (Z.of_nat 36 / frames_of sample_scene))
               (VoxelQtScene.queue sample_scene)
    /\ phase s' = Z.of_nat 36 mod frames_of sample_scene
    /\ (Z.of_nat 36
        = frames_of sample_scene * Z.of_nat (List.length (VoxelQtScene.queue sample_scene)) ->
        VoxelQtScene.queue s' = [] /\ VoxelQtScene.animating s' = false).
Proof.
  apply (proj2 (proj2 (@scheduler_commits_fifo Samples.table_libm sample_scene sample_scene_ok))).
  - reflexivity.
  - vm_compute. discriminate.
Defined.

(** The three queued turns are committed one at a time, every twelfth
    tick. *)
Example sample_scene_runs :
  VoxelQtScene.queue sample_scene = [("x"%string, 0, 1); ("y"%string, 1, 1); ("y"%string, 1, 1)]
  /\ frames_of sample_scene = 12
  /\ option_map (fun s => VoxelRubiks.coords (VoxelQtScene.model s))
                (@VoxelQtScene.ticks Samples.table_libm 11 sample_scene)
     = Some (VoxelRubiks.coords Samples.cube2)
  /\ option_map (fun s => VoxelRubiks.coords (VoxelQtScene.model s))
                (@VoxelQtScene.ticks Samples.table_libm 12 sample_scene)
     = Some (VoxelRubiks.coords
               (@VoxelRubiks._rotate_slice_90 Samples.table_libm "x" 0 1 Samples.cube2)).
Proof. repeat split; vm_compute; reflexivity. Qed.

(* ================================================================== *)
(** * Recording moves                                                   *)
(* ================================================================== *)

(** C4.  [enqueue_move] with [record=True] normalises the count to
    [k mod 4], but it appends the move to the history whatever the
    normalised count is: a move of four quarter-turns is recorded as a move
    of count [0] (outside the range [1..3] that [Move.k] documents) instead
    of leaving the history unchanged. *)
Theorem enqueue_move_records_zero_turn axis index k s :
  VoxelRubiks.history
    (VoxelQtScene.model (VoxelQtScene.enqueue_move axis index k true s))
  = VoxelRubiks.history (VoxelQtScene.model s) ++ [Move.mk axis index (k mod 4)]
  /\ VoxelRubiks.history
       (VoxelQtScene.model (VoxelQtScene.enqueue_move "x" 0 4 true s))
     = VoxelRubiks.history (VoxelQtScene.model s) ++ [Move.mk "x" 0 0]
  /\ VoxelQtScene.queue (VoxelQtScene.enqueue_move "x" 0 4 true s) = VoxelQtScene.queue s.
Proof.
  unfold VoxelQtScene.enqueue_move. simpl. rewrite app_nil_r. repeat split.
Qed.

(* ================================================================== *)
(** * Arguments out of range                                            *)
(* ================================================================== *)

Lemma scatter_nothing {A : Type} (mask : list bool) (rows : list A) :
  scatter mask rows [] = rows.
Proof.
  revert rows. induction mask as [|b mask IH]; intros [|r rows]; simpl; try reflexivity.
  destruct b; [reflexivity | rewrite IH; reflexivity].
Qed.

Lemma gather_none {A : Type} (sel : A -> bool) (rows : list A) :
  (forall r, In r rows -> sel r = false) -> gather (map sel rows) rows = [].
Proof.
  induction rows as [|r rows IH]; intros Hs; simpl; [reflexivity|].
  rewrite (Hs r) by (left; reflexivity). apply IH. intros r' Hr'. apply Hs. right. exact Hr'.
Qed.

Lemma axis_other_is_z axis :
  String.eqb axis "x" = false -> String.eqb axis "y" = false ->
  forall p, axis_coord axis p = axis_coord "z" p.
Proof. intros Ex Ey [[x y] z]. unfold axis_coord. rewrite Ex, Ey. reflexivity. Qed.

Section OutOfRange.
Context `{Libm} `{Random}.




End OutOfRange.



(* ================================================================== *)
(** * Seeded scrambles                                                  *)
(* ================================================================== *)

Lemma fnv1a_snoc t ch :
  VoxelQtScene.fnv1a (t ++ [ch])
  = Z.land (Z.lxor (VoxelQtScene.fnv1a t) ch * 16777619) 4294967295.
Proof. unfold VoxelQtScene.fnv1a. rewrite fold_left_app. reflexivity. Qed.

Lemma fnv1a_range t : 0 <= VoxelQtScene.fnv1a t < 2 ^ 32.
Proof.
  induction t as [|ch t _] using rev_ind.
  - vm_compute. split; [discriminate | reflexivity].
  - rewrite fnv1a_snoc. change 4294967295 with (Z.ones 32).
    rewrite Z.land_ones by lia. apply Z.mod_pos_bound. lia.
Qed.

Section Seeded.
Context `{Random}.

(** With a seed, [scramble] does not look at the state the generator was
    in, and of the lattice it only reads [n]. *)
Lemma scramble_seeded moves h v1 v2 g1 g2 :
  VoxelRubiks.n v1 = VoxelRubiks.n v2 ->
  option_map (fun r => (fst (fst r), snd r)) (VoxelRubiks.scramble moves (Some h) v1 g1)
  = option_map (fun r => (fst (fst r), snd r)) (VoxelRubiks.scramble moves (Some h) v2 g2).
Proof.
  intros En. unfold VoxelRubiks.scramble. rewrite En.
  destruct (VoxelRubiks.scramble_loop _ _ _ _) as [[seq g']|]; reflexivity.
Qed.

(** C6, as the code has it.  Scrambling is deterministic under a seed.  The
    handler strips the whitespace around the seed text; for a text that is
    not empty once stripped, the seed is the FNV-1a hash of the stripped
    text: offset basis [2166136261], then for each character an exclusive or
    with its code followed by a multiplication by [16777619] masked to 32
    bits.  Two runs of the handler with the same move count and seed text
    give the same scene (the same sequence recorded and queued, hence the
    same lattices once the queue is served) and leave the generator in the
    same state, whatever state the generator was in before. *)
Theorem scramble_deterministic moves text s g1 g2 :
  strip text <> [] ->
  VoxelQtScene.on_scramble_clicked moves text s g1
  = VoxelQtScene.on_scramble_clicked moves text s g2
  /\ VoxelQtScene.on_scramble_clicked moves text s g1
     = match VoxelRubiks.scramble moves (Some (VoxelQtScene.fnv1a (strip text)))
               (VoxelQtScene.model s) g1 with
       | None => None
       | Some (seq, model', g') =>
           Some (VoxelQtScene.enqueue_all seq (VoxelQtScene.set_model s model'), g')
       end
  /\ 0 <= VoxelQtScene.fnv1a (strip text) < 2 ^ 32
  /\ VoxelQtScene.fnv1a [] = 2166136261
  /\ (forall t ch,
         VoxelQtScene.fnv1a (t ++ [ch])
         = Z.land (Z.lxor (VoxelQtScene.fnv1a t) ch * 16777619) 4294967295)
  /\ (forall v1 v2 g1' g2',
         VoxelRubiks.n v1 = VoxelRubiks.n v2 ->
         option_map (fun r => fst (fst r))
           (VoxelRubiks.scramble moves (Some (VoxelQtScene.fnv1a (strip text))) v1 g1')
         = option_map (fun r => fst (fst r))
             (VoxelRubiks.scramble moves (Some (VoxelQtScene.fnv1a (strip text))) v2 g2')).
Proof.
  intros Hne.
  assert (U : forall g,
             VoxelQtScene.on_scramble_clicked moves text s g
             = match VoxelRubiks.scramble moves (Some (VoxelQtScene.fnv1a (strip text)))
                       (VoxelQtScene.model s) g with
               | None => None
               | Some (seq, model', g') =>
                   Some (VoxelQtScene.enqueue_all seq (VoxelQtScene.set_model s model'), g')
               end).
  { intros g. unfold VoxelQtScene.on_scramble_clicked.
    destruct (strip text) as [|c t]; [contradiction Hne; reflexivity | reflexivity]. }
  split; [|split; [apply U|split; [apply fnv1a_range|split; [reflexivity|split]]]].
  - rewrite !U. unfold VoxelRubiks.scramble. reflexivity.
  - apply fnv1a_snoc.
  - intros v1 v2 g1' g2' En. unfold VoxelRubiks.scramble. rewrite En.
    destruct (VoxelRubiks.scramble_loop _ _ _ _) as [[seq g']|]; reflexivity.
Qed.

End Seeded.

Definition sample_text : str := of_string " abc ".

Lemma scramble_deterministic_witness :
  @VoxelQtScene.on_scramble_clicked Samples.lcg_random 20 sample_text Samples.scene2 1
  = @VoxelQtScene.on_scramble_clicked Samples.lcg_random 20 sample_text Samples.scene2 2.
Proof.
  apply (@scramble_deterministic Samples.lcg_random 20 sample_text Samples.scene2 1 2).
  vm_compute. discriminate.
Defined.

(** Not every seed text that is not empty is a seed.  The text [" "] is not
    empty, is read as the empty text and gives no seed: two runs with the
    same move count [3] and this text record different sequences when the
    generator is in the states [1] and [2].  And the seed of [" abc "] is the
    hash of ["abc"], not the hash of the text. *)
Lemma blank_seed_text_gives_no_seed :
  of_string " " = [32]
  /\ strip (of_string " ") = []
  /\ option_map (fun r => VoxelRubiks.history (VoxelQtScene.model (fst r)))
       (@VoxelQtScene.on_scramble_clicked Samples.lcg_random 3 (of_string " ")
          Samples.scene2 1)
     = Some [Move.mk "z" 0 1; Move.mk "y" 1 3; Move.mk "x" 1 1]
  /\ option_map (fun r => VoxelRubiks.history (VoxelQtScene.model (fst r)))
       (@VoxelQtScene.on_scramble_clicked Samples.lcg_random 3 (of_string " ")
          Samples.scene2 2)
     = Some [Move.mk "z" 1 1; Move.mk "z" 1 3; Move.mk "x" 1 2]
  /\ VoxelQtScene.fnv1a sample_text = 2016676355
  /\ VoxelQtScene.fnv1a (strip sample_text) = 440920331.
Proof. repeat split; vm_compute; reflexivity. Qed.

(** The hash of ["abc"] is the published FNV-1a value [0x1A47E90B]; without a
    seed the sample generator's state does show in the sequence. *)
Example fnv1a_abc :
  VoxelQtScene.fnv1a (strip sample_text) = 440920331
  /\ option_map fst (@VoxelQtScene.on_scramble_clicked Samples.lcg_random 3 [] Samples.scene2 1)
     <> option_map fst (@VoxelQtScene.on_scramble_clicked Samples.lcg_random 3 [] Samples.scene2 2).
Proof. split; [reflexivity | vm_compute; discriminate]. Qed.

(* ================================================================== *)
(** * Frames of a turn                                                  *)
(* ================================================================== *)







(* ================================================================== *)
(** * Further properties of the rotation engine                         *)
(* ================================================================== *)

Lemma turn_slice_opposite' n axis index p :
  turn_slice n axis index 1 (turn_slice n axis index (-1) p) = p.
Proof.
  rewrite <- (turn_slice_four n axis index 1 p) at 1.
  rewrite (turn_slice_opposite n axis index).
  apply turn_slice_four.
Qed.

Lemma turn_slice_three n axis index p :
  turn_slice n axis index 1 (turn_slice n axis index 1 (turn_slice n axis index 1 p))
  = turn_slice n axis index (-1) p.
Proof.
  rewrite <- (turn_slice_opposite' n axis index p) at 1.
  rewrite turn_slice_four. reflexivity.
Qed.

Lemma turn_cell_commute n axis d d' p :
  turn_cell n axis d (turn_cell n axis d' p) = turn_cell n axis d' (turn_cell n axis d p).
Proof.
  destruct p as [[x y] z]. unfold turn_cell.
  destruct (String.eqb axis "x"); [|destruct (String.eqb axis "y")];
    destruct (d =? 1), (d' =? 1); repeat f_equal; lia.
Qed.

Lemma turn_cell_axis_coord n axis d p :
  axis_coord axis (turn_cell n axis d p) = axis_coord axis p.
Proof.
  destruct p as [[x y] z]. unfold turn_cell, axis_coord.
  destruct (String.eqb axis "x"); [|destruct (String.eqb axis "y")];
    destruct (d =? 1); reflexivity.
Qed.

Lemma turn_slice_commute n axis i j d d' p :
  turn_slice n axis i d (turn_slice n axis j d' p)
  = turn_slice n axis j d' (turn_slice n axis i d p).
Proof.
  unfold turn_slice.
  destruct (axis_coord axis p =? j) eqn:Ej, (axis_coord axis p =? i) eqn:Ei;
    rewrite ?turn_cell_axis_coord, ?Ei, ?Ej; try reflexivity.
  apply turn_cell_commute.
Qed.

Section EngineAlgebra.
Context `{Libm}.
Hypothesis libm_ok : libm_quarter_turns.

Lemma rotate_twice axis index d axis' index' d' v :
  lattice_ok v -> d = 1 \/ d = -1 -> d' = 1 \/ d' = -1 ->
  VoxelRubiks._rotate_slice_90 axis index d (VoxelRubiks._rotate_slice_90 axis' index' d' v)
  = VoxelRubiks.set_coords v
      (map (fun p => turn_slice (VoxelRubiks.n v) axis index d
                       (turn_slice (VoxelRubiks.n v) axis' index' d' p))
           (VoxelRubiks.coords v)).
Proof.
  intros Hv Hd Hd'.
  pose proof (rotate_ok libm_ok axis' index' d' v Hv Hd') as Hv'.
  rewrite (rotate_turn libm_ok axis index d _ Hv' Hd).
  rewrite (rotate_turn libm_ok axis' index' d' v Hv Hd').
  destruct v. unfold VoxelRubiks.set_coords. simpl. rewrite map_map. reflexivity.
Qed.

(** A quarter-turn in one sense undoes the quarter-turn of the same slice
    in the other sense, in either order. *)
Theorem opposite_turns_cancel axis index v :
  lattice_ok v ->
  VoxelRubiks._rotate_slice_90 axis index (-1) (VoxelRubiks._rotate_slice_90 axis index 1 v) = v
  /\ VoxelRubiks._rotate_slice_90 axis index 1 (VoxelRubiks._rotate_slice_90 axis index (-1) v) = v.
Proof.
  intros Hv. split; rewrite rotate_twice by (auto; fail);
    rewrite <- (set_coords_same v) at 3; f_equal;
    rewrite <- (map_id (VoxelRubiks.coords v)) at 2; apply map_ext; intros p.
  - apply turn_slice_opposite.
  - apply turn_slice_opposite'.
Qed.

(** Three quarter-turns in the positive sense are one quarter-turn in the
    negative sense: what a move of count [3] commits is the inverse of a move
    of count [1]. *)
Theorem three_turns_are_the_opposite_turn axis index v :
  lattice_ok v ->
  Nat.iter 3 (VoxelRubiks._rotate_slice_90 axis index 1) v
  = VoxelRubiks._rotate_slice_90 axis index (-1) v.
Proof.
  intros Hv. simpl Nat.iter.
  pose proof (rotate_ok libm_ok axis index 1 v Hv (or_introl eq_refl)) as H1.
  rewrite rotate_twice by (auto; fail).
  rewrite (rotate_turn libm_ok axis index 1 v Hv) by auto.
  rewrite (rotate_turn libm_ok axis index (-1) v Hv) by auto.
  destruct v. unfold VoxelRubiks.set_coords. simpl. f_equal.
  rewrite map_map. apply map_ext. intros p. apply turn_slice_three.
Qed.

(** Turns about the same axis commute, whatever their slices and senses. *)
Theorem same_axis_turns_commute axis i j d d' v :
  lattice_ok v -> d = 1 \/ d = -1 -> d' = 1 \/ d' = -1 ->
  VoxelRubiks._rotate_slice_90 axis i d (VoxelRubiks._rotate_slice_90 axis j d' v)
  = VoxelRubiks._rotate_slice_90 axis j d' (VoxelRubiks._rotate_slice_90 axis i d v).
Proof.
  intros Hv Hd Hd'. rewrite !rotate_twice by assumption. f_equal.
  apply map_ext. intros p. apply turn_slice_commute.
Qed.

(** A commit keeps every cubelet in its slice along the axis of the turn:
    the slice masks of that axis are the same before and after, so the
    indices [_on_tick] computed before the turn still name the moved
    cubelets after the commit.  Nothing but [coords] is written. *)
Theorem commit_keeps_slice_masks axis index dir index' v :
  lattice_ok v -> dir = 1 \/ dir = -1 ->
  let v' := VoxelRubiks._rotate_slice_90 axis index dir v in
  VoxelRubiks._slice_mask axis index' v' = VoxelRubiks._slice_mask axis index' v
  /\ List.length (VoxelRubiks.coords v') = List.length (VoxelRubiks.coords v)
  /\ VoxelRubiks.masks v' = VoxelRubiks.masks v
  /\ VoxelRubiks.solved v' = VoxelRubiks.solved v
  /\ VoxelRubiks.history v' = VoxelRubiks.history v.
Proof.
  intros Hv Hd v'. unfold v'. split.
  - rewrite !slice_mask_axis_coord. rewrite (rotate_exact libm_ok) by assumption.
    rewrite map_map. apply map_ext. intros p.
    rewrite turn_slice_axis_coord. reflexivity.
  - split; [apply rotate_length|]. repeat split.
Qed.

End EngineAlgebra.

Lemma opposite_turns_cancel_witness :
  @VoxelRubiks._rotate_slice_90 Samples.table_libm "z" 0 (-1)
    (@VoxelRubiks._rotate_slice_90 Samples.table_libm "z" 0 1 Samples.cube3) = Samples.cube3
  /\ @VoxelRubiks._rotate_slice_90 Samples.table_libm "z" 0 1
       (@VoxelRubiks._rotate_slice_90 Samples.table_libm "z" 0 (-1) Samples.cube3) = Samples.cube3.
Proof.
  apply (@opposite_turns_cancel Samples.table_libm table_libm_ok "z" 0 Samples.cube3).
  exact cube3_ok.
Defined.

Lemma three_turns_are_the_opposite_turn_witness :
  Nat.iter 3 (@VoxelRubiks._rotate_slice_90 Samples.table_libm "x" 2 1) Samples.cube3
  = @VoxelRubiks._rotate_slice_90 Samples.table_libm "x" 2 (-1) Samples.cube3.
Proof.
  apply (@three_turns_are_the_opposite_turn Samples.table_libm table_libm_ok "x" 2 Samples.cube3).
  exact cube3_ok.
Defined.

Lemma same_axis_turns_commute_witness :
  @VoxelRubiks._rotate_slice_90 Samples.table_libm "y" 0 1
    (@VoxelRubiks._rotate_slice_90 Samples.table_libm "y" 2 (-1) Samples.cube3)
  = @VoxelRubiks._rotate_slice_90 Samples.table_libm "y" 2 (-1)
      (@VoxelRubiks._rotate_slice_90 Samples.table_libm "y" 0 1 Samples.cube3).
Proof.
  apply (@same_axis_turns_commute Samples.table_libm table_libm_ok "y" 0 2 1 (-1) Samples.cube3).
  - exact cube3_ok.
  - left. reflexivity.
  - right. reflexivity.
Defined.

(** Turns about different axes do not commute in general. *)
Example different_axes_do_not_commute :
  VoxelRubiks.coords
    (@VoxelRubiks._rotate_slice_90 Samples.table_libm "x" 0 1
       (@VoxelRubiks._rotate_slice_90 Samples.table_libm "y" 0 1 Samples.cube3))
  <> VoxelRubiks.coords
       (@VoxelRubiks._rotate_slice_90 Samples.table_libm "y" 0 1
          (@VoxelRubiks._rotate_slice_90 Samples.table_libm "x" 0 1 Samples.cube3)).
Proof. vm_compute. discriminate. Qed.

Lemma commit_keeps_slice_masks_witness :
  let v' := @VoxelRubiks._rotate_slice_90 Samples.table_libm "x" 0 1 Samples.cube3 in
  VoxelRubiks._slice_mask "x" 0 v' = VoxelRubiks._slice_mask "x" 0 Samples.cube3
  /\ List.length (VoxelRubiks.coords v') = List.length (VoxelRubiks.coords Samples.cube3)
  /\ VoxelRubiks.masks v' = VoxelRubiks.masks Samples.cube3
  /\ VoxelRubiks.solved v' = VoxelRubiks.solved Samples.cube3
  /\ VoxelRubiks.history v' = VoxelRubiks.history Samples.cube3.
Proof.
  apply (@commit_keeps_slice_masks Samples.table_libm table_libm_ok "x" 0 1 0 Samples.cube3).
  - exact cube3_ok.
  - left. reflexivity.
Defined.

(* ================================================================== *)
(** * Further properties of the constructor                             *)
(* ================================================================== *)

Lemma length_flat_map_const {A B : Type} (f : A -> list B) (l : list A) (b : Z) :
  (forall x, In x l -> Z.of_nat (List.length (f x)) = b) ->
  Z.of_nat (List.length (flat_map f l)) = Z.of_nat (List.length l) * b.
Proof.
  induction l as [|x l IH]; intros Hb; [reflexivity|].
  cbn [flat_map List.length].
  rewrite length_app, Nat2Z.inj_add, IH by (intros; apply Hb; right; assumption).
  rewrite (Hb x) by (left; reflexivity). rewrite Nat2Z.inj_succ. ring.
Qed.

Lemma range_faces n :
  2 <= n ->
  range n = [0] ++ map Z.of_nat (seq 1 (Z.to_nat (n - 2))) ++ [n - 1].
Proof.
  intros Hn. unfold range.
  replace (Z.to_nat n) with (S (S (Z.to_nat (n - 2)))) by lia.
  rewrite seq_S. simpl seq. rewrite map_app. simpl.
  f_equal. f_equal. f_equal. lia.
Qed.

(** The length of a [flat_map] over [range n] whose pieces have length [a]
    on the two faces [0] and [n-1] and length [b] in between. *)
Lemma length_flat_map_faces {B : Type} (f : Z -> list B) n a b :
  2 <= n ->
  Z.of_nat (List.length (f 0)) = a ->
  Z.of_nat (List.length (f (n - 1))) = a ->
  (forall x, 0 < x < n - 1 -> Z.of_nat (List.length (f x)) = b) ->
  Z.of_nat (List.length (flat_map f (range n))) = 2 * a + (n - 2) * b.
Proof.
  intros Hn H0 H1 Hm. rewrite (range_faces n Hn), !flat_map_app, !length_app.
  simpl flat_map. rewrite !app_nil_r, !Nat2Z.inj_add, H0, H1.
  rewrite (length_flat_map_const f _ b).
  - rewrite length_map, length_seq, Z2Nat.id by lia. ring.
  - intros x Hx. apply in_map_iff in Hx. destruct Hx as [k [<- Hk]].
    apply in_seq in Hk. apply Hm. lia.
Qed.

Lemma on_face_ends n : 2 <= n ->
  VoxelRubiks.on_face n 0 = true /\ VoxelRubiks.on_face n (n - 1) = true
  /\ forall x, 0 < x < n - 1 -> VoxelRubiks.on_face n x = false.
Proof.
  intros Hn. unfold VoxelRubiks.on_face. repeat split.
  - rewrite Z.eqb_refl. apply orb_true_r.
  - intros x Hx. apply orb_false_iff. split; apply Z.eqb_neq; lia.
Qed.

Lemma shell_cubelets_length n :
  2 <= n ->
  Z.of_nat (List.length (VoxelRubiks.shell_cubelets n)) = n ^ 3 - (n - 2) ^ 3.
Proof.
  intros Hn. destruct (on_face_ends n Hn) as (F0 & F1 & Fm).
  assert (inner : forall y z,
             Z.of_nat (List.length
               (flat_map (fun x =>
                  if VoxelRubiks.on_face n x || VoxelRubiks.on_face n y
                     || VoxelRubiks.on_face n z
                  then [((x, y, z), VoxelRubiks.face_mask n x y z)] else [])
                  (range n)))
             = 2 * 1 + (n - 2) *
                 (if VoxelRubiks.on_face n y || VoxelRubiks.on_face n z then 1 else 0)).
  { intros y z. apply length_flat_map_faces; [exact Hn | | |].
    - rewrite F0. reflexivity.
    - rewrite F1. reflexivity.
    - intros x Hx. rewrite (Fm x Hx). simpl orb.
      destruct (VoxelRubiks.on_face n y || VoxelRubiks.on_face n z); reflexivity. }
  assert (middle : forall z,
             Z.of_nat (List.length
               (flat_map (fun y =>
                  flat_map (fun x =>
                    if VoxelRubiks.on_face n x || VoxelRubiks.on_face n y
                       || VoxelRubiks.on_face n z
                    then [((x, y, z), VoxelRubiks.face_mask n x y z)] else [])
                    (range n))
                  (range n)))
             = 2 * n + (n - 2) * (2 + (n - 2) * (if VoxelRubiks.on_face n z then 1 else 0))).
  { intros z. apply length_flat_map_faces; [exact Hn | | |].
    - rewrite inner, F0. simpl orb. lia.
    - rewrite inner, F1. simpl orb. lia.
    - intros y Hy. rewrite inner, (Fm y Hy). simpl orb. lia. }
  unfold VoxelRubiks.shell_cubelets.
  rewrite (length_flat_map_faces _ n (n * n) (4 * n - 4)); [nia | exact Hn | | |].
  - rewrite middle, F0. nia.
  - rewrite middle, F1. nia.
  - intros z Hz. rewrite middle, (Fm z Hz). nia.
Qed.

(** The constructor builds exactly the [n^3 - (n-2)^3] cubelets of the outer
    shell, with one mask each, and takes the solved snapshot of all of
    them. *)
Theorem cubelet_count n v :
  VoxelRubiks.__init__ n = Some v ->
  Z.of_nat (List.length (VoxelRubiks.coords v)) = n ^ 3 - (n - 2) ^ 3
  /\ List.length (VoxelRubiks.masks v) = List.length (VoxelRubiks.coords v)
  /\ VoxelRubiks.solved v = VoxelRubiks.coords v
  /\ VoxelRubiks.history v = [].
Proof.
  unfold VoxelRubiks.__init__. destruct (2 <=? n) eqn:E; [|discriminate].
  apply Z.leb_le in E. intros [= <-]. simpl.
  rewrite !length_map. repeat split. apply shell_cubelets_length. exact E.
Qed.

Lemma cubelet_count_witness :
  Z.of_nat (List.length (VoxelRubiks.coords Samples.cube3)) = 3 ^ 3 - (3 - 2) ^ 3
  /\ List.length (VoxelRubiks.masks Samples.cube3)
     = List.length (VoxelRubiks.coords Samples.cube3)
  /\ VoxelRubiks.solved Samples.cube3 = VoxelRubiks.coords Samples.cube3
  /\ VoxelRubiks.history Samples.cube3 = [].
Proof.
  apply (cubelet_count 3 Samples.cube3). reflexivity.
Defined.

(** The bit [bit] is set in [bits], as [blend_colors] tests it. *)
Definition has_face (bits bit : Z) : bool := negb (Z.land bits bit =? 0).

Lemma in_combine_init n v p m :
  n <= 32768 -> VoxelRubiks.__init__ n = Some v ->
  In (p, m) (combine (VoxelRubiks.coords v) (VoxelRubiks.masks v)) ->
  exists x y z, p = (x, y, z) /\ in_range n p /\ on_shell n p = true
                /\ m = uint8 (VoxelRubiks.face_mask n x y z).
Proof.
  intros Hn. unfold VoxelRubiks.__init__. destruct (2 <=? n); [|discriminate].
  intros [= <-]. simpl. rewrite !map_map.
  assert (C : forall (l : list (cell * Z)),
             combine (map (fun c => VoxelRubiks.int16_cell (fst c)) l)
                     (map (fun c => uint8 (snd c)) l)
             = map (fun c => (VoxelRubiks.int16_cell (fst c), uint8 (snd c))) l).
  { induction l as [|c l IH]; simpl; [reflexivity | rewrite IH; reflexivity]. }
  rewrite C. intros Hin. apply in_map_iff in Hin. destruct Hin as [[q m'] [E Hq]].
  simpl in E. injection E as <- <-.
  apply in_shell_cubelets in Hq. destruct q as [[x y] z].
  destruct Hq as (Hr & Hs & ->).
  assert (Hr' : in_range n (x, y, z)) by (simpl; lia).
  rewrite (int16_cell_small n _ Hn Hr').
  exists x, y, z. repeat split; try assumption; simpl in Hr'; lia.
Qed.

(** The stored mask of a cubelet has exactly the flags of the faces its
    solved position lies on: [U] for [z = 0], [D] for [z = n-1], [F] for
    [y = 0], [B] for [y = n-1], [L] for [x = 0], [R] for [x = n-1]; no other
    bit is set, so nothing is lost in the [uint8] cell. *)
Theorem mask_flags_are_the_faces n v x y z m :
  n <= 32768 ->
  VoxelRubiks.__init__ n = Some v ->
  In ((x, y, z), m) (combine (VoxelRubiks.coords v) (VoxelRubiks.masks v)) ->
  has_face m U = (z =? 0) /\ has_face m D = (z =? n - 1)
  /\ has_face m F = (y =? 0) /\ has_face m B = (y =? n - 1)
  /\ has_face m L = (x =? 0) /\ has_face m R = (x =? n - 1)
  /\ 0 < m < 64.
Proof.
  intros Hn Hv Hin.
  destruct (in_combine_init n v _ _ Hn Hv Hin) as (x' & y' & z' & E & _ & Hs & ->).
  injection E as -> -> ->. revert Hs.
  unfold on_shell, VoxelRubiks.on_face, VoxelRubiks.face_mask.
  destruct (x' =? 0), (x' =? n - 1), (y' =? 0), (y' =? n - 1), (z' =? 0), (z' =? n - 1);
    simpl orb; intros Hs; try discriminate Hs; vm_compute; intuition congruence.
Qed.

Lemma mask_flags_are_the_faces_witness :
  has_face 21 U = (0 =? 0) /\ has_face 21 D = (0 =? 3 - 1)
  /\ has_face 21 F = (0 =? 0) /\ has_face 21 B = (0 =? 3 - 1)
  /\ has_face 21 L = (0 =? 0) /\ has_face 21 R = (0 =? 3 - 1)
  /\ 0 < 21 < 64.
Proof.
  apply (mask_flags_are_the_faces 3 Samples.cube3 0 0 0 21).
  - lia.
  - reflexivity.
  - left. reflexivity.
Defined.

(* ================================================================== *)
(** * Further properties of the move algebra                            *)
(* ================================================================== *)

(** A move as [class Move] documents it and as the widgets produce it. *)
Definition valid_move (n : Z) (m : Move.t) : Prop :=
  In (Move.axis m) ["x"; "y"; "z"]%string
  /\ 0 <= Move.index m <= n - 1
  /\ 1 <= Move.k m <= 3.

(** What the program assumes of the generator: [_randbelow(k)] is below
    [k]. *)
Definition rng_ok `{Random} : Prop :=
  forall k g, 0 < k -> 0 <= fst (randbelow k g) < k.

Section ScrambleFacts.
Context `{Random}.
Hypothesis Hrng : rng_ok.

Lemma random_choice_in {A : Type} (seq : list A) g :
  seq <> [] ->
  exists a g', VoxelRubiks.random_choice seq g = Some (a, g') /\ In a seq.
Proof.
  intros Hne. unfold VoxelRubiks.random_choice.
  assert (Hl : 0 < Z.of_nat (List.length seq)) by (destruct seq; [contradiction|simpl; lia]).
  pose proof (Hrng _ g Hl) as Hr.
  destruct (randbelow (Z.of_nat (List.length seq)) g) as [i g'] eqn:E. simpl in Hr.
  replace ((0 <=? i) && (i <? Z.of_nat (List.length seq))) with true
    by (symmetry; apply andb_true_iff; split; [apply Z.leb_le | apply Z.ltb_lt]; lia).
  destruct (nth_error seq (Z.to_nat i)) as [a|] eqn:En.
  - exists a, g'. split; [reflexivity | eapply nth_error_In; exact En].
  - apply nth_error_None in En. lia.
Qed.

Lemma random_randint_in a b g :
  a <= b ->
  exists r g', VoxelRubiks.random_randint a b g = Some (r, g') /\ a <= r <= b.
Proof.
  intros Hab. unfold VoxelRubiks.random_randint.
  replace (0 <? b - a + 1) with true by (symmetry; apply Z.ltb_lt; lia).
  pose proof (Hrng (b - a + 1) g ltac:(lia)) as Hr.
  destruct (randbelow (b - a + 1) g) as [r g']. simpl in Hr.
  exists (a + r), g'. split; [reflexivity | lia].
Qed.

Lemma scramble_loop_valid count n g acc :
  1 <= n ->
  exists seq g',
    VoxelRubiks.scramble_loop count n g acc = Some (acc ++ seq, g')
    /\ List.length seq = count
    /\ Forall (valid_move n) seq.
Proof.
  intros Hn. revert g acc. induction count as [|count IH]; intros g acc.
  - exists [], g. rewrite app_nil_r. repeat split. constructor.
  - cbn [VoxelRubiks.scramble_loop].
    destruct (random_choice_in ["x"; "y"; "z"]%string g ltac:(discriminate))
      as (axis & g1 & -> & Ha).
    destruct (random_randint_in 0 (n - 1) g1 ltac:(lia)) as (index & g2 & -> & Hi).
    destruct (random_choice_in [1; 2; 3] g2 ltac:(discriminate)) as (k & g3 & -> & Hk).
    destruct (IH g3 (acc ++ [Move.mk axis index k])) as (seq & g' & E & L & V).
    exists (Move.mk axis index k :: seq), g'. rewrite E, <- app_assoc.
    split; [reflexivity|]. split; [simpl; lia|].
    constructor; [|exact V]. repeat split; simpl; try lia; try exact Ha.
    + simpl in Hk. lia.
    + simpl in Hk. lia.
Qed.

(** A scramble never fails on a lattice; it draws [moves] moves (none for a
    count below [1]), each on one of the three axes, on a slice of the cube
    and of one to three quarter-turns, appends exactly these to the history
    and does not touch the cubelets. *)
Theorem scramble_well_formed moves seed v g :
  1 <= VoxelRubiks.n v ->
  exists seq g',
    VoxelRubiks.scramble moves seed v g
    = Some (seq, VoxelRubiks.set_history v (VoxelRubiks.history v ++ seq), g')
    /\ List.length seq = Z.to_nat moves
    /\ Forall (valid_move (VoxelRubiks.n v)) seq.
Proof.
  intros Hn. unfold VoxelRubiks.scramble.
  destruct (scramble_loop_valid (Z.to_nat moves) (VoxelRubiks.n v)
              (match seed with Some h => random_seed h | None => g end) [] Hn)
    as (seq & g' & E & L & V).
  rewrite E. exists seq, g'. repeat split; assumption.
Qed.

End ScrambleFacts.

Lemma lcg_random_ok : @rng_ok Samples.lcg_random.
Proof.
  intros k g Hk. simpl.
  replace (k =? 0) with false by (symmetry; apply Z.eqb_neq; lia).
  apply Z.mod_pos_bound. exact Hk.
Qed.

Lemma scramble_well_formed_witness :
  exists seq g',
    @VoxelRubiks.scramble Samples.lcg_random 5 (Some 42) Samples.cube3 0
    = Some (seq, VoxelRubiks.set_history Samples.cube3
                   (VoxelRubiks.history Samples.cube3 ++ seq), g')
    /\ List.length seq = Z.to_nat 5
    /\ Forall (valid_move (VoxelRubiks.n Samples.cube3)) seq.
Proof.
  apply (@scramble_well_formed Samples.lcg_random lcg_random_ok 5 (Some 42) Samples.cube3 0).
  simpl. lia.
Defined.

Definition invert (m : Move.t) : Move.t :=
  Move.mk (Move.axis m) (Move.index m) ((4 - Move.k m mod 4) mod 4).

Lemma inverse_spec_valid h :
  Forall (fun m => 1 <= Move.k m <= 3) h -> inverse_spec h = map invert (rev h).
Proof.
  intros Hh. unfold inverse_spec. fold invert.
  assert (G : forall l, Forall (fun m => 1 <= Move.k m <= 3) l ->
              filter (fun m => negb (Move.k m =? 0)) (map invert l) = map invert l).
  { induction 1 as [|m l Hm _ IH]; [reflexivity|]. cbn [map filter]. rewrite IH.
    replace (negb (Move.k (invert m) =? 0)) with true; [reflexivity|].
    symmetry. apply negb_true_iff, Z.eqb_neq. unfold invert. simpl.
    assert (C : Move.k m = 1 \/ Move.k m = 2 \/ Move.k m = 3) by lia.
    destruct C as [-> | [-> | ->]]; discriminate. }
  apply G. apply Forall_rev. exact Hh.
Qed.

Lemma invert_invert m : 1 <= Move.k m <= 3 -> invert (invert m) = m.
Proof.
  destruct m as [a i k]. unfold invert. simpl. intros Hk.
  assert (C : k = 1 \/ k = 2 \/ k = 3) by lia.
  destruct C as [-> | [-> | ->]]; reflexivity.
Qed.

(** Every move [inverse_history] returns has a count of one to three
    quarter-turns and the axis and slice of a recorded move, and the history
    itself is not modified.  On a history of moves with counts [1..3] (those
    the buttons record) inverting is an involution: the inverse has as many
    moves as the history and the inverse of the inverse is the history. *)
Theorem inverse_history_valid v :
  Forall (fun m => 1 <= Move.k m <= 3
                   /\ exists m', In m' (VoxelRubiks.history v)
                                 /\ Move.axis m = Move.axis m'
                                 /\ Move.index m = Move.index m')
         (VoxelRubiks.inverse_history v)
  /\ (List.length (VoxelRubiks.inverse_history v) <= List.length (VoxelRubiks.history v))%nat
  /\ (Forall (fun m => 1 <= Move.k m <= 3) (VoxelRubiks.history v) ->
      List.length (VoxelRubiks.inverse_history v) = List.length (VoxelRubiks.history v)
      /\ VoxelRubiks.inverse_history
           (VoxelRubiks.set_history v (VoxelRubiks.inverse_history v))
         = VoxelRubiks.history v).
Proof.
  rewrite !inverse_history_spec. split; [|split].
  - apply Forall_forall. intros m Hm. unfold inverse_spec in Hm.
    apply filter_In in Hm. destruct Hm as [Hm Hk].
    apply in_map_iff in Hm. destruct Hm as [m' [<- Hm']]. apply in_rev in Hm'.
    apply negb_true_iff, Z.eqb_neq in Hk. cbn [Move.k Move.axis Move.index] in *.
    pose proof (Z.mod_pos_bound (4 - Move.k m' mod 4) 4 ltac:(lia)).
    split; [lia|]. exists m'. repeat split. exact Hm'.
  - unfold inverse_spec.
    eapply Nat.le_trans; [apply filter_length_le|]. rewrite length_map, length_rev. lia.
  - intros Hh. rewrite (inverse_spec_valid _ Hh). split.
    + rewrite length_map, length_rev. reflexivity.
    + cbn [VoxelRubiks.history VoxelRubiks.set_history].
      rewrite inverse_spec_valid.
      * rewrite <- map_rev, rev_involutive, map_map.
        rewrite <- (map_id (VoxelRubiks.history v)) at 2.
        apply map_ext_in. intros m Hm. apply invert_invert.
        rewrite Forall_forall in Hh. apply Hh. exact Hm.
      * apply Forall_forall. intros m Hm. apply in_map_iff in Hm.
        destruct Hm as [m' [<- Hm']]. apply in_rev in Hm'.
        rewrite Forall_forall in Hh. specialize (Hh m' Hm').
        unfold invert. cbn [Move.k].
        assert (C : Move.k m' = 1 \/ Move.k m' = 2 \/ Move.k m' = 3) by lia.
        destruct C as [E | [E | E]]; rewrite E; vm_compute; split; discriminate.
Qed.

Lemma inverse_history_valid_witness :
  let v := VoxelRubiks.set_history Samples.cube3
             [Move.mk "x" 0 1; Move.mk "z" 2 3; Move.mk "y" 1 2] in
  List.length (VoxelRubiks.inverse_history v) = List.length (VoxelRubiks.history v)
  /\ VoxelRubiks.inverse_history
       (VoxelRubiks.set_history v (VoxelRubiks.inverse_history v))
     = VoxelRubiks.history v.
Proof.
  apply (proj2 (proj2 (inverse_history_valid
                         (VoxelRubiks.set_history Samples.cube3
                            [Move.mk "x" 0 1; Move.mk "z" 2 3; Move.mk "y" 1 2])))).
  repeat constructor; simpl; lia.
Defined.

(* ================================================================== *)
(** * Reset                                                             *)
(* ================================================================== *)

Section ResetFacts.
Context `{Libm}.

(** Whatever the turns, a run of commits writes [coords] only. *)
Lemma commit_turns_frame q v :
  exists cs, commit_turns q v = VoxelRubiks.set_coords v cs
             /\ List.length cs = List.length (VoxelRubiks.coords v).
Proof.
  revert v. induction q as [|[[a i] d] q IH]; intros v; simpl.
  - exists (VoxelRubiks.coords v). rewrite set_coords_same. split; reflexivity.
  - destruct (IH (VoxelRubiks._rotate_slice_90 a i d v)) as [cs [E L]].
    exists cs. rewrite E, L, rotate_length. split; reflexivity.
Qed.

(** [reset] gives back the lattice exactly as the constructor built it,
    whatever turns were committed (valid or not) and whatever history was
    recorded since. *)
Theorem reset_gives_fresh_lattice n v0 q h :
  VoxelRubiks.__init__ n = Some v0 ->
  VoxelRubiks.reset (VoxelRubiks.set_history (commit_turns q v0) h) = v0.
Proof.
  intros Hv. destruct (commit_turns_frame q v0) as [cs [-> _]].
  revert Hv. unfold VoxelRubiks.__init__. destruct (2 <=? n); [|discriminate].
  intros [= <-]. reflexivity.
Qed.

End ResetFacts.

Lemma reset_gives_fresh_lattice_witness :
  VoxelRubiks.reset
    (VoxelRubiks.set_history
       (@commit_turns Samples.table_libm [("x"%string, 0, 1); ("q"%string, 7, 5)] Samples.cube3)
       sample_history)
  = Samples.cube3.
Proof.
  apply (@reset_gives_fresh_lattice Samples.table_libm 3). reflexivity.
Defined.

(* ================================================================== *)
(** * The speed slider                                                  *)
(* ================================================================== *)

(** The speed [on_speed_changed] stores for a slider value. *)
Definition slider_speed (value : Z) : float :=
  add (1 # 4) (mul (of_int (value - 1)) (div (15 # 4) 49%Q)).

Definition slider_check (value : Z) : bool :=
  Qle_bool (1 # 4) (slider_speed value) && Qle_bool (slider_speed value) 4
  && match VoxelQtScene.total_frames 12 (slider_speed value) with
     | Some T => (3 <=? T) && (T <=? 48)
     | None => false
     end.

Lemma slider_checked : forallb slider_check (map (Z.add 1) (range 50)) = true.
Proof. vm_compute. reflexivity. Qed.

(** The slider's range [1..50] is mapped into [0.25 .. 4.0], with [0.25] at
    [1] and exactly [4.0] at [50]; at every position the frame count of
    [_on_tick] is defined (no division by zero) and lies between [3] and
    [48] frames for the [12] frames per turn of the scene. *)
Theorem slider_speed_range value s :
  1 <= value <= 50 ->
  let s' := VoxelQtScene.on_speed_changed value s in
  (1 # 4 <= VoxelQtScene.speed s' <= 4)%Q
  /\ (exists T, VoxelQtScene.total_frames 12 (VoxelQtScene.speed s') = Some T
                /\ 3 <= T <= 48)
  /\ VoxelQtScene.speed (VoxelQtScene.on_speed_changed 1 s) = (1 # 4)%Q
  /\ VoxelQtScene.speed (VoxelQtScene.on_speed_changed 50 s) = 4%Q
  /\ VoxelQtScene.model s' = VoxelQtScene.model s
  /\ VoxelQtScene.queue s' = VoxelQtScene.queue s.
Proof.
  intros Hv. cbv zeta.
  change (VoxelQtScene.speed (VoxelQtScene.on_speed_changed value s)) with (slider_speed value).
  pose proof slider_checked as C. rewrite forallb_forall in C.
  specialize (C value). unfold slider_check in C.
  assert (Hin : In value (map (Z.add 1) (range 50))).
  { apply in_map_iff. exists (value - 1). split; [lia|]. apply in_range_list. lia. }
  specialize (C Hin). apply andb_true_iff in C. destruct C as [C1 C3].
  apply andb_true_iff in C1. destruct C1 as [C1 C2].
  apply Qle_bool_iff in C1, C2.
  split; [split; assumption|]. split.
  - destruct (VoxelQtScene.total_frames 12 (slider_speed value)) as [T|]; [|discriminate].
    apply andb_true_iff in C3. destruct C3 as [C3 C4].
    apply Z.leb_le in C3, C4. exists T. split; [reflexivity | lia].
  - repeat split; vm_compute; reflexivity.
Qed.

Lemma slider_speed_range_witness :
  let s' := VoxelQtScene.on_speed_changed 25 Samples.scene2 in
  (1 # 4 <= VoxelQtScene.speed s' <= 4)%Q
  /\ (exists T, VoxelQtScene.total_frames 12 (VoxelQtScene.speed s') = Some T
                /\ 3 <= T <= 48)
  /\ VoxelQtScene.speed (VoxelQtScene.on_speed_changed 1 Samples.scene2) = (1 # 4)%Q
  /\ VoxelQtScene.speed (VoxelQtScene.on_speed_changed 50 Samples.scene2) = 4%Q
  /\ VoxelQtScene.model s' = VoxelQtScene.model Samples.scene2
  /\ VoxelQtScene.queue s' = VoxelQtScene.queue Samples.scene2.
Proof.
  apply (slider_speed_range 25 Samples.scene2). lia.
Defined.

(* ================================================================== *)
(** * The seed text                                                     *)
(* ================================================================== *)

Definition starts_clean (s : str) : Prop :=
  match s with
  | [] => True
  | c :: _ => isspace c = false
  end.

Lemma lstrip_spec s :
  exists pre, s = pre ++ lstrip s /\ forallb isspace pre = true /\ starts_clean (lstrip s).
Proof.
  induction s as [|c s IH]; simpl.
  - exists []. repeat split.
  - destruct (isspace c) eqn:E.
    + destruct IH as (pre & E1 & E2 & E3). exists (c :: pre).
      simpl. rewrite E, E2. repeat split; [f_equal; exact E1 | exact E3].
    + exists []. repeat split. exact E.
Qed.

Lemma lstrip_fixed s : starts_clean s -> lstrip s = s.
Proof. destruct s as [|c s]; simpl; [reflexivity|]. intros ->. reflexivity. Qed.

Lemma lstrip_spaces s : forallb isspace s = true -> lstrip s = [].
Proof.
  induction s as [|c s IH]; simpl; [reflexivity|].
  intros E. apply andb_true_iff in E. destruct E as [-> E]. apply IH. exact E.
Qed.

Lemma strip_idempotent s : strip (strip s) = strip s.
Proof.
  unfold strip.
  destruct (lstrip_spec s) as (_ & _ & _ & Ca).
  set (a := lstrip s) in *.
  destruct (lstrip_spec (rev a)) as (pre & E & _ & Cb).
  set (b := lstrip (rev a)) in *.
  assert (Ea : a = rev b ++ rev pre).
  { rewrite <- (rev_involutive a), E, rev_app_distr. reflexivity. }
  assert (Crb : starts_clean (rev b)).
  { destruct (rev b) as [|c rb] eqn:Erb; [exact I|].
    rewrite Ea in Ca. simpl in Ca. exact Ca. }
  rewrite (lstrip_fixed (rev b) Crb), rev_involutive, (lstrip_fixed b Cb).
  reflexivity.
Qed.

Section SeedText.
Context `{Random}.

(** The scramble handler reads the seed text without the whitespace around
    it: a text and its stripped form give the same scramble, and a text of
    whitespace only is no seed at all (the generator goes on from the state
    it is in). *)
Theorem seed_text_is_stripped moves text s g :
  VoxelQtScene.on_scramble_clicked moves text s g
  = VoxelQtScene.on_scramble_clicked moves (strip text) s g
  /\ (forallb isspace text = true ->
      VoxelQtScene.on_scramble_clicked moves text s g
      = match VoxelRubiks.scramble moves None (VoxelQtScene.model s) g with
        | None => None
        | Some (seq, model', g') =>
            Some (VoxelQtScene.enqueue_all seq (VoxelQtScene.set_model s model'), g')
        end).
Proof.
  split.
  - unfold VoxelQtScene.on_scramble_clicked. rewrite strip_idempotent. reflexivity.
  - intros Hsp. unfold VoxelQtScene.on_scramble_clicked, strip.
    rewrite (lstrip_spaces text Hsp). reflexivity.
Qed.

End SeedText.

Lemma seed_text_is_stripped_witness :
  @VoxelQtScene.on_scramble_clicked Samples.lcg_random 4 (of_string "   ") Samples.scene2 9
  = match @VoxelRubiks.scramble Samples.lcg_random 4 None
            (VoxelQtScene.model Samples.scene2) 9 with
    | None => None
    | Some (seq, model', g') =>
        Some (VoxelQtScene.enqueue_all seq (VoxelQtScene.set_model Samples.scene2 model'), g')
    end.
Proof.
  apply (proj2 (@seed_text_is_stripped Samples.lcg_random 4 (of_string "   ") Samples.scene2 9)).
  reflexivity.
Defined.

(* ================================================================== *)
(** * Colours                                                           *)
(* ================================================================== *)

Section ColourFacts.
Context `{QtColor}.

Lemma clamp01_range v : (0 <= clamp01 v <= 1)%Q.
Proof.
  unfold clamp01.
  destruct (Qlt_le_dec v 1) as [L1|L1];
    [destruct (Qlt_le_dec 0 v) as [L2|L2] | destruct (Qlt_le_dec 0 1) as [L2|L2]];
    split; try lra; try (apply Qlt_le_weak; assumption).
Qed.

Lemma Forall_six {A : Type} (P : A -> Prop) a b c d e f :
  Forall P [a; b; c; d; e; f] <-> P a /\ P b /\ P c /\ P d /\ P e /\ P f.
Proof.
  split.
  - intros C. repeat match goal with
                     | C : Forall _ (_ :: _) |- _ => inversion C; clear C; subst
                     end. tauto.
  - intros (Ha & Hb & Hc & Hd & He & Hf). repeat constructor; assumption.
Qed.

(** [blend_colors] falls back to [#111111] exactly when none of the six face
    flags is set in its argument; otherwise it counts the set flags (one to
    six) and returns an opaque colour whose three channels lie in
    [[0, 1]]. *)
Theorem blend_colors_range bits :
  0 <= blend_cnt bits <= 6
  /\ (blend_cnt bits = 0 <->
      Forall (fun bit => has_face bits bit = false) [U; D; F; B; L; R])
  /\ (blend_cnt bits = 0 -> blend_colors bits = QColor_name "#111111")
  /\ (blend_cnt bits <> 0 ->
      exists r g b,
        blend_colors bits = QColor_rgbF r g b 1%Q
        /\ (0 <= r <= 1)%Q /\ (0 <= g <= 1)%Q /\ (0 <= b <= 1)%Q).
Proof.
  rewrite Forall_six.
  unfold blend_cnt, blend_colors, blend_sums, face_colors, has_face.
  cbn [fold_left].
  repeat (cbv beta iota;
          match goal with
          | |- context [Z.land bits ?b =? 0] => destruct (Z.land bits b =? 0)
          end; cbn [negb]);
    cbv beta iota;
    (split; [lia|]);
    (split; [split; [intros C; try discriminate C; repeat split
                    | intros C; try reflexivity;
                      decompose [and] C; discriminate]|]);
    (split; [intros C; try discriminate C; reflexivity|]);
    intros C; try (contradiction C; reflexivity);
    do 3 eexists; (split; [reflexivity|]); repeat split; apply clamp01_range.
Qed.

End ColourFacts.

(* ================================================================== *)
(** * The scene under its events                                        *)
(* ================================================================== *)

(** What the user and the timer can do to a scene. *)
Inductive event :=
| TurnClicked (axis : string) (index kIndex : Z)
| ScrambleClicked (moves : Z) (text : str)
| SolveClicked
| ResetClicked
| SpeedChanged (value : Z)
| TimerTick.

(** The values the widgets of a scene of size [n] can hold: the axis box
    lists ['x'], ['y'], ['z']; the slice spin box ranges over [0 .. n-1]; the
    quarter-turn box has three entries; the move spin box ranges over
    [1 .. 500]; the slider over [1 .. 50]. *)
Definition widget_ok (n : Z) (e : event) : Prop :=
  match e with
  | TurnClicked axis index kIndex =>
      In axis ["x"; "y"; "z"]%string /\ 0 <= index <= n - 1 /\ 0 <= kIndex <= 2
  | ScrambleClicked moves _ => 1 <= moves <= 500
  | SpeedChanged value => 1 <= value <= 50
  | SolveClicked | ResetClicked | TimerTick => True
  end.

Section Events.
Context `{Libm} `{Random} `{QtColor}.

(** The handler of an event, on the scene and the state of the [random]
    module; [None] is an exception. *)
Definition handle (e : event) (st : VoxelQtScene.t * rng) : option (VoxelQtScene.t * rng) :=
  match e with
  | TurnClicked axis index kIndex =>
      Some (VoxelQtScene.on_turn_clicked axis index kIndex (fst st), snd st)
  | ScrambleClicked moves text =>
      VoxelQtScene.on_scramble_clicked moves text (fst st) (snd st)
  | SolveClicked => Some (VoxelQtScene.on_solve_clicked (fst st), snd st)
  | ResetClicked =>
      match VoxelQtScene.on_reset_clicked (fst st) with
      | Some s => Some (s, snd st)
      | None => None
      end
  | SpeedChanged value => Some (VoxelQtScene.on_speed_changed value (fst st), snd st)
  | TimerTick =>
      match VoxelQtScene._on_tick (fst st) with
      | Some s => Some (s, snd st)
      | None => None
      end
  end.

(** The scenes of size [n] that the program can be in: the constructed scene,
    and what the handlers make of a reachable scene on an event of the
    widgets or the timer. *)
Inductive reachable (n : Z) : VoxelQtScene.t * rng -> Prop :=
| reach_init s g : VoxelQtScene.__init__ n = Some s -> reachable n (s, g)
| reach_step e st st' :
    reachable n st -> widget_ok n e -> handle e st = Some st' -> reachable n st'.

End Events.

(** What holds of every reachable scene: the scene and its lattice are well
    formed, the recorded moves are valid, and committing the pending turns
    would put the cubelets where the recorded history takes the solved
    cube. *)
Definition scene_inv (n : Z) (s : VoxelQtScene.t) : Prop :=
  scene_ok s
  /\ VoxelRubiks.n (VoxelQtScene.model s) = n
  /\ VoxelQtScene.frames_per_turn s = 12
  /\ lattice_inv (VoxelQtScene.model s)
  /\ Forall unit_dir (pending s)
  /\ Forall (valid_move n) (VoxelRubiks.history (VoxelQtScene.model s))
  /\ turn_cells n (pending s) (VoxelRubiks.coords (VoxelQtScene.model s))
     = turn_cells n (unit_turns (VoxelRubiks.history (VoxelQtScene.model s)))
         (VoxelRubiks.solved (VoxelQtScene.model s)).

Lemma lattice_inv_set_history v h :
  lattice_inv v -> lattice_inv (VoxelRubiks.set_history v h).
Proof. intros H. exact H. Qed.

Lemma scene_ok_enqueue axis index k record s :
  scene_ok s -> scene_ok (VoxelQtScene.enqueue_move axis index k record s).
Proof.
  intros H. unfold VoxelQtScene.enqueue_move. destruct record; exact H.
Qed.

Lemma unit_turns_one axis index k :
  unit_turns [Move.mk axis index (k mod 4)] = repeat (axis, index, 1) (Z.to_nat (k mod 4)).
Proof.
  unfold unit_turns. cbn [flat_map Move.axis Move.index Move.k].
  rewrite app_nil_r, Z.mod_mod by lia. reflexivity.
Qed.

Lemma Forall_unit_dir_repeat axis index k :
  Forall unit_dir (repeat (axis, index, 1) k).
Proof.
  apply Forall_forall. intros t Ht. apply repeat_spec in Ht. subst t. left. reflexivity.
Qed.

(** Recording a move and enqueueing its unit turns keeps the invariant. *)
Lemma scene_inv_record n axis index k s :
  scene_inv n s -> valid_move n (Move.mk axis index (k mod 4)) ->
  scene_inv n (VoxelQtScene.enqueue_move axis index k true s).
Proof.
  intros (Ok & En & Ef & Li & Pd & Hv & Eq) Vm.
  destruct (enqueue_move_pending axis index k true s) as [P C].
  assert (M : VoxelQtScene.model (VoxelQtScene.enqueue_move axis index k true s)
              = VoxelRubiks.set_history (VoxelQtScene.model s)
                  (VoxelRubiks.history (VoxelQtScene.model s)
                   ++ [Move.mk axis index (k mod 4)])) by reflexivity.
  split; [apply scene_ok_enqueue; exact Ok|].
  rewrite P, M. cbn [VoxelRubiks.n VoxelRubiks.set_history VoxelRubiks.history
                     VoxelRubiks.coords VoxelRubiks.solved].
  split; [exact En|]. split; [exact Ef|]. split; [exact Li|].
  split; [apply Forall_app; split; [exact Pd | apply Forall_unit_dir_repeat]|].
  split; [apply Forall_app; split; [exact Hv | constructor; [exact Vm | constructor]]|].
  rewrite unit_turns_app, !turn_cells_app, Eq, unit_turns_one. reflexivity.
Qed.

Lemma enqueue_all_pending seq s :
  pending (VoxelQtScene.enqueue_all seq s) = pending s ++ unit_turns seq
  /\ VoxelQtScene.model (VoxelQtScene.enqueue_all seq s) = VoxelQtScene.model s
  /\ VoxelQtScene.frames_per_turn (VoxelQtScene.enqueue_all seq s)
     = VoxelQtScene.frames_per_turn s
  /\ (scene_ok s -> scene_ok (VoxelQtScene.enqueue_all seq s)).
Proof.
  unfold VoxelQtScene.enqueue_all, unit_turns.
  revert s. induction seq as [|m seq IH]; intros s; cbn [fold_left flat_map].
  - rewrite app_nil_r. split; [reflexivity|]. split; [reflexivity|].
    split; [reflexivity|]. intros Ok. exact Ok.
  - destruct (IH (VoxelQtScene.enqueue_move (Move.axis m) (Move.index m) (Move.k m) false s))
      as (P & M & F & O).
    destruct (enqueue_move_pending (Move.axis m) (Move.index m) (Move.k m) false s) as [P' _].
    rewrite P, M, F, P', <- app_assoc.
    split; [reflexivity|]. split; [reflexivity|]. split; [reflexivity|].
    intros Ok. apply O. apply scene_ok_enqueue. exact Ok.
Qed.

Lemma lattice_inv_lengths v :
  lattice_inv v ->
  List.length (VoxelRubiks.solved v) = List.length (VoxelRubiks.coords v).
Proof. intros (_ & _ & P). symmetry. apply Permutation_length. exact P. Qed.

Lemma lattice_inv_reset v : lattice_inv v -> lattice_inv (VoxelRubiks.reset v).
Proof.
  intros ((Hn & Hh & _) & Hs & _). split; [|split; [exact Hs | apply Permutation_refl]].
  split; [exact Hn|]. split; [exact Hh|]. simpl. rewrite Hs.
  apply Forall_forall. intros p Hp. apply in_shell_cells in Hp. apply Hp.
Qed.

Lemma start_next_turn_fields s :
  VoxelQtScene.frames_per_turn (VoxelQtScene._start_next_turn s) = VoxelQtScene.frames_per_turn s
  /\ VoxelQtScene.speed (VoxelQtScene._start_next_turn s) = VoxelQtScene.speed s
  /\ VoxelQtScene.half (VoxelQtScene._start_next_turn s) = VoxelQtScene.half s
  /\ VoxelQtScene.n (VoxelQtScene._start_next_turn s) = VoxelQtScene.n s
  /\ VoxelQtScene.cubelets (VoxelQtScene._start_next_turn s) = VoxelQtScene.cubelets s.
Proof.
  unfold VoxelQtScene._start_next_turn.
  destruct (VoxelQtScene.queue s) as [|[[a i] d] q]; repeat split.
Qed.

Section EventSteps.
Context `{Libm} `{Random} `{QtColor}.
Hypothesis libm_ok : libm_quarter_turns.
Hypothesis Hrng : rng_ok.

(** A tick changes neither the configuration of the scene nor anything of
    the lattice but its coordinates. *)
Lemma on_tick_fields s s' :
  VoxelQtScene._on_tick s = Some s' ->
  VoxelQtScene.frames_per_turn s' = VoxelQtScene.frames_per_turn s
  /\ VoxelQtScene.speed s' = VoxelQtScene.speed s
  /\ VoxelQtScene.half s' = VoxelQtScene.half s
  /\ VoxelQtScene.n s' = VoxelQtScene.n s.
Proof.
  assert (A : forall s1 s2, VoxelQtScene.animate_frame s1 = Some s2 ->
              VoxelQtScene.frames_per_turn s2 = VoxelQtScene.frames_per_turn s1
              /\ VoxelQtScene.speed s2 = VoxelQtScene.speed s1
              /\ VoxelQtScene.half s2 = VoxelQtScene.half s1
              /\ VoxelQtScene.n s2 = VoxelQtScene.n s1).
  { intros s1 s2. unfold VoxelQtScene.animate_frame.
    destruct (VoxelQtScene.current_move s1) as [[[a i] d]|]; [|discriminate].
    destruct (VoxelQtScene.moving_indices s1) as [mv|]; [|discriminate].
    destruct (VoxelQtScene.total_frames _ _) as [T|]; [|discriminate].
    cbv zeta. destruct (VoxelQtScene.set_positions _ _ _ _) as [c1|]; [|discriminate].
    destruct (T <=? _).
    - destruct (VoxelQtScene.set_positions _ _ _ _) as [c2|]; [|discriminate].
      intros [= <-].
      match goal with
      | |- context [VoxelQtScene._start_next_turn ?s0] =>
          destruct (start_next_turn_fields s0) as (F1 & F2 & F3 & F4 & _)
      end.
      rewrite F1, F2, F3, F4. repeat split.
    - intros [= <-]. repeat split. }
  unfold VoxelQtScene._on_tick.
  destruct (negb (VoxelQtScene.animating s) && _).
  - destruct (start_next_turn_fields s) as (F1 & F2 & F3 & F4 & _).
    destruct (negb (VoxelQtScene.animating (VoxelQtScene._start_next_turn s))).
    + intros [= <-]. auto.
    + intros E. apply A in E. rewrite F1, F2, F3, F4 in E. exact E.
  - destruct (negb (VoxelQtScene.animating s)).
    + intros [= <-]. auto.
    + apply A.
Qed.

Lemma scene_inv_tick n s :
  scene_inv n s ->
  exists s', VoxelQtScene._on_tick s = Some s' /\ scene_inv n s'.
Proof.
  intros (Ok & En & Ef & Li & Pd & Hv & Eq).
  destruct (on_tick_step s Ok) as (s' & E & Ok' & _ & R).
  exists s'. split; [exact E|].
  destruct (on_tick_fields s s' E) as (F1 & _).
  split; [exact Ok'|].
  destruct (due s).
  - destruct R as (a & i & d & rest & P & M & P' & _).
    rewrite P in Pd, Eq. apply Forall_cons_iff in Pd. destruct Pd as [Hd Pr].
    simpl in Hd. pose proof Li as (Lok & _).
    rewrite M, P'.
    split; [exact En|]. split; [rewrite F1; exact Ef|].
    split; [apply (rotate_inv libm_ok); assumption|].
    split; [exact Pr|]. split; [exact Hv|].
    rewrite (rotate_exact libm_ok) by assumption. rewrite En.
    exact Eq.
  - destruct R as (M & P & _). rewrite M, P.
    split; [exact En|]. split; [rewrite F1; exact Ef|].
    split; [exact Li|]. split; [exact Pd|]. split; [exact Hv | exact Eq].
Qed.

Lemma scene_inv_scramble n moves text s g :
  1 <= n -> scene_inv n s ->
  exists s' g',
    VoxelQtScene.on_scramble_clicked moves text s g = Some (s', g') /\ scene_inv n s'.
Proof.
  intros Hn (Ok & En & Ef & Li & Pd & Hv & Eq).
  unfold VoxelQtScene.on_scramble_clicked, VoxelRubiks.scramble. cbv zeta.
  rewrite En.
  match goal with
  | |- context [VoxelRubiks.scramble_loop ?c n ?g0 []] =>
      destruct (scramble_loop_valid Hrng c n g0 [] Hn) as (seq & g' & -> & _ & V)
  end.
  simpl app. eexists. exists g'. split; [reflexivity|].
  match goal with
  | |- scene_inv n (VoxelQtScene.enqueue_all seq ?s0) =>
      destruct (enqueue_all_pending seq s0) as (P & M & F & O)
  end.
  split; [apply O; exact Ok|]. rewrite P, M, F.
  cbn [VoxelQtScene.model VoxelQtScene.set_model VoxelRubiks.n VoxelRubiks.set_history
       VoxelRubiks.history VoxelRubiks.coords VoxelRubiks.solved
       VoxelQtScene.frames_per_turn].
  split; [exact En|]. split; [exact Ef|]. split; [exact Li|].
  split; [apply Forall_app; split; [exact Pd | apply unit_turns_dirs]|].
  split; [apply Forall_app; split; assumption|].
  change (pending (VoxelQtScene.set_model s _)) with (pending s).
  rewrite unit_turns_app, !turn_cells_app, Eq. reflexivity.
Qed.

Lemma scene_inv_solve n s : scene_inv n s -> scene_inv n (VoxelQtScene.on_solve_clicked s).
Proof.
  intros (Ok & En & Ef & Li & Pd & Hv & Eq).
  unfold VoxelQtScene.on_solve_clicked. cbv zeta.
  destruct (enqueue_all_pending (VoxelRubiks.inverse_history (VoxelQtScene.model s)) s)
    as (P & M & F & O).
  set (s1 := VoxelQtScene.enqueue_all _ s) in *.
  assert (P1 : pending (VoxelQtScene.set_model s1
                          (VoxelRubiks.set_history (VoxelQtScene.model s1) []))
               = pending s1) by reflexivity.
  split; [exact (O Ok)|]. rewrite P1, P.
  cbn [VoxelQtScene.model VoxelQtScene.set_model VoxelRubiks.n VoxelRubiks.set_history
       VoxelRubiks.history VoxelRubiks.coords VoxelRubiks.solved
       VoxelQtScene.frames_per_turn].
  rewrite M, F.
  split; [exact En|]. split; [exact Ef|]. split; [exact Li|].
  split; [apply Forall_app; split; [exact Pd | apply unit_turns_dirs]|].
  split; [constructor|].
  rewrite turn_cells_app, Eq, <- turn_cells_app, inverse_history_spec.
  apply cells_round_trip.
Qed.

Lemma scene_inv_reset n s :
  scene_inv n s ->
  exists s', VoxelQtScene.on_reset_clicked s = Some s' /\ scene_inv n s'
             /\ VoxelQtScene.model s' = VoxelRubiks.reset (VoxelQtScene.model s)
             /\ VoxelQtScene.queue s' = [] /\ VoxelQtScene.animating s' = false.
Proof.
  intros (Ok & En & Ef & Li & Pd & Hv & Eq). pose proof Ok as (L & _ & HT).
  unfold VoxelQtScene.on_reset_clicked. cbv zeta.
  assert (L' : List.length (VoxelQtScene.cubelets s)
               = List.length (VoxelRubiks.coords (VoxelRubiks.reset (VoxelQtScene.model s)))).
  { simpl. rewrite (lattice_inv_lengths _ Li). exact L. }
  match goal with
  | |- context [VoxelQtScene.set_positions ?f ?c ?ix ?cb] =>
      destruct (set_positions_total f c ix cb L') as [c1 [E1 L1]]
  end.
  { apply Forall_forall. intros i Hi. apply in_seq in Hi. lia. }
  rewrite E1. eexists. split; [reflexivity|].
  split; [|repeat split].
  split.
  { split; [exact L1|]. split; [discriminate | exact HT]. }
  cbn [VoxelQtScene.model VoxelQtScene.frames_per_turn].
  split; [exact En|]. split; [exact Ef|]. split; [apply lattice_inv_reset; exact Li|].
  split; [constructor|]. split; [constructor|]. reflexivity.
Qed.

Lemma scene_inv_speed n value s :
  1 <= value <= 50 -> scene_inv n s ->
  scene_inv n (VoxelQtScene.on_speed_changed value s).
Proof.
  intros Hv (Ok & En & Ef & Li & Pd & Hh & Eq). pose proof Ok as (L & A & _).
  split; [|split; [exact En|split; [exact Ef|split; [exact Li|split; [exact Pd|split;
           [exact Hh|exact Eq]]]]]].
  split; [exact L|]. split; [exact A|].
  cbn [VoxelQtScene.on_speed_changed VoxelQtScene.set_speed VoxelQtScene.frames_per_turn
       VoxelQtScene.speed]. rewrite Ef.
  fold (slider_speed value).
  pose proof slider_checked as C. rewrite forallb_forall in C.
  specialize (C value). unfold slider_check in C.
  assert (Hin : In value (map (Z.add 1) (range 50))).
  { apply in_map_iff. exists (value - 1). split; [lia|]. apply in_range_list. lia. }
  specialize (C Hin). apply andb_true_iff in C. destruct C as [_ C].
  destruct (VoxelQtScene.total_frames 12 (slider_speed value)) as [T|]; [|discriminate].
  exists T. reflexivity.
Qed.

End EventSteps.

Section SceneInit.
Context `{QtColor}.

Lemma build_cubelets_total h cs ms :
  List.length ms = List.length cs ->
  exists es, VoxelQtScene.build_cubelets h cs ms = Some es
             /\ List.length es = List.length cs
             /\ map CubeletEntity.translation es = map (VoxelQtScene.base_pos h) cs
             /\ map CubeletEntity.color es = map blend_colors ms.
Proof.
  revert ms. induction cs as [|c cs IH]; intros [|m ms] L; simpl in L; try discriminate.
  - exists []. repeat split.
  - destruct (IH ms ltac:(lia)) as (es & E & Le & Tr & Co).
    cbn [VoxelQtScene.build_cubelets]. rewrite E. eexists. split; [reflexivity|].
    cbn [List.length map]. rewrite Le, Tr, Co. repeat split.
Qed.

(** What the constructor of the scene builds. *)
Lemma scene_init n s :
  VoxelQtScene.__init__ n = Some s ->
  VoxelRubiks.__init__ n = Some (VoxelQtScene.model s)
  /\ VoxelQtScene.n s = n
  /\ VoxelQtScene.half s = div (of_int (n - 1)) 2%Q
  /\ VoxelQtScene.queue s = []
  /\ VoxelQtScene.animating s = false
  /\ VoxelQtScene.frames_per_turn s = 12
  /\ VoxelQtScene.speed s = 1%Q
  /\ List.length (VoxelQtScene.cubelets s)
     = List.length (VoxelRubiks.coords (VoxelQtScene.model s))
  /\ map CubeletEntity.translation (VoxelQtScene.cubelets s)
     = map (VoxelQtScene.base_pos (VoxelQtScene.half s))
           (VoxelRubiks.coords (VoxelQtScene.model s))
  /\ map CubeletEntity.color (VoxelQtScene.cubelets s)
     = map blend_colors (VoxelRubiks.masks (VoxelQtScene.model s)).
Proof.
  unfold VoxelQtScene.__init__.
  destruct (VoxelRubiks.__init__ n) as [v|] eqn:Ev; [|discriminate].
  assert (Lm : List.length (VoxelRubiks.masks v) = List.length (VoxelRubiks.coords v)).
  { revert Ev. unfold VoxelRubiks.__init__. destruct (2 <=? n); [|discriminate].
    intros [= <-]. simpl. rewrite !length_map. reflexivity. }
  destruct (build_cubelets_total (div (of_int (n - 1)) 2%Q) _ _ Lm) as (es & E & Le & Tr & Co).
  rewrite E. intros [= <-]. simpl. repeat split; assumption.
Qed.

End SceneInit.

Lemma enqueue_all_animating seq s :
  VoxelQtScene.animating (VoxelQtScene.enqueue_all seq s) = VoxelQtScene.animating s.
Proof.
  unfold VoxelQtScene.enqueue_all.
  revert s. induction seq as [|m seq IH]; intros s; cbn [fold_left]; [reflexivity|].
  rewrite IH. reflexivity.
Qed.

Section Reachable.
Context `{Libm} `{Random} `{QtColor}.
Hypothesis libm_ok : libm_quarter_turns.
Hypothesis Hrng : rng_ok.

Lemma init_scene_inv n s :
  n <= 32768 -> VoxelQtScene.__init__ n = Some s -> scene_inv n s.
Proof.
  intros Hn Hs.
  destruct (scene_init n s Hs) as (Hv & _ & _ & Q & An & Fp & Sp & L & _).
  destruct (init_coords n _ Hn Hv) as (En & _ & _ & Ec & Es & Eh).
  assert (P : pending s = []) by (unfold pending; rewrite An; exact Q).
  split.
  { split; [exact L|]. split; [rewrite An; discriminate|].
    exists 12. rewrite Fp, Sp. reflexivity. }
  split; [exact En|]. split; [exact Fp|]. split; [apply (init_inv n); assumption|].
  rewrite P, Eh, Ec, Es. repeat split; constructor.
Qed.

Lemma handle_inv n e st :
  n <= 32768 -> 2 <= n -> scene_inv n (fst st) -> widget_ok n e ->
  exists st', handle e st = Some st' /\ scene_inv n (fst st').
Proof.
  intros Hn H2 Inv We. destruct st as [s g]. simpl fst in *.
  destruct e as [axis index kIndex | moves text | | | value | ]; simpl handle.
  - eexists. split; [reflexivity|]. simpl fst.
    destruct We as (Ha & Hi & Hk).
    apply scene_inv_record; [exact Inv|].
    rewrite Z.mod_small by lia. repeat split; simpl; try lia. exact Ha.
  - destruct (scene_inv_scramble Hrng n moves text s g ltac:(lia) Inv) as (s' & g' & E & I').
    exists (s', g'). split; [exact E | exact I'].
  - eexists. split; [reflexivity|]. apply scene_inv_solve. exact Inv.
  - destruct (scene_inv_reset n s Inv) as (s' & E & I' & _).
    rewrite E. eexists. split; [reflexivity | exact I'].
  - eexists. split; [reflexivity|]. apply scene_inv_speed; assumption.
  - destruct (scene_inv_tick libm_ok n s Inv) as (s' & E & I').
    rewrite E. eexists. split; [reflexivity | exact I'].
Qed.

Lemma reachable_size n st : reachable n st -> 2 <= n.
Proof.
  induction 1 as [s g Hs | e st st' _ IH _ _]; [|exact IH].
  revert Hs. unfold VoxelQtScene.__init__, VoxelRubiks.__init__.
  destruct (2 <=? n) eqn:E; [|discriminate]. intros _. apply Z.leb_le. exact E.
Qed.

Lemma reachable_inv n st : n <= 32768 -> reachable n st -> scene_inv n (fst st).
Proof.
  intros Hn R. pose proof (reachable_size n st R) as H2.
  induction R as [s g Hs | e st st' R IH We E].
  - apply init_scene_inv; assumption.
  - destruct (handle_inv n e st Hn H2 IH We) as (st2 & E2 & I2).
    rewrite E in E2. injection E2 as <-. exact I2.
Qed.

(** In every reachable scene: the lattice occupies exactly the shell cells,
    one cubelet per cell; every recorded move is on an axis, a slice and a
    count the widgets offer (in particular its count is [1..3]); and
    committing the turns still pending would put the cubelets exactly where
    the unit turns of the recorded history take the solved cube.  When
    nothing is pending and the history is empty, the cube is solved. *)
Theorem reachable_scene_invariant n st :
  n <= 32768 -> reachable n st ->
  let s := fst st in
  let v := VoxelQtScene.model s in
  Permutation (VoxelRubiks.coords v) (shell_cells n)
  /\ VoxelRubiks.solved v = shell_cells n
  /\ Forall (valid_move n) (VoxelRubiks.history v)
  /\ VoxelRubiks.coords (commit_turns (pending s) v)
     = turn_cells n (unit_turns (VoxelRubiks.history v)) (VoxelRubiks.solved v)
  /\ (pending s = [] -> VoxelRubiks.history v = [] ->
      VoxelRubiks.coords v = shell_cells n).
Proof.
  intros Hn R. cbv zeta.
  destruct (reachable_inv n st Hn R) as (Ok & En & Ef & Li & Pd & Hv & Eq).
  pose proof Li as (Lok & Es & Pe). rewrite En in Es.
  split; [rewrite <- Es; exact Pe|]. split; [exact Es|]. split; [exact Hv|].
  split.
  - destruct (commit_turns_cells libm_ok _ _ Lok Pd) as [-> _]. simpl.
    rewrite En. exact Eq.
  - intros P0 Hh. rewrite P0, Hh in Eq. simpl in Eq. rewrite Eq. exact Es.
Qed.

(** No handler raises on a reachable scene, whatever the widgets hold: the
    buttons, the slider and the timer tick always succeed. *)
Theorem handlers_never_raise n e st :
  n <= 32768 -> reachable n st -> widget_ok n e ->
  exists st', handle e st = Some st'.
Proof.
  intros Hn R We.
  destruct (handle_inv n e st Hn (reachable_size n st R) (reachable_inv n st Hn R) We)
    as (st' & E & _).
  exists st'. exact E.
Qed.

(** Solve correctness.  In a reachable scene that is idle with an empty
    queue, the [Solve] button queues the unit turns of the inverted history
    and clears the history; once the timer has served the queue (the frame
    count times the queue length in ticks) every cubelet is back on its
    solved position, the history is empty and the scene is idle. *)
Theorem solve_restores_solved n s g :
  n <= 32768 -> reachable n (s, g) ->
  VoxelQtScene.animating s = false -> VoxelQtScene.queue s = [] ->
  let s1 := VoxelQtScene.on_solve_clicked s in
  VoxelQtScene.queue s1
  = unit_turns (inverse_spec (VoxelRubiks.history (VoxelQtScene.model s)))
  /\ exists s2,
       VoxelQtScene.ticks
         (Z.to_nat (frames_of s1) * List.length (VoxelQtScene.queue s1)) s1 = Some s2
       /\ VoxelRubiks.coords (VoxelQtScene.model s2) = shell_cells n
       /\ VoxelRubiks.history (VoxelQtScene.model s2) = []
       /\ VoxelQtScene.queue s2 = []
       /\ VoxelQtScene.animating s2 = false.
Proof.
  intros Hn R An Q s1.
  pose proof (reachable_inv n _ Hn R) as Inv. simpl fst in Inv.
  pose proof (scene_inv_solve n s Inv) as Inv1. fold s1 in Inv1.
  destruct Inv1 as (Ok1 & En1 & Ef1 & Li1 & Pd1 & Hv1 & Eq1).
  destruct (enqueue_all_pending (VoxelRubiks.inverse_history (VoxelQtScene.model s)) s)
    as (Pq & _).
  assert (An1 : VoxelQtScene.animating s1 = false).
  { unfold s1, VoxelQtScene.on_solve_clicked. cbv zeta. simpl VoxelQtScene.animating.
    rewrite enqueue_all_animating. exact An. }
  assert (P1 : pending s1 = VoxelQtScene.queue s1) by (unfold pending; rewrite An1; reflexivity).
  assert (Q1 : VoxelQtScene.queue s1
               = unit_turns (inverse_spec (VoxelRubiks.history (VoxelQtScene.model s)))).
  { rewrite <- P1. change (pending s1)
      with (pending (VoxelQtScene.enqueue_all
                       (VoxelRubiks.inverse_history (VoxelQtScene.model s)) s)).
    rewrite Pq, inverse_history_spec. unfold pending. rewrite An, Q. reflexivity. }
  split; [exact Q1|].
  assert (Hh1 : VoxelRubiks.history (VoxelQtScene.model s1) = []) by reflexivity.
  set (T := frames_of s1) in *. set (q := VoxelQtScene.queue s1) in *.
  assert (T1 : 1 <= T).
  { destruct Ok1 as (_ & _ & [T' HT]). unfold T. rewrite (frames_of_total s1 T' HT).
    apply (total_frames_pos _ _ _ HT). }
  destruct (ticks_from_idle s1 (Z.to_nat T * List.length q) Ok1 An1)
    as (s2 & j & E & Ok2 & F2 & M & P & J & Ph & K).
  { fold T q. rewrite Nat2Z.inj_mul, Z2Nat.id by lia. lia. }
  fold T q in M, P, J, Ph, K.
  rewrite Nat2Z.inj_mul, Z2Nat.id in K by lia.
  assert (Ej : j = List.length q) by nia.
  subst j. rewrite firstn_all in M. rewrite skipn_all in P.
  exists s2. split; [exact E|].
  pose proof Li1 as (Lok1 & Es1 & _).
  rewrite P1 in Pd1, Eq1. fold q in Pd1, Eq1.
  destruct (commit_turns_cells libm_ok q _ Lok1 Pd1) as [Ec _].
  rewrite M, Ec. rewrite En1 in Es1 |- *. rewrite Eq1, Hh1.
  split; [exact Es1|]. split; [reflexivity|].
  apply and_comm. apply (pending_nil s2 Ok2). exact P.
Qed.

(** Ticks keep a scene reachable. *)
Lemma reachable_ticks n k s g s' :
  reachable n (s, g) -> VoxelQtScene.ticks k s = Some s' -> reachable n (s', g).
Proof.
  revert s. induction k as [|k IH]; intros s R; simpl.
  - intros [= <-]. exact R.
  - destruct (VoxelQtScene._on_tick s) as [s1|] eqn:E; [|discriminate].
    apply IH. apply (reach_step n TimerTick (s, g)); [exact R | exact I|].
    simpl. rewrite E. reflexivity.
Qed.

End Reachable.

(** A reachable scene to evaluate on: the 2x2x2 scene after the [Turn]
    button (axis ['x'], slice 0, one quarter-turn) and the twelve ticks that
    serve the turn. *)
Definition turned_scene : VoxelQtScene.t :=
  Eval vm_compute in
    match @VoxelQtScene.ticks Samples.table_libm 12
            (VoxelQtScene.on_turn_clicked "x" 0 0 Samples.scene2) with
    | Some s => s
    | None => Samples.empty_scene
    end.

Lemma turned_scene_reachable :
  @reachable Samples.table_libm Samples.lcg_random Samples.hex_colors 2 (turned_scene, 7).
Proof.
  apply (@reachable_ticks Samples.table_libm Samples.lcg_random Samples.hex_colors 2 12
           (VoxelQtScene.on_turn_clicked "x" 0 0 Samples.scene2)).
  - apply (@reach_step Samples.table_libm Samples.lcg_random Samples.hex_colors 2
             (TurnClicked "x" 0 0) (Samples.scene2, 7)).
    + apply (@reach_init Samples.table_libm Samples.lcg_random Samples.hex_colors 2
               Samples.scene2 7).
      reflexivity.
    + simpl. split; [left; reflexivity | lia].
    + reflexivity.
  - vm_compute. reflexivity.
Qed.

(** The turn has moved the cubelets, and is recorded. *)
Example turned_scene_moved :
  VoxelRubiks.coords (VoxelQtScene.model turned_scene) <> shell_cells 2
  /\ VoxelRubiks.history (VoxelQtScene.model turned_scene) = [Move.mk "x" 0 1]
  /\ pending turned_scene = [].
Proof.
  split; [intros C; vm_compute in C; discriminate C | split; reflexivity].
Qed.

Lemma reachable_scene_invariant_witness :
  Permutation (VoxelRubiks.coords (VoxelQtScene.model turned_scene)) (shell_cells 2)
  /\ VoxelRubiks.solved (VoxelQtScene.model turned_scene) = shell_cells 2
  /\ Forall (valid_move 2) (VoxelRubiks.history (VoxelQtScene.model turned_scene))
  /\ VoxelRubiks.coords
       (@commit_turns Samples.table_libm (pending turned_scene)
          (VoxelQtScene.model turned_scene))
     = turn_cells 2 (unit_turns (VoxelRubiks.history (VoxelQtScene.model turned_scene)))
         (VoxelRubiks.solved (VoxelQtScene.model turned_scene))
  /\ (pending turned_scene = [] ->
      VoxelRubiks.history (VoxelQtScene.model turned_scene) = [] ->
      VoxelRubiks.coords (VoxelQtScene.model turned_scene) = shell_cells 2).
Proof.
  apply (@reachable_scene_invariant Samples.table_libm Samples.lcg_random Samples.hex_colors
           table_libm_ok lcg_random_ok 2 (turned_scene, 7)).
  - lia.
  - exact turned_scene_reachable.
Defined.

Lemma handlers_never_raise_witness :
  exists st',
    @handle Samples.table_libm Samples.lcg_random (ScrambleClicked 5 sample_text)
      (turned_scene, 7) = Some st'.
Proof.
  apply (@handlers_never_raise Samples.table_libm Samples.lcg_random Samples.hex_colors
           table_libm_ok lcg_random_ok 2 (ScrambleClicked 5 sample_text) (turned_scene, 7)).
  - lia.
  - exact turned_scene_reachable.
  - simpl. lia.
Defined.

Lemma solve_restores_solved_witness :
  VoxelQtScene.queue (VoxelQtScene.on_solve_clicked turned_scene)
  = unit_turns (inverse_spec (VoxelRubiks.history (VoxelQtScene.model turned_scene)))
  /\ exists s2,
       @VoxelQtScene.ticks Samples.table_libm
         (Z.to_nat (frames_of (VoxelQtScene.on_solve_clicked turned_scene))
          * List.length (VoxelQtScene.queue (VoxelQtScene.on_solve_clicked turned_scene)))
         (VoxelQtScene.on_solve_clicked turned_scene) = Some s2
       /\ VoxelRubiks.coords (VoxelQtScene.model s2) = shell_cells 2
       /\ VoxelRubiks.history (VoxelQtScene.model s2) = []
       /\ VoxelQtScene.queue s2 = []
       /\ VoxelQtScene.animating s2 = false.
Proof.
  apply (@solve_restores_solved Samples.table_libm Samples.lcg_random Samples.hex_colors
           table_libm_ok lcg_random_ok 2 turned_scene 7).
  - lia.
  - exact turned_scene_reachable.
  - reflexivity.
  - reflexivity.
Defined.

(* ================================================================== *)
(** * The drawn cubelets and the lattice                                *)
(* ================================================================== *)

Lemma list_set_nth {A : Type} (l : list A) i v l' j :
  list_set l i v = Some l' ->
  nth_error l' j = if Nat.eqb j i then Some v else nth_error l j.
Proof.
  revert i l' j. induction l as [|a l IH]; intros i l' j; simpl.
  - destruct i; discriminate.
  - destruct i as [|i].
    + intros [= <-]. destruct j; reflexivity.
    + destruct (list_set l i v) as [t'|] eqn:E; [|discriminate].
      intros [= <-]. destruct j as [|j]; simpl; [reflexivity|]. apply IH. exact E.
Qed.

(** What the position loop writes: the entities of the listed indices get
    the position of their row, the others and all colours stay. *)
Lemma set_positions_view f coords idxs cs cs' :
  VoxelQtScene.set_positions f coords idxs cs = Some cs' ->
  List.length cs' = List.length cs
  /\ map CubeletEntity.color cs' = map CubeletEntity.color cs
  /\ (forall j, In j idxs ->
        nth_error (map CubeletEntity.translation cs') j = option_map f (nth_error coords j))
  /\ (forall j, ~ In j idxs ->
        nth_error (map CubeletEntity.translation cs') j
        = nth_error (map CubeletEntity.translation cs) j).
Proof.
  revert cs. induction idxs as [|i idxs IH]; intros cs; simpl.
  - intros [= <-]. split; [reflexivity|]. split; [reflexivity|].
    split; [intros j []|intros j _; reflexivity].
  - destruct (nth_error coords i) as [c|] eqn:Ec; [|discriminate].
    destruct (nth_error cs i) as [e|] eqn:Ee; [|discriminate].
    destruct (list_set cs i _) as [cs1|] eqn:E1; [|discriminate].
    intros E. destruct (IH cs1 E) as (Le & Co & Hin & Hout).
    pose proof (list_set_nth cs i (CubeletEntity.set_position e (f c)) cs1) as N1.
    assert (L1 : List.length cs1 = List.length cs).
    { destruct (list_set_length cs i (CubeletEntity.set_position e (f c))) as (l' & El & Ll).
      - apply nth_error_Some. rewrite Ee. discriminate.
      - rewrite E1 in El. injection El as <-. exact Ll. }
    split; [rewrite Le; exact L1|]. split.
    { rewrite Co. apply nth_error_ext. intros j. rewrite !nth_error_map, (N1 j E1).
      destruct (Nat.eqb_spec j i) as [->|]; [rewrite Ee|]; reflexivity. }
    split.
    + intros j Hj. destruct (in_dec Nat.eq_dec j idxs) as [I|NI]; [apply Hin; exact I|].
      destruct Hj as [<-|Hj]; [|contradiction].
      rewrite (Hout i NI), nth_error_map, (N1 i E1), Nat.eqb_refl, Ec. reflexivity.
    + intros j Hj. rewrite (Hout j) by (intros C; apply Hj; right; exact C).
      rewrite !nth_error_map, (N1 j E1).
      destruct (Nat.eqb_spec j i) as [->|]; [|reflexivity].
      exfalso. apply Hj. left. reflexivity.
Qed.

Lemma slice_mask_coords axis index v v' :
  VoxelRubiks.coords v' = VoxelRubiks.coords v ->
  VoxelRubiks._slice_mask axis index v' = VoxelRubiks._slice_mask axis index v.
Proof. intros E. unfold VoxelRubiks._slice_mask. rewrite E. reflexivity. Qed.

Section View.
Context `{Libm} `{Random} `{QtColor}.

(** A commit rewrites only the rows of its slice. *)
Lemma rotate_keeps_rows_outside axis index dir v j :
  ~ In j (np_where (VoxelRubiks._slice_mask axis index v)) ->
  nth_error (VoxelRubiks.coords (VoxelRubiks._rotate_slice_90 axis index dir v)) j
  = nth_error (VoxelRubiks.coords v) j.
Proof.
  rewrite in_np_where, rotate_coords, slice_mask_axis_coord, !nth_error_map.
  destruct (nth_error (VoxelRubiks.coords v) j) as [p|]; simpl; [|reflexivity].
  destruct (axis_coord axis p =? index); [intros C; exfalso; apply C|]; reflexivity.
Qed.

(** Entity [j] is drawn at the base position of row [j] of the lattice. *)
Definition shown (s : VoxelQtScene.t) (j : nat) : Prop :=
  nth_error (map CubeletEntity.translation (VoxelQtScene.cubelets s)) j
  = nth_error (map (VoxelQtScene.base_pos (VoxelQtScene.half s))
                   (VoxelRubiks.coords (VoxelQtScene.model s))) j.

(** The part of the view that never changes. *)
Definition view_base (n : Z) (s : VoxelQtScene.t) : Prop :=
  VoxelQtScene.half s = div (of_int (n - 1)) 2%Q
  /\ List.length (VoxelQtScene.cubelets s)
     = List.length (VoxelRubiks.coords (VoxelQtScene.model s))
  /\ List.length (VoxelRubiks.solved (VoxelQtScene.model s))
     = List.length (VoxelRubiks.coords (VoxelQtScene.model s))
  /\ map CubeletEntity.color (VoxelQtScene.cubelets s)
     = map blend_colors (VoxelRubiks.masks (VoxelQtScene.model s)).

(** The view agrees with the lattice: every entity when the scene is idle,
    every entity outside the turning slice while a turn is animated. *)
Definition view_ok (n : Z) (s : VoxelQtScene.t) : Prop :=
  view_base n s
  /\ (VoxelQtScene.animating s = false -> forall j, shown s j)
  /\ (VoxelQtScene.animating s = true ->
      exists a i d,
        VoxelQtScene.current_move s = Some (a, i, d)
        /\ VoxelQtScene.moving_indices s
           = Some (np_where (VoxelRubiks._slice_mask a i (VoxelQtScene.model s)))
        /\ forall j, ~ In j (np_where (VoxelRubiks._slice_mask a i (VoxelQtScene.model s))) ->
                     shown s j).

(** The handlers that only touch the queue, the history or the speed. *)
Definition same_view (s s' : VoxelQtScene.t) : Prop :=
  VoxelQtScene.cubelets s' = VoxelQtScene.cubelets s
  /\ VoxelQtScene.animating s' = VoxelQtScene.animating s
  /\ VoxelQtScene.current_move s' = VoxelQtScene.current_move s
  /\ VoxelQtScene.moving_indices s' = VoxelQtScene.moving_indices s
  /\ VoxelQtScene.half s' = VoxelQtScene.half s
  /\ VoxelRubiks.coords (VoxelQtScene.model s') = VoxelRubiks.coords (VoxelQtScene.model s)
  /\ VoxelRubiks.solved (VoxelQtScene.model s') = VoxelRubiks.solved (VoxelQtScene.model s)
  /\ VoxelRubiks.masks (VoxelQtScene.model s') = VoxelRubiks.masks (VoxelQtScene.model s).

Lemma view_ok_same n s s' : same_view s s' -> view_ok n s -> view_ok n s'.
Proof.
  intros (Ec & Ea & Em & Ei & Eh & Eo & Es & Ek) ((Hh & Hl & Hs & Hc) & Hidle & Hmov).
  unfold view_ok, view_base, shown.
  rewrite Ec, Ea, Em, Ei, Eh, Eo, Es, Ek.
  split; [repeat split; assumption|]. split; [exact Hidle|].
  intros An. destruct (Hmov An) as (a & i & d & Cm & Mi & Sh).
  exists a, i, d. rewrite (slice_mask_coords a i _ _ Eo).
  split; [exact Cm|]. split; [exact Mi | exact Sh].
Qed.

Lemma same_view_refl s : same_view s s.
Proof. repeat split. Qed.

Lemma same_view_trans s1 s2 s3 : same_view s1 s2 -> same_view s2 s3 -> same_view s1 s3.
Proof.
  intros (A1 & A2 & A3 & A4 & A5 & A6 & A7 & A8) (B1 & B2 & B3 & B4 & B5 & B6 & B7 & B8).
  unfold same_view. rewrite B1, B2, B3, B4, B5, B6, B7, B8. repeat split; assumption.
Qed.

Lemma same_view_enqueue_move axis index k record s :
  same_view s (VoxelQtScene.enqueue_move axis index k record s).
Proof. unfold VoxelQtScene.enqueue_move. destruct record; repeat split. Qed.

Lemma same_view_enqueue_all seq s : same_view s (VoxelQtScene.enqueue_all seq s).
Proof.
  unfold VoxelQtScene.enqueue_all. revert s.
  induction seq as [|m seq IH]; intros s; cbn [fold_left]; [apply same_view_refl|].
  eapply same_view_trans; [apply same_view_enqueue_move | apply IH].
Qed.

Lemma same_view_scramble moves text s g s' g' :
  VoxelQtScene.on_scramble_clicked moves text s g = Some (s', g') -> same_view s s'.
Proof.
  unfold VoxelQtScene.on_scramble_clicked. cbv zeta.
  destruct (VoxelRubiks.scramble _ _ _ _) as [[[seq v'] g1]|] eqn:E; [|discriminate].
  intros [= <- <-]. unfold VoxelRubiks.scramble in E.
  destruct (VoxelRubiks.scramble_loop _ _ _ _) as [[seq' g2]|]; [|discriminate].
  injection E as <- <- <-.
  eapply same_view_trans; [|apply same_view_enqueue_all]. repeat split.
Qed.

Lemma same_view_solve s : same_view s (VoxelQtScene.on_solve_clicked s).
Proof.
  unfold VoxelQtScene.on_solve_clicked. cbv zeta.
  eapply same_view_trans; [apply same_view_enqueue_all|]. repeat split.
Qed.

Lemma view_ok_reset n s s' :
  VoxelQtScene.on_reset_clicked s = Some s' -> view_ok n s -> view_ok n s'.
Proof.
  unfold VoxelQtScene.on_reset_clicked. cbv zeta.
  destruct (VoxelQtScene.set_positions _ _ _ _) as [cs'|] eqn:E; [|discriminate].
  intros [= <-] ((Hh & Hl & Hs & Hc) & _).
  destruct (set_positions_view _ _ _ _ _ E) as (Le & Co & Hin & Hout).
  simpl VoxelRubiks.coords in *.
  split.
  { split; [exact Hh|]. simpl. split; [rewrite Le, Hl, Hs; reflexivity|].
    split; [reflexivity|]. rewrite Co. exact Hc. }
  split; [|intros C; discriminate C].
  intros _ j. unfold shown. simpl.
  destruct (Nat.lt_ge_cases j (List.length (VoxelRubiks.solved (VoxelQtScene.model s))))
    as [Lt|Ge].
  - rewrite Hin by (apply in_seq; lia). rewrite nth_error_map. reflexivity.
  - rewrite Hout by (rewrite in_seq; lia).
    transitivity (@None vec3); [|symmetry]; apply nth_error_None; rewrite length_map; lia.
Qed.

Lemma view_ok_start n s :
  view_base n s -> (forall j, shown s j) -> view_ok n (VoxelQtScene._start_next_turn s).
Proof.
  intros Hb Sh. unfold VoxelQtScene._start_next_turn.
  destruct (VoxelQtScene.queue s) as [|[[a i] d] q].
  - split; [exact Hb|]. split; [intros _; exact Sh | intros C; discriminate C].
  - split; [exact Hb|]. split; [intros C; discriminate C|].
    intros _. exists a, i, d. split; [reflexivity|]. split; [reflexivity|].
    intros j _. exact (Sh j).
Qed.

Lemma view_ok_animate n s s' :
  VoxelQtScene.animating s = true -> view_ok n s ->
  VoxelQtScene.animate_frame s = Some s' -> view_ok n s'.
Proof.
  intros An ((Hh & Hl & Hs & Hc) & _ & Hmov).
  destruct (Hmov An) as (a & i & d & Cm & Mi & Sh).
  unfold VoxelQtScene.animate_frame. rewrite Cm, Mi.
  destruct (VoxelQtScene.total_frames _ _) as [T|]; [|discriminate]. cbv zeta.
  destruct (VoxelQtScene.set_positions _ _ _ (VoxelQtScene.cubelets s)) as [cs1|] eqn:E1;
    [|discriminate].
  destruct (set_positions_view _ _ _ _ _ E1) as (L1 & C1 & _ & O1).
  cbn [VoxelQtScene.frame VoxelQtScene.set_frame VoxelQtScene.set_cubelets].
  destruct (T <=? VoxelQtScene.frame s + 1).
  - cbn [VoxelQtScene.model VoxelQtScene.set_model VoxelQtScene.set_frame
         VoxelQtScene.set_cubelets VoxelQtScene.cubelets VoxelQtScene.half].
    destruct (VoxelQtScene.set_positions _ _ _ cs1) as [cs2|] eqn:E2; [|discriminate].
    destruct (set_positions_view _ _ _ _ _ E2) as (L2 & C2 & I2 & O2).
    intros [= <-]. apply view_ok_start.
    + unfold view_base.
      cbn [VoxelQtScene.model VoxelQtScene.set_model VoxelQtScene.set_frame
           VoxelQtScene.set_cubelets VoxelQtScene.cubelets VoxelQtScene.half].
      split; [exact Hh|].
      split; [rewrite L2, L1, rotate_length; exact Hl|].
      split; [rewrite rotate_length; exact Hs|]. rewrite C2, C1. exact Hc.
    + intros j. unfold shown.
      cbn [VoxelQtScene.model VoxelQtScene.set_model VoxelQtScene.set_frame
           VoxelQtScene.set_cubelets VoxelQtScene.cubelets VoxelQtScene.half].
      destruct (in_dec Nat.eq_dec j
                  (np_where (VoxelRubiks._slice_mask a i (VoxelQtScene.model s)))) as [I|NI].
      * rewrite (I2 j I), nth_error_map. reflexivity.
      * rewrite (O2 j NI), (O1 j NI), (Sh j NI), !nth_error_map.
        rewrite (rotate_keeps_rows_outside a i d _ j NI). reflexivity.
  - intros [= <-]. split; [|split].
    + split; [exact Hh|]. simpl. split; [rewrite L1; exact Hl|].
      split; [exact Hs|]. rewrite C1. exact Hc.
    + simpl. rewrite An. intros C; discriminate C.
    + intros _. exists a, i, d. simpl. split; [exact Cm|]. split; [exact Mi|].
      intros j NI. unfold shown. simpl. rewrite (O1 j NI). exact (Sh j NI).
Qed.

Lemma view_ok_tick n s s' :
  view_ok n s -> VoxelQtScene._on_tick s = Some s' -> view_ok n s'.
Proof.
  intros V. unfold VoxelQtScene._on_tick.
  destruct (VoxelQtScene.animating s) eqn:An; simpl.
  - rewrite An. simpl. apply view_ok_animate; assumption.
  - destruct (VoxelQtScene.queue s) as [|t q] eqn:Q; simpl.
    + rewrite An. simpl. intros [= <-]. exact V.
    + destruct V as (Hb & Hidle & _).
      pose proof (view_ok_start n s Hb (Hidle An)) as V1.
      assert (A1 : VoxelQtScene.animating (VoxelQtScene._start_next_turn s) = true).
      { unfold VoxelQtScene._start_next_turn. rewrite Q. destruct t as [[a i] d]. reflexivity. }
      rewrite A1. simpl. apply view_ok_animate; assumption.
Qed.

Lemma view_ok_init n s : VoxelQtScene.__init__ n = Some s -> view_ok n s.
Proof.
  intros Hs.
  destruct (scene_init n s Hs) as (Hv & _ & Hh & _ & An & _ & _ & L & Tr & Co).
  assert (Ls : VoxelRubiks.solved (VoxelQtScene.model s)
               = VoxelRubiks.coords (VoxelQtScene.model s)).
  { revert Hv. unfold VoxelRubiks.__init__. destruct (2 <=? n); [|discriminate].
    intros [= <-]. reflexivity. }
  split; [|split].
  - split; [exact Hh|]. split; [exact L|]. split; [rewrite Ls; reflexivity | exact Co].
  - intros _ j. unfold shown. rewrite Tr. reflexivity.
  - rewrite An. intros C; discriminate C.
Qed.

Lemma reachable_view n st : reachable n st -> view_ok n (fst st).
Proof.
  induction 1 as [s g Hs | e [s g] [s' g'] R IH We E]; simpl fst in *.
  - apply view_ok_init. exact Hs.
  - destruct e as [axis index kIndex | moves text | | | value | ]; simpl in E.
    + injection E as <- <-.
      apply (view_ok_same n s); [apply same_view_enqueue_move | exact IH].
    + apply (view_ok_same n s); [|exact IH].
      apply (same_view_scramble moves text s g s' g'). exact E.
    + injection E as <- <-. apply (view_ok_same n s); [apply same_view_solve | exact IH].
    + destruct (VoxelQtScene.on_reset_clicked s) as [s1|] eqn:Er; [|discriminate].
      injection E as <- <-. apply (view_ok_reset n s); assumption.
    + injection E as <- <-. apply (view_ok_same n s); [|exact IH]. repeat split.
    + destruct (VoxelQtScene._on_tick s) as [s1|] eqn:Et; [|discriminate].
      injection E as <- <-. apply (view_ok_tick n s); assumption.
Qed.

(** The view follows the lattice.  In every reachable scene each entity
    keeps the colour blended from its cubelet's mask; when the scene is idle
    every entity sits at the base position [(x - h, y - h, z - h)],
    [h = (n-1)/2], of its lattice row; while a turn is animated the moving
    indices are those of the turn's slice in the current lattice, and every
    entity outside them sits at its base position. *)
Theorem view_follows_lattice n s g :
  reachable n (s, g) ->
  let pos := VoxelQtScene.base_pos (div (of_int (n - 1)) 2%Q) in
  map CubeletEntity.color (VoxelQtScene.cubelets s)
  = map blend_colors (VoxelRubiks.masks (VoxelQtScene.model s))
  /\ (VoxelQtScene.animating s = false ->
      map CubeletEntity.translation (VoxelQtScene.cubelets s)
      = map pos (VoxelRubiks.coords (VoxelQtScene.model s)))
  /\ (VoxelQtScene.animating s = true ->
      exists a i d,
        VoxelQtScene.current_move s = Some (a, i, d)
        /\ VoxelQtScene.moving_indices s
           = Some (np_where (VoxelRubiks._slice_mask a i (VoxelQtScene.model s)))
        /\ forall j, ~ In j (np_where (VoxelRubiks._slice_mask a i (VoxelQtScene.model s))) ->
             nth_error (map CubeletEntity.translation (VoxelQtScene.cubelets s)) j
             = nth_error (map pos (VoxelRubiks.coords (VoxelQtScene.model s))) j).
Proof.
  intros R. cbv zeta.
  destruct (reachable_view n _ R) as ((Hh & _ & _ & Hc) & Hidle & Hmov). simpl fst in *.
  unfold shown in *. rewrite Hh in *.
  split; [exact Hc|]. split.
  - intros An. apply nth_error_ext. exact (Hidle An).
  - exact Hmov.
Qed.

End View.

Lemma view_follows_lattice_witness :
  map CubeletEntity.color (VoxelQtScene.cubelets turned_scene)
  = map (@blend_colors Samples.hex_colors)
        (VoxelRubiks.masks (VoxelQtScene.model turned_scene))
  /\ (VoxelQtScene.animating turned_scene = false ->
      map CubeletEntity.translation (VoxelQtScene.cubelets turned_scene)
      = map (VoxelQtScene.base_pos (div (of_int (2 - 1)) 2%Q))
            (VoxelRubiks.coords (VoxelQtScene.model turned_scene)))
  /\ (VoxelQtScene.animating turned_scene = true ->
      exists a i d,
        VoxelQtScene.current_move turned_scene = Some (a, i, d)
        /\ VoxelQtScene.moving_indices turned_scene
           = Some (np_where (VoxelRubiks._slice_mask a i (VoxelQtScene.model turned_scene)))
        /\ forall j,
             ~ In j (np_where (VoxelRubiks._slice_mask a i
                                 (VoxelQtScene.model turned_scene))) ->
             nth_error (map CubeletEntity.translation (VoxelQtScene.cubelets turned_scene)) j
             = nth_error (map (VoxelQtScene.base_pos (div (of_int (2 - 1)) 2%Q))
                              (VoxelRubiks.coords (VoxelQtScene.model turned_scene))) j).
Proof.
  apply (@view_follows_lattice Samples.table_libm Samples.lcg_random Samples.hex_colors
           2 turned_scene 7).
  exact turned_scene_reachable.
Defined.

(** The animated case is met: five ticks after the [Turn] button the turn is
    still animated, on the four cubelets of the slice [x = 0]. *)
Example turning_scene_is_animating :
  exists s,
    @VoxelQtScene.ticks Samples.table_libm 5
      (VoxelQtScene.on_turn_clicked "x" 0 0 Samples.scene2) = Some s
    /\ VoxelQtScene.animating s = true
    /\ VoxelQtScene.current_move s = Some ("x"%string, 0, 1)
    /\ VoxelQtScene.moving_indices s = Some [0; 2; 4; 6]%nat.
Proof.
  eexists. split; [vm_compute; reflexivity|]. vm_compute. repeat split.
Qed.

Section ResetAnywhere.
Context `{Libm} `{Random} `{QtColor}.
Hypothesis libm_ok : libm_quarter_turns.
Hypothesis Hrng : rng_ok.

(** [Reset] works at any time, also in the middle of a turn and with turns
    queued: it succeeds, drops the queue and the animated turn, empties the
    history, puts the lattice back on the solved cells and draws every
    entity at the base position of its solved cell. *)
Theorem reset_cancels_everything n s g :
  n <= 32768 -> reachable n (s, g) ->
  exists s',
    VoxelQtScene.on_reset_clicked s = Some s'
    /\ VoxelQtScene.queue s' = []
    /\ VoxelQtScene.animating s' = false
    /\ VoxelQtScene.current_move s' = None
    /\ VoxelRubiks.history (VoxelQtScene.model s') = []
    /\ VoxelRubiks.coords (VoxelQtScene.model s') = shell_cells n
    /\ map CubeletEntity.translation (VoxelQtScene.cubelets s')
       = map (VoxelQtScene.base_pos (div (of_int (n - 1)) 2%Q)) (shell_cells n).
Proof.
  intros Hn R.
  pose proof (reachable_inv libm_ok Hrng n _ Hn R) as Inv. simpl fst in Inv.
  destruct (scene_inv_reset n s Inv) as (s' & E & _ & M & Q & An).
  destruct Inv as (_ & En & _ & (_ & Es & _) & _). rewrite En in Es.
  assert (R' : reachable n (s', g)).
  { apply (reach_step n ResetClicked (s, g)); [exact R | exact I|]. simpl. rewrite E. reflexivity. }
  destruct (reachable_view n _ R') as ((Hh & _) & Hidle & _). simpl fst in *.
  assert (Ec : VoxelRubiks.coords (VoxelQtScene.model s') = shell_cells n).
  { rewrite M. simpl. exact Es. }
  exists s'. split; [exact E|]. split; [exact Q|]. split; [exact An|].
  split.
  { revert E. unfold VoxelQtScene.on_reset_clicked. cbv zeta.
    destruct (VoxelQtScene.set_positions _ _ _ _); [|discriminate]. intros [= <-]. reflexivity. }
  split; [rewrite M; reflexivity|]. split; [exact Ec|].
  apply nth_error_ext. intros j. pose proof (Hidle An j) as Sh. unfold shown in Sh.
  rewrite Hh, Ec in Sh. exact Sh.
Qed.

End ResetAnywhere.

Lemma reset_cancels_everything_witness :
  exists s',
    VoxelQtScene.on_reset_clicked turned_scene = Some s'
    /\ VoxelQtScene.queue s' = []
    /\ VoxelQtScene.animating s' = false
    /\ VoxelQtScene.current_move s' = None
    /\ VoxelRubiks.history (VoxelQtScene.model s') = []
    /\ VoxelRubiks.coords (VoxelQtScene.model s') = shell_cells 2
    /\ map CubeletEntity.translation (VoxelQtScene.cubelets s')
       = map (VoxelQtScene.base_pos (div (of_int (2 - 1)) 2%Q)) (shell_cells 2).
Proof.
  apply (@reset_cancels_everything Samples.table_libm Samples.lcg_random Samples.hex_colors
           table_libm_ok lcg_random_ok 2 turned_scene 7).
  - lia.
  - exact turned_scene_reachable.
Defined.
